(** * Klix / Nemo: the agent runtime and its web front end

    A shallow embedding of the conversational agent of the repository:
    the Nemo web front end (React components and hooks, TypeScript), the
    Nemo WebSocket backend (Python, FastAPI) and the core components of
    the agent loop (ContextWindow, ToolRegistry, AgentLoop).

    Part I holds the embedding, one module per source unit; Part II
    holds the properties proved about it. *)

From Stdlib Require Import NArith List Bool Lia.
From stdpp Require Import base option list strings gmap pretty sorting.

Set Default Proof Using "Type".

(** * Part I. The embedding *)

(** ** Text

    A JavaScript string is a sequence of UTF-16 code units and a Python
    [str] a sequence of code points; both are lists of numbers here.
    The code only concatenates, compares and trims text, and the wire
    (JSON over the WebSocket) is taken to carry text unchanged. *)
Module Text.

Definition code_unit := N.
Definition ustring := list code_unit.

(** A literal of the source, written as a Rocq string of ASCII characters. *)
Definition lit (s : string) : ustring :=
  map Ascii.N_of_ascii (String.list_ascii_of_string s).
Arguments lit : simpl never.

(** JavaScript truthiness of a string: the empty string is the only falsy one. *)
Definition truthy (s : ustring) : bool :=
  match s with
  | [] => false
  | _ :: _ => true
  end.

(** ECMAScript's WhiteSpace and LineTerminator code points, the ones
    [String.prototype.trim] strips: TAB, VT, FF, SP, NBSP, ZWNBSP and
    the Unicode space separators; LF, CR, LS and PS.  All of them lie in
    the Basic Multilingual Plane, so each is one code unit. *)
Definition is_white_space (c : code_unit) : bool :=
  ((c =? 9) || (c =? 10) || (c =? 11) || (c =? 12) || (c =? 13) || (c =? 32)
   || (c =? 160) || (c =? 5760)
   || ((8192 <=? c) && (c <=? 8202))
   || (c =? 8232) || (c =? 8233) || (c =? 8239) || (c =? 8287)
   || (c =? 12288) || (c =? 65279))%N.

Fixpoint trim_start (s : ustring) : ustring :=
  match s with
  | [] => []
  | c :: r => if is_white_space c then trim_start r else s
  end.

Definition trim_end (s : ustring) : ustring := rev (trim_start (rev s)).

(** [String.prototype.trim]. *)
Definition trim (s : ustring) : ustring := trim_end (trim_start s).

(** A string made of white space only (the empty string included). *)
Definition blank (s : ustring) : bool := forallb is_white_space s.

End Text.

(** ** InputBar (components/InputBar.tsx)

    The component keeps the text of the input field in [input];
    [isListening] comes from the speech recognition hook.  The [onSend]
    callback of its props is modelled by the value the handler passes to
    it, [None] when the callback is not invoked. *)
Module InputBar.
Import Text.

Record Props := mkProps {
  disabled : bool;
  isConnected : bool
}.

Record State := mkState {
  input : ustring;
  isListening : bool
}.

(** [handleSend]: trims the input and, when the trimmed text is truthy
    and the bar is not disabled, calls [onSend(trimmed)] and clears the
    field.  The send button's [onClick] is this function. *)
Definition handleSend (p : Props) (st : State) : State * option ustring :=
  let trimmed := trim (input st) in
  if truthy trimmed && negb (disabled p)
  then ({| input := []; isListening := isListening st |}, Some trimmed)
  else (st, None).

Record KeyboardEvent := mkKey {
  key : string;
  shiftKey : bool
}.

(** [handleKeyDown]: Enter without Shift sends; every other key is left
    to the input field. *)
Definition handleKeyDown (p : Props) (st : State) (e : KeyboardEvent)
  : State * option ustring :=
  if String.eqb (key e) "Enter" && negb (shiftKey e)
  then handleSend p st
  else (st, None).

(** The [disabled] attribute of the text field and of the send button,
    as the component renders them. *)
Definition field_disabled (p : Props) (st : State) : bool :=
  disabled p || negb (isConnected p) || isListening st.

Definition button_disabled (p : Props) (st : State) : bool :=
  disabled p || negb (truthy (trim (input st))) || negb (isConnected p)
  || isListening st.

(** The user's gestures as the browser delivers them: a disabled
    control dispatches neither clicks nor key events. *)
Definition click (p : Props) (st : State) : State * option ustring :=
  if button_disabled p st then (st, None) else handleSend p st.

Definition press (p : Props) (st : State) (e : KeyboardEvent)
  : State * option ustring :=
  if field_disabled p st then (st, None) else handleKeyDown p st e.

End InputBar.

(** ** JSON values

    What [JSON.stringify] / [JSON.parse] and Python's [json] exchange.
    An object is a finite map from keys to values. *)
Module Json.
Import Text.

#[warnings="-register-all"]
Inductive JSON :=
  | JNull
  | JBool (b : bool)
  | JNum (n : Z)
  | JStr (s : ustring)
  | JArr (l : list JSON)
  | JObj (o : gmap string JSON).

(** Property access [j.k] / [j[k]] on a parsed value: [None] is
    JavaScript's [undefined], a missing key. *)
Definition field (k : string) (j : JSON) : option JSON :=
  match j with
  | JObj o => o !! k
  | _ => None
  end.

Definition is_string (j : JSON) : bool :=
  match j with
  | JStr _ => true
  | _ => false
  end.

Definition is_array (j : JSON) : bool :=
  match j with
  | JArr _ => true
  | _ => false
  end.

(** A required field of string type. *)
Definition has_string (k : string) (j : JSON) : bool :=
  match field k j with
  | Some v => is_string v
  | None => false
  end.

(** An optional field: absent, or of the given kind. *)
Definition optional (kind : JSON → bool) (k : string) (j : JSON) : bool :=
  match field k j with
  | Some v => kind v
  | None => true
  end.

End Json.

(** ** useNemoSocket (hooks/useNemoSocket.ts)

    The hook's React state and refs are the fields of [State]; each
    callback of the source is a function on it, and the browser drives
    the hook through [Event]s. *)
Module NemoSocket.
Import Text Json.

Record NemoResponse := mkResponse {
  text : option ustring;
  audio : option ustring;
  visemes : list JSON;
  error : option ustring
}.

(** The cast [const data: NemoResponse = JSON.parse(event.data)] on a
    parsed frame of the declared interface, an object whose [text],
    [audio] and [error] are strings where present: a field that is
    missing reads as [undefined].  Frames outside the interface are not
    decoded: on [null], or on a [text] that is no string,
    [data.text?.substring] throws before anything is stored. *)
Definition str_field (k : string) (j : JSON) : option ustring :=
  match field k j with
  | Some (JStr s) => Some s
  | _ => None
  end.

Definition decode (j : JSON) : NemoResponse :=
  {| text := str_field "text" j;
     audio := str_field "audio" j;
     visemes := match field "visemes" j with
                | Some (JArr l) => l
                | _ => []
                end;
     error := str_field "error" j |}.

Definition WS_URL : ustring := lit "ws://localhost:8000/talk".
Definition RECONNECT_DELAY : N := 3000.
Definition MAX_RECONNECT_ATTEMPTS : nat := 5.

(** [WebSocket.readyState]. *)
Inductive ReadyState := CONNECTING | OPEN | CLOSING | CLOSED.

Record State := mkState {
  isConnected : bool;
  isConnecting : bool;
  lastResponse : option NemoResponse;
  (** the hook's [error] state *)
  err : option ustring;
  (** [wsRef.current], by the ready state of the socket it holds *)
  wsRef : option ReadyState;
  reconnectAttemptsRef : nat;
  (** every [setTimeout(connect, delay)] the hook has issued, by delay *)
  scheduled : list N;
  (** every frame handed to [ws.send] *)
  sent : list JSON
}.

Definition initial : State :=
  {| isConnected := false; isConnecting := true; lastResponse := None;
     err := None; wsRef := None; reconnectAttemptsRef := 0;
     scheduled := []; sent := [] |}.

(** [connect]: [created] tells whether [new WebSocket(WS_URL)] returned
    (true) or threw (false). *)
Definition connect (created : bool) (st : State) : State :=
  match wsRef st with
  | Some OPEN => st
  | _ =>
    if created then
      {| isConnected := isConnected st; isConnecting := true;
         lastResponse := lastResponse st; err := None;
         wsRef := Some CONNECTING;
         reconnectAttemptsRef := reconnectAttemptsRef st;
         scheduled := scheduled st; sent := sent st |}
    else
      {| isConnected := isConnected st; isConnecting := false;
         lastResponse := lastResponse st;
         err := Some (lit "Failed to connect");
         wsRef := wsRef st;
         reconnectAttemptsRef := reconnectAttemptsRef st;
         scheduled := scheduled st; sent := sent st |}
  end.

Definition onopen (st : State) : State :=
  {| isConnected := true; isConnecting := false;
     lastResponse := lastResponse st; err := None;
     wsRef := Some OPEN; reconnectAttemptsRef := 0;
     scheduled := scheduled st; sent := sent st |}.

Definition onclose (st : State) : State :=
  if reconnectAttemptsRef st <? MAX_RECONNECT_ATTEMPTS then
    {| isConnected := false; isConnecting := false;
       lastResponse := lastResponse st; err := err st;
       wsRef := Some CLOSED;
       reconnectAttemptsRef := S (reconnectAttemptsRef st);
       scheduled := scheduled st ++ [RECONNECT_DELAY]; sent := sent st |}
  else
    {| isConnected := false; isConnecting := false;
       lastResponse := lastResponse st;
       err := Some (lit "Unable to connect to Nemo. Is the server running?");
       wsRef := Some CLOSED;
       reconnectAttemptsRef := reconnectAttemptsRef st;
       scheduled := scheduled st; sent := sent st |}.

Definition onerror (st : State) : State :=
  {| isConnected := isConnected st; isConnecting := isConnecting st;
     lastResponse := lastResponse st; err := Some (lit "Connection error");
     wsRef := wsRef st; reconnectAttemptsRef := reconnectAttemptsRef st;
     scheduled := scheduled st; sent := sent st |}.

(** [onmessage]: [data] is the parsed frame, [None] when [JSON.parse]
    or the logging of [data.text] threw (the handler then only logs). *)
Definition onmessage (data : option NemoResponse) (st : State) : State :=
  match data with
  | None => st
  | Some r =>
    {| isConnected := isConnected st; isConnecting := isConnecting st;
       lastResponse := Some r;
       err := match error r with
              | Some e => if truthy e then Some e else err st
              | None => err st
              end;
       wsRef := wsRef st; reconnectAttemptsRef := reconnectAttemptsRef st;
       scheduled := scheduled st; sent := sent st |}
  end.

(** The frame [JSON.stringify({ text })]. *)
Definition request (t : ustring) : JSON := JObj {[ "text" := JStr t ]}.

Definition sendMessage (t : ustring) (st : State) : State :=
  match wsRef st with
  | Some OPEN =>
    {| isConnected := isConnected st; isConnecting := isConnecting st;
       lastResponse := lastResponse st; err := err st;
       wsRef := wsRef st; reconnectAttemptsRef := reconnectAttemptsRef st;
       scheduled := scheduled st; sent := sent st ++ [request t] |}
  | _ =>
    {| isConnected := isConnected st; isConnecting := isConnecting st;
       lastResponse := lastResponse st;
       err := Some (lit "Not connected to Nemo");
       wsRef := wsRef st; reconnectAttemptsRef := reconnectAttemptsRef st;
       scheduled := scheduled st; sent := sent st |}
  end.

(** What the browser can do to the hook: the socket's events, and a
    reconnect timer firing (which calls [connect]). *)
Inductive Event :=
  | WsOpen
  | WsClose
  | WsError
  | WsMessage (data : option NemoResponse)
  | TimerFires (created : bool).

Definition handle (st : State) (e : Event) : State :=
  match e with
  | WsOpen => onopen st
  | WsClose => onclose st
  | WsError => onerror st
  | WsMessage data => onmessage data st
  | TimerFires created => connect created st
  end.

Definition run (st : State) (evs : list Event) : State :=
  fold_left handle evs st.

(** The hook right after mounting: the effect has called [connect]. *)
Definition mounted : State := connect true initial.

Definition is_open (e : Event) : bool :=
  match e with
  | WsOpen => true
  | _ => false
  end.

Definition is_close (e : Event) : bool :=
  match e with
  | WsClose => true
  | _ => false
  end.

(** The number of [close] events of a run. *)
Definition closes (evs : list Event) : nat :=
  length (List.filter is_close evs).

(** The number of timers one event sets: one for a [close] that finds
    the attempt counter under the maximum, none otherwise. *)
Definition reschedules (st : State) (e : Event) : nat :=
  if is_close e && (reconnectAttemptsRef st <? MAX_RECONNECT_ATTEMPTS)
  then 1 else 0.

(** A run in which no socket opens. *)
Definition never_opens (evs : list Event) : bool :=
  forallb (λ e, negb (is_open e)) evs.

(** Two runs of the hook after mounting.  In [failing_run] the first
    connection and the five retries all close without opening.  In
    [flapping n] the server accepts each connection and drops it, [n]
    times over. *)
Definition failing_run : list Event :=
  [WsClose; TimerFires true; WsError; WsClose; TimerFires true;
   WsClose; TimerFires true; WsClose; TimerFires true;
   WsClose; TimerFires true; WsClose].

Definition flapping (n : nat) : list Event :=
  concat (replicate n [WsOpen; WsClose; TimerFires true]).

End NemoSocket.

(** ** App (App.tsx)

    The root component: the transcript [messages], the typing flag, the
    [processedResponseRef] guard, the socket hook it uses and the audio
    clips it has handed to [playAudio]. *)
Module App.
Import Text Json.

Inductive Role := user | nemo.

#[global] Instance Role_eq_dec : EqDecision Role.
Proof. solve_decision. Defined.

Record Message := mkMessage {
  id : ustring;
  role : Role;
  content : ustring;
  timestamp : N
}.

Record State := mkState {
  messages : list Message;
  isTyping : bool;
  processedResponseRef : option ustring;
  socket : NemoSocket.State;
  played : list ustring
}.

Definition initial : State :=
  {| messages := []; isTyping := false; processedResponseRef := None;
     socket := NemoSocket.mounted; played := [] |}.

(** [handleSend(text)]; [now] is [Date.now()]. *)
Definition handleSend (t : ustring) (now : N) (st : State) : State :=
  let userMessage :=
    {| id := lit "user-" ++ lit (pretty now); role := user;
       content := t; timestamp := now |} in
  {| messages := messages st ++ [userMessage];
     isTyping := true;
     processedResponseRef := processedResponseRef st;
     socket := NemoSocket.sendMessage t (socket st);
     played := played st |}.

(** The effect on [lastResponse]: runs once for every response the hook
    stores. *)
Definition onResponse (now : N) (st : State) : State :=
  match NemoSocket.lastResponse (socket st) with
  | Some r =>
    match NemoSocket.text r with
    | Some t =>
      if truthy t then
        if bool_decide (processedResponseRef st = Some t) then st
        else
          let nemoMessage :=
            {| id := lit "nemo-" ++ lit (pretty now); role := nemo;
               content := t; timestamp := now |} in
          {| messages := messages st ++ [nemoMessage];
             isTyping := false;
             processedResponseRef := Some t;
             socket := socket st;
             played := match NemoSocket.audio r with
                       | Some a => if truthy a then played st ++ [a]
                                   else played st
                       | None => played st
                       end |}
      else st
    | None => st
    end
  | None => st
  end.

(** The effect on [error]: runs when the hook's error changed. *)
Definition onError (prev : option ustring) (st : State) : State :=
  if bool_decide (NemoSocket.err (socket st) = prev) then st
  else
    match NemoSocket.err (socket st) with
    | Some e =>
      if truthy e then
        {| messages := messages st; isTyping := false;
           processedResponseRef := processedResponseRef st;
           socket := socket st; played := played st |}
      else st
    | None => st
    end.

Definition with_socket (k : NemoSocket.State) (st : State) : State :=
  {| messages := messages st; isTyping := isTyping st;
     processedResponseRef := processedResponseRef st;
     socket := k; played := played st |}.

(** What happens to the component: the user sends a text, or the
    browser delivers a socket event; each at a time [Date.now()]. *)
Inductive Event :=
  | UserSends (t : ustring)
  | Browser (e : NemoSocket.Event).

Definition stores_response (e : NemoSocket.Event) : bool :=
  match e with
  | NemoSocket.WsMessage (Some _) => true
  | _ => false
  end.

Definition step (st : State) (ev : Event * N) : State :=
  let prev := NemoSocket.err (socket st) in
  match ev.1 with
  | UserSends t => onError prev (handleSend t ev.2 st)
  | Browser e =>
    let st1 := with_socket (NemoSocket.handle (socket st) e) st in
    let st2 := if stores_response e then onResponse ev.2 st1 else st1 in
    onError prev st2
  end.

Definition run (st : State) (evs : list (Event * N)) : State :=
  fold_left step evs st.

(** The component processes one response: the hook stores it and the
    effect on [lastResponse] runs. *)
Definition deliver (r : NemoSocket.NemoResponse) (now : N) (st : State) : State :=
  onResponse now
    (with_socket (NemoSocket.onmessage (Some r) (socket st)) st).

(** The clip a response makes the component play, if any. *)
Definition clip (r : NemoSocket.NemoResponse) : list ustring :=
  match NemoSocket.audio r with
  | Some a => if truthy a then [a] else []
  | None => []
  end.

(** The transcript as the user reads it: what each side said. *)
Definition said (who : Role) (ms : list Message) : list ustring :=
  content <$> filter (λ m, role m = who) ms.

Definition texts_sent (evs : list (Event * N)) : list ustring :=
  omap (λ ev, match ev.1 with UserSends t => Some t | Browser _ => None end) evs.

End App.

(** ** The WebSocket backend (core/memory.py and server.py)

    Python code that calls services outside the process: the Mem0 store,
    the LLM and the speech synthesiser.  A call may raise; [Ext] is the
    state of the world outside, which every call may read and change.

    [websocket_endpoint] is a coroutine: it runs until it reaches an
    [await], where the event loop may run the tasks of its ready queue
    (first created, first run) before it resumes.  [Pc] names the
    [await] the coroutine is suspended at, [endpoint_step] runs it to the
    next one, [task_step] runs the task at the head of the ready queue,
    and a schedule chooses between the two. *)
Module Server.
Import Text Json.

Inductive exn :=
  | KeyError (key : string)
  | TypeError
  | WebSocketDisconnect
  | ServiceError (msg : ustring).

Inductive outcome (A : Type) :=
  | Ok (a : A)
  | Raise (e : exn).
Arguments Ok {A} a.
Arguments Raise {A} e.

(** A search hit of Mem0: a dict whose ['memory'] entry is the text. *)
Record MemoryHit := mkHit {
  memory : ustring
}.

(** The services outside the process.  [format] is Python's [str()] of
    a value that is not a string, as an f-string applies it. *)
Record Services (Ext : Type) := mkServices {
  search : JSON → ustring → nat → Ext → outcome (list MemoryHit) * Ext;
  add : ustring → ustring → Ext → outcome unit * Ext;
  generate : JSON → ustring → Ext → outcome ustring * Ext;
  synthesize : ustring → Ext → outcome ustring * Ext;
  format : JSON → ustring
}.
Arguments search {Ext} s.
Arguments add {Ext} s.
Arguments generate {Ext} s.
Arguments synthesize {Ext} s.
Arguments format {Ext} s.

Definition nl : ustring := [10%N].

(** [sep.join(parts)]. *)
Fixpoint join (sep : ustring) (parts : list ustring) : ustring :=
  match parts with
  | [] => []
  | [p] => p
  | p :: rest => p ++ sep ++ join sep rest
  end.

(** [f"{v}"]. *)
Definition fstr {Ext} (sv : Services Ext) (v : JSON) : ustring :=
  match v with
  | JStr s => s
  | _ => format sv v
  end.

(** [data[key]] on a received value. *)
Definition subscript (data : JSON) (k : string) : outcome JSON :=
  match data with
  | JObj o =>
    match o !! k with
    | Some v => Ok v
    | None => Raise (KeyError k)
    end
  | _ => Raise TypeError
  end.

(** *** MemoryService *)

Definition user_id : ustring := lit "user_default".

(** [get_context]: searches the store for memories related to the
    text (at most 3) and joins them, one per line.  Nothing is caught
    here: what [search] raises is raised. *)
Definition get_context {Ext} (sv : Services Ext) (t : JSON) (e : Ext)
  : outcome ustring * Ext :=
  match search sv t user_id 3 e with
  | (Ok memories, e') => (Ok (join nl (memory <$> memories)), e')
  | (Raise x, e') => (Raise x, e')
  end.

(** [save_interaction]: stores the turn as one combined text. *)
Definition save_interaction {Ext} (sv : Services Ext)
    (user_text : JSON) (agent_text : ustring) (e : Ext) : outcome unit * Ext :=
  add sv (lit "User: " ++ fstr sv user_text ++ lit " | Shanaya: " ++ agent_text)
      user_id e.

(** *** websocket_endpoint *)

Definition indent : ustring := lit "            ".

Definition system_prompt (past_context : ustring) : ustring :=
  nl ++ indent ++ lit "You are Shanaya, a sassy and empathetic friend." ++ nl
  ++ indent ++ nl
  ++ indent ++ lit "RELEVANT MEMORIES (Use these to personalize the chat):" ++ nl
  ++ indent ++ past_context ++ nl
  ++ indent ++ nl
  ++ indent ++ lit "Keep responses short (under 2 sentences) and conversational." ++ nl
  ++ indent.

(** The frame of step 5. *)
Definition reply (audio_base64 response_text : ustring) : JSON :=
  JObj (<["audio" := JStr audio_base64]>
        (<["text" := JStr response_text]>
         (<["visemes" := JArr []]> ∅))).

(** Where the coroutine is suspended: at [receive_json], at
    [llm.generate], at [tts.synthesize], at [send_json]; or ended. *)
Inductive Pc :=
  | AtReceive
  | AtGenerate (user_text : JSON) (prompt : ustring)
  | AtSynthesize (user_text : JSON) (response_text : ustring)
  | AtSend (user_text : JSON) (response_text audio_base64 : ustring)
  | Finished.

(** A task made by [asyncio.create_task(async_save_memory(...))]; the
    number of the turn that made it is kept for the record. *)
Record Task := mkTask {
  task_turn : nat;
  task_user_text : JSON;
  task_agent_text : ustring
}.

(** What the process prints and sends, in order. *)
Inductive LogEntry :=
  | Recalled (past_context : ustring)
  | Sent (turn : nat) (frame : JSON)
  | Saving (turn : nat)
  | SaveRaised (turn : nat) (e : exn)
  | Error (e : exn).

Record State (Ext : Type) := mkState {
  ext : Ext;
  (** the frames the client still sends; after the last, it disconnects *)
  inbox : list JSON;
  pc : Pc;
  (** the number of frames received so far *)
  turn : nat;
  (** the event loop's ready queue *)
  ready : list Task;
  (** the frames sent to the client *)
  outbox : list JSON;
  (** the calls made to the LLM: user message and system prompt *)
  llm_calls : list (JSON * ustring);
  log : list LogEntry
}.
Arguments mkState {Ext}.
Arguments ext {Ext} s.
Arguments inbox {Ext} s.
Arguments pc {Ext} s.
Arguments turn {Ext} s.
Arguments ready {Ext} s.
Arguments outbox {Ext} s.
Arguments llm_calls {Ext} s.
Arguments log {Ext} s.

(** The connection right after [websocket.accept()]. *)
Definition accepted {Ext} (e : Ext) (frames : list JSON) : State Ext :=
  {| ext := e; inbox := frames; pc := AtReceive; turn := 0; ready := [];
     outbox := []; llm_calls := []; log := [] |}.

(** [except Exception as e: print(f"Error: {e}")]: the handler is
    outside the [while] loop, so the coroutine ends. *)
Definition except {Ext} (x : exn) (e' : Ext) (st : State Ext) : State Ext :=
  {| ext := e'; inbox := inbox st; pc := Finished; turn := turn st;
     ready := ready st; outbox := outbox st; llm_calls := llm_calls st;
     log := log st ++ [Error x] |}.

Definition endpoint_step {Ext} (sv : Services Ext) (st : State Ext)
  : option (State Ext) :=
  match pc st with
  | AtReceive =>
    match inbox st with
    | [] => Some (except WebSocketDisconnect (ext st) st)
    | data :: rest =>
      let st1 :=
        {| ext := ext st; inbox := rest; pc := AtReceive; turn := S (turn st);
           ready := ready st; outbox := outbox st; llm_calls := llm_calls st;
           log := log st |} in
      match subscript data "text" with
      | Raise x => Some (except x (ext st) st1)
      | Ok user_text =>
        match get_context sv user_text (ext st) with
        | (Raise x, e') => Some (except x e' st1)
        | (Ok past_context, e') =>
          Some {| ext := e'; inbox := rest;
                  pc := AtGenerate user_text (system_prompt past_context);
                  turn := S (turn st); ready := ready st;
                  outbox := outbox st; llm_calls := llm_calls st;
                  log := log st ++ [Recalled past_context] |}
        end
      end
    end
  | AtGenerate user_text prompt =>
    let st1 :=
      {| ext := ext st; inbox := inbox st; pc := pc st; turn := turn st;
         ready := ready st; outbox := outbox st;
         llm_calls := llm_calls st ++ [(user_text, prompt)];
         log := log st |} in
    match generate sv user_text prompt (ext st) with
    | (Raise x, e') => Some (except x e' st1)
    | (Ok response_text, e') =>
      Some {| ext := e'; inbox := inbox st;
              pc := AtSynthesize user_text response_text;
              turn := turn st; ready := ready st; outbox := outbox st;
              llm_calls := llm_calls st1; log := log st |}
    end
  | AtSynthesize user_text response_text =>
    match synthesize sv response_text (ext st) with
    | (Raise x, e') => Some (except x e' st)
    | (Ok audio_base64, e') =>
      Some {| ext := e'; inbox := inbox st;
              pc := AtSend user_text response_text audio_base64;
              turn := turn st; ready := ready st; outbox := outbox st;
              llm_calls := llm_calls st; log := log st |}
    end
  | AtSend user_text response_text audio_base64 =>
    Some {| ext := ext st; inbox := inbox st; pc := AtReceive;
            turn := turn st;
            ready := ready st ++ [mkTask (turn st) user_text response_text];
            outbox := outbox st ++ [reply audio_base64 response_text];
            llm_calls := llm_calls st;
            log := log st ++ [Sent (turn st) (reply audio_base64 response_text)] |}
  | Finished => None
  end.

(** [async_save_memory], run as a task: it has no [await], so it runs
    to its end in one go; what it raises stays in the task. *)
Definition task_step {Ext} (sv : Services Ext) (st : State Ext)
  : option (State Ext) :=
  match ready st with
  | [] => None
  | t :: rest =>
    match save_interaction sv (task_user_text t) (task_agent_text t) (ext st) with
    | (Ok _, e') =>
      Some {| ext := e'; inbox := inbox st; pc := pc st; turn := turn st;
              ready := rest; outbox := outbox st; llm_calls := llm_calls st;
              log := log st ++ [Saving (task_turn t)] |}
    | (Raise x, e') =>
      Some {| ext := e'; inbox := inbox st; pc := pc st; turn := turn st;
              ready := rest; outbox := outbox st; llm_calls := llm_calls st;
              log := log st ++ [Saving (task_turn t); SaveRaised (task_turn t) x] |}
    end
  end.

(** The event loop's choice at a suspension point. *)
Inductive Choice := RunEndpoint | RunTask.

Definition exec {Ext} (sv : Services Ext) (st : State Ext) (c : Choice)
  : State Ext :=
  match c with
  | RunEndpoint => default st (endpoint_step sv st)
  | RunTask => default st (task_step sv st)
  end.

Definition run {Ext} (sv : Services Ext) (st : State Ext) (sched : list Choice)
  : State Ext :=
  fold_left (exec sv) sched st.

(** The same as a transition relation, and the states a connection can
    reach after [websocket.accept()]. *)
Inductive step {Ext} (sv : Services Ext) : State Ext → State Ext → Prop :=
  | step_endpoint st st' : endpoint_step sv st = Some st' → step sv st st'
  | step_task st st' : task_step sv st = Some st' → step sv st st'.

Inductive reachable {Ext} (sv : Services Ext) (e : Ext) (frames : list JSON)
  : State Ext → Prop :=
  | reach_accepted : reachable sv e frames (accepted e frames)
  | reach_step st st' :
      reachable sv e frames st → step sv st st' → reachable sv e frames st'.

(** Readings of the log. *)
Definition sent_turns (l : list LogEntry) : list nat :=
  omap (λ x, match x with Sent n _ => Some n | _ => None end) l.

Definition saving_turns (l : list LogEntry) : list nat :=
  omap (λ x, match x with Saving n => Some n | _ => None end) l.

(** Stub services for examples: the store holds one memory, the LLM
    answers with the system prompt it was given, nothing fails. *)
Definition stub : Services unit :=
  {| search := λ _ _ _ e, (Ok [mkHit (lit "deadline is Friday")], e);
     add := λ _ _ e, (Ok (), e);
     generate := λ _ prompt e, (Ok prompt, e);
     synthesize := λ _ e, (Ok (lit "UklGRg=="), e);
     format := λ _, [] |}.

(** The same with the memory store down: every search times out. *)
Definition memory_down : Services unit :=
  {| search := λ _ _ _ e, (Raise (ServiceError (lit "timeout")), e);
     add := add stub;
     generate := generate stub;
     synthesize := synthesize stub;
     format := format stub |}.

(** The turn numbers sent so far lie under this bound. *)
Definition sent_bound {Ext} (st : State Ext) : nat :=
  match pc st with
  | AtReceive | Finished => S (turn st)
  | _ => turn st
  end.

(** The invariant of every run: the saves started and the tasks still
    queued are, in this order, the turns answered so far; these are in
    increasing order; and a save starts after its turn's answer is sent. *)
Record Ordered {Ext} (st : State Ext) : Prop := mkOrdered {
  ord_queue :
    saving_turns (log st) ++ (task_turn <$> ready st) = sent_turns (log st);
  ord_sorted : StronglySorted lt (sent_turns (log st));
  ord_bound : Forall (λ n, n < sent_bound st) (sent_turns (log st));
  ord_after :
    ∀ l1 n l2, log st = l1 ++ Saving n :: l2 → n ∈ sent_turns l1
}.

End Server.

(** ** The contract with front ends

    Modelled from the spec: the produced interface of section 6, a
    request of shape [{text, user_id?}] and a result of shape
    [{final_text, streamed_deltas?, tool_trace?}].  [nemo_response] is
    the shape the code declares (interface [NemoResponse], and the
    frame [websocket_endpoint] builds). *)
Module Contract.
Import Json.

Definition request_shape (j : JSON) : bool :=
  has_string "text" j && optional is_string "user_id" j.

Definition result_shape (j : JSON) : bool :=
  has_string "final_text" j
  && optional is_array "streamed_deltas" j
  && optional is_array "tool_trace" j.

Definition nemo_response (j : JSON) : bool :=
  has_string "text" j && has_string "audio" j
  && match field "visemes" j with
     | Some v => is_array v
     | None => false
     end
  && optional is_string "error" j.

End Contract.

(** ** A session, end to end

    The scenario of the spec's testable properties: the user asks about
    a deadline, the store recalls one memory, the LLM echoes what it was
    given.  The front end sends its frames, the backend answers them,
    the front end processes the answers. *)
Module Scenario.
Import Text Json.

Definition question : ustring :=
  lit "Remind me what I told you about my deadline".

Definition asked : App.State :=
  App.run App.initial
    [(App.Browser NemoSocket.WsOpen, 1%N); (App.UserSends question, 2%N)].

Definition served : Server.State unit :=
  Server.run Server.stub
    (Server.accepted () (NemoSocket.sent (App.socket asked)))
    (replicate 4 Server.RunEndpoint).

Definition answered : App.State :=
  App.run asked
    (map (λ j, (App.Browser (NemoSocket.WsMessage (Some (NemoSocket.decode j))), 3%N))
         (Server.outbox served)).

(** [s.startsWith(needle)] and [s.includes(needle)]. *)
Fixpoint starts_with (needle s : ustring) : bool :=
  match needle, s with
  | [], _ => true
  | c :: n, d :: r => (c =? d)%N && starts_with n r
  | _ :: _, [] => false
  end.

Fixpoint includes (needle s : ustring) : bool :=
  starts_with needle s
  || match s with
     | [] => false
     | _ :: r => includes needle r
     end.

End Scenario.

(** ** The data model of the agent core

    Modelled from the spec: section 3 (data model).  The Python modules
    of the agent core (the agent loop, its context window and the tool
    registry) are not among the source files; their model follows the
    text of the specification. *)
Module Agent.
Import Text Json.

(** Modelled from the spec: the [role] of a Message, one of [user],
    [assistant], [tool], [system]. *)
Inductive Role := user | assistant | tool | system.

#[global] Instance Role_eq_dec : EqDecision Role.
Proof. solve_decision. Defined.

(** Modelled from the spec: ToolInvocation, [id] (unique within a
    turn), [name], [arguments] (a mapping of string to value). *)
Record ToolInvocation := mkInvocation {
  id : string;
  name : string;
  arguments : gmap string JSON
}.

(** Modelled from the spec: Message, with [tool_call_id] present only
    on [tool] messages. *)
Record Message := mkMessage {
  role : Role;
  content : ustring;
  tool_calls : list ToolInvocation;
  tool_call_id : option string;
  created_at : N
}.

End Agent.

(** ** ContextWindow

    Modelled from the spec: section 4.1, the ordered message history
    under a budget, with an injectable cost function. *)
Module ContextWindow.
Import Text Json.

Section Window.
Variable cost : Agent.Message → nat.
Variable budget : nat.

(** Modelled from the spec: the cumulative cost of a history. *)
Definition total_cost (h : list Agent.Message) : nat :=
  sum_list (cost <$> h).

(** Modelled from the spec: the non-system messages of a history, in
    insertion order; these are the ones eviction may remove. *)
Definition non_system (h : list Agent.Message) : list Agent.Message :=
  filter (λ m, Agent.role m ≠ Agent.system) h.

(** Modelled from the spec: the system messages of a history. *)
Definition systems (h : list Agent.Message) : list Agent.Message :=
  filter (λ m, Agent.role m = Agent.system) h.

(** Modelled from the spec: evicting the oldest non-system message. *)
Fixpoint remove_oldest (h : list Agent.Message) : list Agent.Message :=
  match h with
  | [] => []
  | m :: r =>
    if decide (Agent.role m = Agent.system) then m :: remove_oldest r else r
  end.

(** Modelled from the spec: "if cumulative cost exceeds budget, evicts
    the oldest non-system messages in insertion order until the budget
    is satisfied.  The system instruction message is never evicted.  A
    single message whose cost alone exceeds the budget is retained
    anyway."  The loop runs at most once per message, which [fuel]
    counts. *)
Fixpoint evict (fuel : nat) (h : list Agent.Message) : list Agent.Message :=
  match fuel with
  | 0 => h
  | S fuel' =>
    if total_cost h <=? budget then h
    else
      match non_system h with
      | [] => h
      | [m] => if budget <? cost m then h else evict fuel' (remove_oldest h)
      | _ :: _ :: _ => evict fuel' (remove_oldest h)
      end
  end.

(** Modelled from the spec: the window, the history it owns and the
    standing system instruction that [clear] restores. *)
Record Window := mkWindow {
  standing : option Agent.Message;
  history : list Agent.Message
}.

(** Modelled from the spec: [append(message)]; the flag is the warning
    signalled when the history stays over budget. *)
Definition append (m : Agent.Message) (w : Window) : Window * bool :=
  let h := evict (length (history w ++ [m])) (history w ++ [m]) in
  ({| standing := standing w; history := h |}, negb (total_cost h <=? budget)).

(** Modelled from the spec: [snapshot()], a copy of the history. *)
Definition snapshot (w : Window) : list Agent.Message := history w.

(** Modelled from the spec: [clear()], back to the standing system
    instruction only. *)
Definition clear (w : Window) : Window :=
  {| standing := standing w; history := option_list (standing w) |}.

End Window.

(** A cost function for examples: the length of the content. *)
Definition by_length (m : Agent.Message) : nat := length (Agent.content m).

Definition msg (r : Agent.Role) (c : string) : Agent.Message :=
  Agent.mkMessage r (lit c) [] None 0.

End ContextWindow.

(** ** ToolRegistry

    Modelled from the spec: section 4.3, the table from tool name to an
    executor with a declared parameter schema.  [W] is the world the
    executors act on (file system, network, processes). *)
Module ToolRegistry.
Import Text Json.

(** Modelled from the spec: the error kinds of section 7 that concern
    tools. *)
Inductive ErrorKind :=
  | DuplicateTool
  | UnknownTool
  | InvalidArguments
  | ToolExecutionError.

(** Modelled from the spec: a declared parameter (name, type,
    description, required or optional, default). *)
Record ToolParameter := mkParameter {
  param_name : string;
  param_type : string;
  param_description : ustring;
  required : bool;
  default : option JSON
}.

(** Modelled from the spec: the Tool capability's
    [execute(arguments) → output | fails with ToolExecutionError]. *)
Inductive Outcome :=
  | Output (payload : JSON)
  | Fails (message : ustring).

(** Modelled from the spec: a registered tool. *)
Record Tool (W : Type) := mkTool {
  name : string;
  description : ustring;
  parameters : list ToolParameter;
  executor : gmap string JSON → W → Outcome * W
}.
Arguments mkTool {W}.
Arguments name {W} t.
Arguments description {W} t.
Arguments parameters {W} t.
Arguments executor {W} t.

(** Modelled from the spec: ToolResult, [output] or [error] (kind and
    message). *)
Record ToolResult := mkResult {
  tool_call_id : string;
  output : option JSON;
  error : option (ErrorKind * ustring)
}.

Section Registry.
Context {W : Type}.
(** Whether a value can be coerced to a declared type; the spec leaves
    the coercions to the implementation. *)
Variable coercible : JSON → string → bool.

(** Modelled from the spec: [register(name, description, parameters,
    executor)], which fails with [DuplicateTool] if the name is taken. *)
Definition register (n : string) (d : ustring) (ps : list ToolParameter)
    (ex : gmap string JSON → W → Outcome * W) (reg : gmap string (Tool W))
  : gmap string (Tool W) + ErrorKind :=
  match reg !! n with
  | Some _ => inr DuplicateTool
  | None => inl (<[n := mkTool n d ps ex]> reg)
  end.

(** Modelled from the spec: an argument mapping is valid for a schema
    when the required fields are present and the types coercible. *)
Definition valid (ps : list ToolParameter) (args : gmap string JSON) : Prop :=
  ∀ p, p ∈ ps →
    (required p = true → is_Some (args !! param_name p))
    ∧ (∀ v, args !! param_name p = Some v → coercible v (param_type p) = true).

(** Modelled from the spec: the check of one declared parameter. *)
Definition param_ok (args : gmap string JSON) (p : ToolParameter) : bool :=
  match args !! param_name p with
  | Some v => coercible v (param_type p)
  | None => negb (required p)
  end.

(** Modelled from the spec: the validation [execute] performs. *)
Definition validate (ps : list ToolParameter) (args : gmap string JSON) : bool :=
  forallb (param_ok args) ps.

(** Modelled from the spec: [execute(name, arguments)], for the
    invocation [id]: [UnknownTool] if the name is not registered,
    [InvalidArguments] if validation fails, otherwise the executor's
    outcome wrapped as a ToolResult, a failure of the executor
    included. *)
Definition execute (reg : gmap string (Tool W)) (id n : string)
    (args : gmap string JSON) (w : W) : ToolResult * W :=
  match reg !! n with
  | None => (mkResult id None (Some (UnknownTool, lit n)), w)
  | Some t =>
    if validate (parameters t) args then
      match executor t args w with
      | (Output payload, w') => (mkResult id (Some payload) None, w')
      | (Fails message, w') =>
        (mkResult id None (Some (ToolExecutionError, message)), w')
      end
    else (mkResult id None (Some (InvalidArguments, lit n)), w)
  end.

End Registry.

End ToolRegistry.

(** ** AgentLoop

    Modelled from the spec: section 4.5, the state machine of one user
    turn: command or chat, memory injection, LLM call, tool rounds,
    finalizing.  The time stamps of the messages the loop creates play
    no part in it and are left at zero. *)
Module AgentLoop.
Import Text Json.

(** Modelled from the spec: section 7, the two kinds of
    [LLMProviderError]: transient (network, rate limit, a timeout),
    which is retried with bounded backoff, and fatal (authentication,
    invalid request), which is surfaced to the caller as a turn
    failure. *)
Inductive ProviderFailure := Transient | Fatal.

(** Modelled from the spec: what [LLMClient.chat] returns, a message
    (plain text, or carrying tool invocations) or a provider failure
    reported as a distinguishable error. *)
Inductive Reply :=
  | Answer (m : Agent.Message)
  | ProviderError (kind : ProviderFailure) (message : ustring).

(** Modelled from the spec: how a turn ends. *)
Inductive Ending :=
  | CommandExecuted
  | Final
  | ToolLoopExceeded
  | LLMProviderError.

(** Modelled from the spec: ConversationState, with the world the
    collaborators act on, the number of LLM round-trips of the turn and
    the queue of scheduled [persist_turn] calls. *)
Record State (W : Type) := mkState {
  window : ContextWindow.Window;
  round_count : nat;
  llm_calls : nat;
  persist_queue : list (ustring * ustring);
  world : W
}.
Arguments mkState {W}.
Arguments window {W} s.
Arguments round_count {W} s.
Arguments llm_calls {W} s.
Arguments persist_queue {W} s.
Arguments world {W} s.

(** Modelled from the spec: what the caller gets back, the final text,
    the user text as stored for the transcript, and how the turn ended. *)
Record TurnResult (W : Type) := mkTurn {
  final_text : ustring;
  transcript_text : ustring;
  ending : Ending;
  after : State W
}.
Arguments mkTurn {W}.
Arguments final_text {W} t.
Arguments transcript_text {W} t.
Arguments ending {W} t.
Arguments after {W} t.

Section Loop.
Context {W : Type}.
Variable cost : Agent.Message → nat.
Variable budget : nat.
Variable coercible : JSON → string → bool.
Variable registry : gmap string (ToolRegistry.Tool W).
(** the configured maximum of tool rounds per turn *)
Variable max_rounds : nat.
(** the bound of the backoff: how often one LLM call is retried *)
Variable max_retries : nat.
(** [LLMClient.chat], by the number of the call within the turn *)
Variable chat : nat → list Agent.Message → W → Reply * W.
(** [MemoryGateway.retrieve_context]: the block, empty on failure *)
Variable retrieve_context : ustring → W → ustring * W.
(** [SlashCommandRouter.route]: the command's result, or not a command *)
Variable route : ustring → State W → option (ustring * State W).
(** the text of a tool message for a result, and the degraded answer *)
Variable render : ToolRegistry.ToolResult → ustring.
Variable limit_hit : ustring.

(** Modelled from the spec: appending to the context window. *)
Definition push (m : Agent.Message) (st : State W) : State W :=
  {| window := (ContextWindow.append cost budget m (window st)).1;
     round_count := round_count st; llm_calls := llm_calls st;
     persist_queue := persist_queue st; world := world st |}.

(** Modelled from the spec: "execute each invocation via ToolRegistry;
    append one tool message per ToolResult", in invocation order. *)
Fixpoint tool_round (calls : list Agent.ToolInvocation) (st : State W)
  : State W :=
  match calls with
  | [] => st
  | c :: rest =>
    let '(r, w') :=
      ToolRegistry.execute coercible registry (Agent.id c) (Agent.name c)
        (Agent.arguments c) (world st) in
    let st1 :=
      {| window := window st; round_count := round_count st;
         llm_calls := llm_calls st; persist_queue := persist_queue st;
         world := w' |} in
    tool_round rest
      (push (Agent.mkMessage Agent.tool (render r) []
               (Some (ToolRegistry.tool_call_id r)) 0) st1)
  end.

(** Modelled from the spec: Finalizing, "append the final assistant
    message; schedule persist_turn with (original user text, final
    answer); return final answer". *)
Definition finalize (original : ustring) (m : Agent.Message) (st : State W)
  : TurnResult W :=
  let st1 := push m st in
  {| final_text := Agent.content m; transcript_text := original;
     ending := Final;
     after := {| window := window st1; round_count := round_count st1;
                 llm_calls := llm_calls st1;
                 persist_queue := persist_queue st1 ++ [(original, Agent.content m)];
                 world := world st1 |} |}.

(** Modelled from the spec: one call of the LLM with its retries, "an
    LLMProviderError is retryable with bounded backoff for transient
    errors; fatal for authentication and invalid-request errors".  The
    call is made again on the same snapshot while the provider fails
    transiently and retries are left; every attempt is a round-trip and
    is counted.  The result is the last reply, the number of round-trips
    made so far in the turn, and the world. *)
Fixpoint call_llm (retries : nat) (h : list Agent.Message) (calls : nat) (w : W)
  : Reply * nat * W :=
  let '(reply, w') := chat calls h w in
  match reply, retries with
  | ProviderError Transient _, S retries' => call_llm retries' h (S calls) w'
  | _, _ => (reply, S calls, w')
  end.

(** Modelled from the spec: the loop from CallingLLM.  "If the response
    is plain text, it is the final answer.  If the response carries
    tool invocations: append the assistant message; execute each
    invocation; append one tool message per result; increment
    round_count; if round_count exceeds the configured maximum, abort
    the turn with a degraded final answer; otherwise loop back to
    calling the LLM."  A provider failure that is fatal, or still there
    when the retries are used up, ends the turn as a failure.  [None]
    means the fuel ran out. *)
Fixpoint rounds (fuel : nat) (original : ustring) (st : State W)
  : option (TurnResult W) :=
  match fuel with
  | 0 => None
  | S fuel' =>
    let '(reply, calls, w') :=
      call_llm max_retries (ContextWindow.snapshot (window st)) (llm_calls st)
        (world st) in
    let st1 :=
      {| window := window st; round_count := round_count st;
         llm_calls := calls; persist_queue := persist_queue st;
         world := w' |} in
    match reply with
    | ProviderError _ message =>
      Some {| final_text := message; transcript_text := original;
              ending := LLMProviderError; after := st1 |}
    | Answer m =>
      match Agent.tool_calls m with
      | [] => Some (finalize original m st1)
      | calls =>
        let st2 := tool_round calls (push m st1) in
        let st3 :=
          {| window := window st2; round_count := S (round_count st2);
             llm_calls := llm_calls st2; persist_queue := persist_queue st2;
             world := world st2 |} in
        if max_rounds <? round_count st3
        then Some {| final_text := limit_hit; transcript_text := original;
                     ending := ToolLoopExceeded; after := st3 |}
        else rounds fuel' original st3
      end
    end
  end.

(** What the round limit promises of a result of the loop run from
    [st], when a call takes at most [attempts] round-trips: the
    round-trips to the LLM it added are at least one and at most
    [attempts] for each of the rounds left plus one; the round count
    ends above the maximum exactly when the turn ended on
    [ToolLoopExceeded], with the degraded answer. *)
Definition bounded_from (attempts : nat) (st : State W) (original : ustring)
    (r : TurnResult W) : Prop :=
  llm_calls (after r)
    ≤ llm_calls st + (S max_rounds - round_count st) * attempts
  ∧ llm_calls st < llm_calls (after r)
  ∧ round_count (after r) ≤ S max_rounds
  ∧ (max_rounds < round_count (after r) ↔ ending r = ToolLoopExceeded)
  ∧ (ending r = ToolLoopExceeded → final_text r = limit_hit)
  ∧ ending r ≠ CommandExecuted
  ∧ transcript_text r = original.

(** Modelled from the spec: one user turn.  A command is executed and
    returned; otherwise the memory block is appended to the text for
    the LLM, [round_count] starts at zero, and the rounds run. *)
Definition handle_turn (fuel : nat) (raw : ustring) (st : State W)
  : option (TurnResult W) :=
  match route raw st with
  | Some (answer, st') =>
    Some {| final_text := answer; transcript_text := raw;
            ending := CommandExecuted; after := st' |}
  | None =>
    let '(block, w') := retrieve_context raw (world st) in
    let st1 :=
      {| window := window st; round_count := 0; llm_calls := 0;
         persist_queue := persist_queue st; world := w' |} in
    rounds fuel raw
      (push (Agent.mkMessage Agent.user (raw ++ block) [] None 0) st1)
  end.

End Loop.

(** Stubs for examples: an LLM that asks once for a tool nobody
    registered and then answers in plain text, one that asks for it in
    every reply, one that does so but is rate-limited at every other
    call, and one that is down; no memory, no commands, an empty
    registry, two retries per call. *)
Definition call_nope : Agent.Message :=
  Agent.mkMessage Agent.assistant []
    [Agent.mkInvocation "call-1" "nope" ∅] None 0.

Definition once_then_text (k : nat) (h : list Agent.Message) (w : unit)
  : Reply * unit :=
  (Answer (if k =? 0 then call_nope
           else Agent.mkMessage Agent.assistant (lit "done") [] None 0), w).

Definition always_tool (k : nat) (h : list Agent.Message) (w : unit)
  : Reply * unit :=
  (Answer call_nope, w).

Definition rate_limited (k : nat) (h : list Agent.Message) (w : unit)
  : Reply * unit :=
  (if Nat.even k then ProviderError Transient (lit "rate limit")
   else Answer call_nope, w).

Definition down (k : nat) (h : list Agent.Message) (w : unit)
  : Reply * unit :=
  (ProviderError Transient (lit "timeout"), w).

Definition error_text (r : ToolRegistry.ToolResult) : ustring :=
  match ToolRegistry.error r with
  | Some (_, message) => lit "error: " ++ message
  | None => lit "ok"
  end.

Definition fresh : State unit :=
  {| window := ContextWindow.mkWindow None []; round_count := 0;
     llm_calls := 0; persist_queue := []; world := () |}.

Definition stub_turn (max_rounds : nat)
    (chat : nat → list Agent.Message → unit → Reply * unit)
  : option (TurnResult unit) :=
  handle_turn ContextWindow.by_length 1000 (λ _ _, true) ∅ max_rounds 2 chat
    (λ _ w, ([], w)) (λ _ _, None) error_text (lit "tool round limit reached")
    (S max_rounds) (lit "hi") fresh.

End AgentLoop.

(** ** Readings of runs

    Measures of a run of events and of a transcript, used to state what
    the hooks and the App keep over whole sessions. *)
Module Runs.
Import Text Json.

(** The number of [open] events of a run of the socket hook. *)
Definition opens (evs : list NemoSocket.Event) : nat :=
  length (List.filter NemoSocket.is_open evs).

(** No two neighbours of a list are equal. *)
Fixpoint no_repeat (l : list ustring) : Prop :=
  match l with
  | a :: r => match r with
              | b :: _ => a ≠ b
              | [] => True
              end ∧ no_repeat r
  | [] => True
  end.

End Runs.

(** ** The chat panel as a whole (ChatPanel.tsx, App.tsx, InputBar.tsx)

    [App] renders [ChatPanel] with its transcript, [handleSend] as
    [onSend], the hook's [isConnected] and [isTyping]; [ChatPanel]
    renders [InputBar] with [disabled={disabled || isTyping}], and
    [App] passes no [disabled], which defaults to false.  The user and
    the browser act on the two components together. *)
Module Ui.
Import Text Json.

Record State := mkState {
  app : App.State;
  bar : InputBar.State
}.

Definition initial : State :=
  {| app := App.initial;
     bar := {| InputBar.input := []; InputBar.isListening := false |} |}.

(** The props [InputBar] is rendered with. *)
Definition barProps (st : State) : InputBar.Props :=
  {| InputBar.disabled := false || App.isTyping (app st);
     InputBar.isConnected := NemoSocket.isConnected (App.socket (app st)) |}.

(** What acts on the panel.  [Types] is the field's [onChange];
    [Hears] is the speech hook changing [isListening]; [Transcribes] is
    the effect that copies a non-empty transcript into the field;
    [AutoSends] is the timer of the auto-send effect calling the
    [handleSend] of the render that set it, whose props and input it
    captured (any values here). *)
Inductive Event :=
  | Types (s : ustring)
  | Clicks
  | Presses (e : InputBar.KeyboardEvent)
  | AutoSends (captured : InputBar.Props) (captured_input : ustring)
  | Hears (listening : bool)
  | Transcribes (transcript : ustring)
  | Browser (e : NemoSocket.Event).

(** The outcome of a handler of the bar: [onSend] is [App.handleSend]. *)
Definition sends (r : InputBar.State * option ustring) (now : N) (st : State)
  : State :=
  match r.2 with
  | Some t => {| app := App.step (app st) (App.UserSends t, now); bar := r.1 |}
  | None => {| app := app st; bar := r.1 |}
  end.

Definition step (st : State) (ev : Event * N) : State :=
  match ev.1 with
  | Types s =>
    if InputBar.field_disabled (barProps st) (bar st) then st
    else {| app := app st;
            bar := {| InputBar.input := s;
                      InputBar.isListening := InputBar.isListening (bar st) |} |}
  | Clicks => sends (InputBar.click (barProps st) (bar st)) ev.2 st
  | Presses e => sends (InputBar.press (barProps st) (bar st) e) ev.2 st
  | AutoSends captured captured_input =>
    match (InputBar.handleSend captured
             {| InputBar.input := captured_input;
                InputBar.isListening := InputBar.isListening (bar st) |}).2 with
    | Some t =>
      {| app := App.step (app st) (App.UserSends t, ev.2);
         bar := {| InputBar.input := [];
                   InputBar.isListening := InputBar.isListening (bar st) |} |}
    | None => st
    end
  | Hears listening =>
    {| app := app st;
       bar := {| InputBar.input := InputBar.input (bar st);
                 InputBar.isListening := listening |} |}
  | Transcribes transcript =>
    if truthy transcript then
      {| app := app st;
         bar := {| InputBar.input := transcript;
                   InputBar.isListening := InputBar.isListening (bar st) |} |}
    else st
  | Browser e =>
    {| app := App.step (app st) (App.Browser e, ev.2); bar := bar st |}
  end.

Definition run (st : State) (evs : list (Event * N)) : State :=
  fold_left step evs st.

(** A text as the bar sends it: not blank, with no white space at
    either end. *)
Definition clean (t : ustring) : Prop :=
  t ≠ [] ∧ blank t = false ∧ trim t = t.

(** The Enter key, without Shift. *)
Definition Enter : InputBar.KeyboardEvent :=
  {| InputBar.key := "Enter"; InputBar.shiftKey := false |}.

(** The panel after the socket opened and the user typed a greeting. *)
Definition ready : State :=
  run initial [(Browser NemoSocket.WsOpen, 1%N);
               (Types (lit "  hello Nemo "), 2%N)].

End Ui.

(** ** The connection as a whole (server.py)

    What relates a connection's state to the frames the client sends:
    the bookkeeping of [websocket_endpoint]'s loop. *)
Module Backend.
Import Text Json.

Definition is_endpoint (c : Server.Choice) : bool :=
  match c with
  | Server.RunEndpoint => true
  | Server.RunTask => false
  end.

(** How often a schedule resumes the coroutine of the endpoint. *)
Definition endpoint_steps (sched : list Server.Choice) : nat :=
  length (List.filter is_endpoint sched).

(** How many of the turn's four suspension points lie behind. *)
Definition phase (pc : Server.Pc) : nat :=
  match pc with
  | Server.AtReceive => 0
  | Server.AtGenerate _ _ => 1
  | Server.AtSynthesize _ _ => 2
  | Server.AtSend _ _ _ => 3
  | Server.Finished => 0
  end.

Section Connection.
Context {Ext : Type} (sv : Server.Services Ext) (frames : list JSON).

(** [u] is [data['text']] of the [n]-th frame received (from 1). *)
Definition text_of_turn (n : nat) (u : JSON) : Prop :=
  0 < n ∧ ∃ d, frames !! (n - 1) = Some d
               ∧ Server.subscript d "text" = Server.Ok u.

(** [p] is the system prompt built from what a search of the store for
    [u] returned. *)
Definition recalled_prompt (u : JSON) (p : ustring) : Prop :=
  ∃ e e' hits,
    Server.search sv u Server.user_id 3 e = (Server.Ok hits, e')
    ∧ p = Server.system_prompt (Server.join Server.nl (Server.memory <$> hits)).

(** A save task belongs to a turn: it carries the text of the turn's
    frame and the answer that was sent for it. *)
Definition task_of_turn (lg : list Server.LogEntry) (t : Server.Task) : Prop :=
  text_of_turn (Server.task_turn t) (Server.task_user_text t)
  ∧ ∃ a, Server.Sent (Server.task_turn t)
           (Server.reply a (Server.task_agent_text t)) ∈ lg.

Record Accounted (st : Server.State Ext) : Prop := mkAccounted {
  acc_inbox : Server.inbox st = drop (Server.turn st) frames;
  acc_turn : Server.turn st ≤ length frames;
  acc_calls :
    Forall2 (λ c d, Server.subscript d "text" = Server.Ok c.1)
      (Server.llm_calls st) (take (length (Server.llm_calls st)) frames);
  acc_prompts :
    Forall (λ c, recalled_prompt c.1 c.2) (Server.llm_calls st);
  acc_tasks : Forall (task_of_turn (Server.log st)) (Server.ready st);
  acc_pc :
    match Server.pc st with
    | Server.AtReceive =>
      length (Server.outbox st) = Server.turn st
      ∧ length (Server.llm_calls st) = Server.turn st
    | Server.AtGenerate u p =>
      S (length (Server.outbox st)) = Server.turn st
      ∧ length (Server.llm_calls st) = length (Server.outbox st)
      ∧ text_of_turn (Server.turn st) u ∧ recalled_prompt u p
    | Server.AtSynthesize u _ | Server.AtSend u _ _ =>
      S (length (Server.outbox st)) = Server.turn st
      ∧ length (Server.llm_calls st) = Server.turn st
      ∧ text_of_turn (Server.turn st) u
    | Server.Finished =>
      length (Server.outbox st) ≤ length (Server.llm_calls st)
      ∧ length (Server.llm_calls st) ≤ Server.turn st
      ∧ Server.turn st ≤ S (length (Server.outbox st))
    end
}.

End Connection.

(** Services for examples: as [Server.stub], with the speech
    synthesiser down. *)
Definition tts_down : Server.Services unit :=
  {| Server.search := Server.search Server.stub;
     Server.add := Server.add Server.stub;
     Server.generate := Server.generate Server.stub;
     Server.synthesize := λ _ e, (Server.Raise (Server.ServiceError (lit "tts")), e);
     Server.format := Server.format Server.stub |}.

(** As [Server.stub], with the memory store refusing every write. *)
Definition store_read_only : Server.Services unit :=
  {| Server.search := Server.search Server.stub;
     Server.add := λ _ _ e, (Server.Raise (Server.ServiceError (lit "read-only")), e);
     Server.generate := Server.generate Server.stub;
     Server.synthesize := Server.synthesize Server.stub;
     Server.format := Server.format Server.stub |}.

Definition two_frames : list JSON :=
  [NemoSocket.request (lit "hi"); NemoSocket.request (lit "and you?")].

(** A frame without ['text'], then a good one. *)
Definition broken_frames : list JSON :=
  [JObj {[ "message" := JStr (lit "hi") ]}; NemoSocket.request (lit "hi")].

(** The event loop runs each save as soon as it is queued. *)
Definition eager : list Server.Choice :=
  [Server.RunEndpoint; Server.RunEndpoint; Server.RunEndpoint;
   Server.RunEndpoint; Server.RunTask;
   Server.RunEndpoint; Server.RunEndpoint; Server.RunEndpoint;
   Server.RunEndpoint; Server.RunTask].

End Backend.

(** ** useSpeechRecognition (hooks/useSpeechRecognition.ts)

    The hook around the browser's speech recogniser.  A result list is
    a list of results, each final or interim, with its alternatives'
    transcripts, best first. *)
Module SpeechRecognition.
Import Text.

Record Result := mkResult {
  isFinal : bool;
  alternatives : list ustring
}.

Record State := mkState {
  isListening : bool;
  transcript : ustring;
  error : option ustring;
  (** [recognitionRef.current] is set: the browser has the API *)
  recognitionRef : bool
}.

Definition initial (isSupported : bool) : State :=
  {| isListening := false; transcript := []; error := None;
     recognitionRef := isSupported |}.

Definition onstart (st : State) : State :=
  {| isListening := true; transcript := transcript st; error := None;
     recognitionRef := recognitionRef st |}.

Definition onend (st : State) : State :=
  {| isListening := false; transcript := transcript st; error := error st;
     recognitionRef := recognitionRef st |}.

Definition onerror (e : ustring) (st : State) : State :=
  {| isListening := false; transcript := transcript st; error := Some e;
     recognitionRef := recognitionRef st |}.

(** The [for] loop of [onresult] over the results from [resultIndex]
    on, with its two accumulators; [result[0].transcript] throws when a
    result has no alternative ([None]). *)
Fixpoint loop (results : list Result) (finalTranscript interimTranscript : ustring)
  : option (ustring * ustring) :=
  match results with
  | [] => Some (finalTranscript, interimTranscript)
  | result :: rest =>
    match alternatives result with
    | alt :: _ =>
      if isFinal result
      then loop rest (finalTranscript ++ alt) interimTranscript
      else loop rest finalTranscript (interimTranscript ++ alt)
    | [] => None
    end
  end.

(** [onresult]: [None] when the handler throws, which leaves the
    state as it is. *)
Definition onresult (resultIndex : nat) (results : list Result) (st : State)
  : option State :=
  match loop (drop resultIndex results) [] [] with
  | Some (finalTranscript, interimTranscript) =>
    let currentTranscript :=
      if truthy finalTranscript then finalTranscript else interimTranscript in
    Some {| isListening := isListening st; transcript := currentTranscript;
            error := error st; recognitionRef := recognitionRef st |}
  | None => None
  end.

(** [startListening], a callback made anew when [isListening]
    changes: its guard reads the [isListening] of the render that made
    it ([seen]), which lags behind the state between an event of the
    recogniser and the next render; [recognitionRef.current] is read
    when called.  [throws] tells whether [recognition.start()] throws,
    as it does on a recogniser already started. *)
Definition startListening (seen : bool) (throws : bool) (st : State) : State :=
  if negb (recognitionRef st) || seen then st
  else
    {| isListening := isListening st; transcript := [];
       error := if throws then Some (lit "Failed to start speech recognition")
                else None;
       recognitionRef := recognitionRef st |}.

(** [stopListening] changes nothing of the hook's state, whatever the
    [isListening] its guard reads: it asks the recogniser to stop, and
    what [stop()] throws is caught. *)
Definition stopListening (st : State) : State := st.

(** What happens to the hook: the recogniser's events and the calls
    of the component. *)
Inductive Event :=
  | Start
  | End_
  | Error (e : ustring)
  | Results (resultIndex : nat) (results : list Result)
  | CallsStart (seen : bool) (throws : bool)
  | CallsStop.

Definition handle (st : State) (ev : Event) : State :=
  match ev with
  | Start => onstart st
  | End_ => onend st
  | Error e => onerror e st
  | Results resultIndex results => default st (onresult resultIndex results st)
  | CallsStart seen throws => startListening seen throws st
  | CallsStop => stopListening st
  end.

Definition run (st : State) (evs : list Event) : State :=
  fold_left handle evs st.

(** A run in which the component has rendered before each call of
    [startListening]: the callback has seen the [isListening] the hook
    holds when it is called. *)
Fixpoint rendered (st : State) (evs : list Event) : bool :=
  match evs with
  | [] => true
  | ev :: rest =>
    match ev with
    | CallsStart seen _ => Bool.eqb seen (isListening st)
    | _ => true
    end && rendered (handle st ev) rest
  end.

(** A dictation that fails to start, is started again and hears a
    result. *)
Definition retried : list Event :=
  [CallsStart false true; CallsStart false false; Start;
   Results 0 [mkResult true [lit "hello"]]; CallsStart true false].

(** The text of the results that are final ([true]) or interim
    ([false]): their best alternatives, concatenated. *)
Definition heard (final : bool) (results : list Result) : ustring :=
  concat (omap (λ r, if Bool.eqb (isFinal r) final
                     then head (alternatives r) else None) results).

End SpeechRecognition.

(** * Part II. Properties *)

(** ** Trimming *)
Section TrimFacts.
Import Text.

Lemma trim_start_head (s : ustring) :
  match trim_start s with
  | [] => True
  | c :: _ => is_white_space c = false
  end.
Proof.
  induction s as [|c r IH]; simpl; [exact I|].
  destruct (is_white_space c) eqn:Hc; [exact IH | exact Hc].
Qed.

Lemma trim_start_app_keep (s : ustring) (c : code_unit) :
  is_white_space c = false →
  ∃ p, trim_start (s ++ [c]) = p ++ [c].
Proof.
  intros Hc. induction s as [|d r IH]; simpl.
  - rewrite Hc. by exists [].
  - destruct (is_white_space d).
    + exact IH.
    + by exists (d :: r).
Qed.

Lemma trim_head (s : ustring) :
  match trim s with
  | [] => True
  | c :: _ => is_white_space c = false
  end.
Proof.
  unfold trim, trim_end.
  pose proof (trim_start_head s) as Hh.
  destruct (trim_start s) as [|c r]; [exact I|].
  change (c :: r) with ([c] ++ r). rewrite rev_app_distr. simpl.
  destruct (trim_start_app_keep (rev r) c Hh) as [p ->].
  rewrite rev_app_distr. simpl. exact Hh.
Qed.

Lemma trim_not_blank (s : ustring) : trim s ≠ [] → blank (trim s) = false.
Proof.
  intros Hne. pose proof (trim_head s) as Hh.
  destruct (trim s) as [|c r]; [done|].
  simpl. by rewrite Hh.
Qed.

Lemma truthy_nonempty (s : ustring) : truthy s = true ↔ s ≠ [].
Proof. destruct s; simpl; split; congruence. Qed.

(** Spaces, a tab, a no-break space and a line feed around two words:
    the space between the words stays. *)
Example trim_example :
  trim ([32; 9; 160] ++ lit "hi there" ++ [32; 10; 8233])%N = lit "hi there"
  ∧ trim ([32; 9; 160; 10; 12288])%N = [].
Proof. split; reflexivity. Qed.

End TrimFacts.

(** ** InputBar *)
Section InputBarFacts.
Import Text.

Lemma blank_trim_start (s : ustring) : blank s = true → trim_start s = [].
Proof.
  induction s as [|c r IH]; simpl; [done|].
  intros [Hc Hr]%andb_true_iff. rewrite Hc. by apply IH.
Qed.

Lemma blank_trim (s : ustring) : blank s = true → trim s = [].
Proof.
  intros Hb. unfold trim, trim_end. by rewrite (blank_trim_start s Hb).
Qed.

(** Splits a goal made of conjunctions and equivalences over options
    into its parts, and closes the parts that are about [None]. *)
Local Ltac split_cases :=
  repeat match goal with
         | |- _ ∧ _ => split
         | |- _ ↔ _ => split
         | |- _ → _ => intros ?
         | H : is_Some None |- _ => by destruct H
         | H : _ ∧ _ |- _ => destruct H
         | H : _ ∨ _ |- _ => destruct H
         | H : Some _ = Some _ |- _ => injection H as <-
         | |- is_Some (Some _) => by eexists
         end.

(** C9. A send from the input bar (the button's click handler, or Enter
    without Shift in the field) calls [onSend] exactly when the trimmed
    input is non-empty and the bar is not disabled; the callback then
    receives the trimmed text, which is never blank, and the field is
    cleared; otherwise nothing changes.  A blank input is never sent.
    The same holds of the gestures as the browser delivers them, where
    the bar's controls are also disabled while the socket is not
    connected or speech is being recognised. *)
Theorem InputBar_send_iff_trimmed_nonempty (p : InputBar.Props) (st : InputBar.State) :
  (is_Some (InputBar.handleSend p st).2
     ↔ trim (InputBar.input st) ≠ [] ∧ InputBar.disabled p = false)
  ∧ (∀ t, (InputBar.handleSend p st).2 = Some t →
       t = trim (InputBar.input st)
       ∧ InputBar.input (InputBar.handleSend p st).1 = []
       ∧ blank t = false)
  ∧ ((InputBar.handleSend p st).2 = None → (InputBar.handleSend p st).1 = st)
  ∧ (blank (InputBar.input st) = true → (InputBar.handleSend p st).2 = None)
  ∧ InputBar.handleKeyDown p st (InputBar.mkKey "Enter" false)
      = InputBar.handleSend p st
  ∧ (is_Some (InputBar.click p st).2
       ↔ trim (InputBar.input st) ≠ [] ∧ InputBar.field_disabled p st = false)
  ∧ (is_Some (InputBar.press p st (InputBar.mkKey "Enter" false)).2
       ↔ trim (InputBar.input st) ≠ [] ∧ InputBar.field_disabled p st = false)
  ∧ (∀ t, (InputBar.click p st).2 = Some t
          ∨ (InputBar.press p st (InputBar.mkKey "Enter" false)).2 = Some t →
       t = trim (InputBar.input st) ∧ blank t = false).
Proof.
  unfold InputBar.click, InputBar.press, InputBar.button_disabled,
    InputBar.field_disabled, InputBar.handleKeyDown, InputBar.handleSend.
  simpl.
  pose proof (truthy_nonempty (trim (InputBar.input st))) as Ht.
  pose proof (trim_not_blank (InputBar.input st)) as Hnb.
  pose proof (blank_trim (InputBar.input st)) as Hbl.
  destruct (truthy (trim (InputBar.input st))) eqn:Etr.
  - assert (trim (InputBar.input st) ≠ []) as Hne by (by apply Ht).
    assert (blank (trim (InputBar.input st)) = false) as Hb by (by apply Hnb).
    assert (blank (InputBar.input st) = true → False) as Hnot
      by (intros Hx; by rewrite (Hbl Hx) in Hne).
    destruct (InputBar.disabled p), (InputBar.isConnected p),
      (InputBar.isListening st); simpl;
      split_cases; try done.
  - assert (trim (InputBar.input st) = []) as He.
    { destruct (trim (InputBar.input st)); [done|]. simpl in Etr. done. }
    destruct (InputBar.disabled p), (InputBar.isConnected p),
      (InputBar.isListening st); simpl;
      split_cases; try done.
Qed.

End InputBarFacts.

(** ** useNemoSocket: reconnection *)
Section NemoSocketFacts.
Import Text Json.

Lemma handle_reschedules (st : NemoSocket.State) (e : NemoSocket.Event) :
  NemoSocket.is_open e = false →
  NemoSocket.scheduled (NemoSocket.handle st e)
    = NemoSocket.scheduled st
      ++ replicate (NemoSocket.reschedules st e) NemoSocket.RECONNECT_DELAY
  ∧ NemoSocket.reconnectAttemptsRef (NemoSocket.handle st e)
    = NemoSocket.reconnectAttemptsRef st + NemoSocket.reschedules st e.
Proof.
  intros Hopen. unfold NemoSocket.reschedules.
  destruct e as [| | |data|created]; simpl in *; try done.
  - unfold NemoSocket.onclose.
    destruct (_ <? _); simpl; split; try done; try lia.
    by rewrite app_nil_r.
  - rewrite app_nil_r. split; [done|lia].
  - destruct data; simpl; rewrite app_nil_r; split; try done; lia.
  - unfold NemoSocket.connect.
    destruct (NemoSocket.wsRef st) as [[]|]; destruct created; simpl;
      rewrite app_nil_r; split; try done; lia.
Qed.

Lemma run_without_open (evs : list NemoSocket.Event) (st : NemoSocket.State) :
  NemoSocket.never_opens evs = true →
  let k := NemoSocket.closes evs
             `min` (NemoSocket.MAX_RECONNECT_ATTEMPTS
                    - NemoSocket.reconnectAttemptsRef st) in
  NemoSocket.scheduled (NemoSocket.run st evs)
    = NemoSocket.scheduled st ++ replicate k NemoSocket.RECONNECT_DELAY
  ∧ NemoSocket.reconnectAttemptsRef (NemoSocket.run st evs)
    = NemoSocket.reconnectAttemptsRef st + k.
Proof.
  revert st. induction evs as [|e evs IH]; intros st Hno; unfold NemoSocket.never_opens in *; simpl in *.
  - unfold NemoSocket.closes. simpl. rewrite app_nil_r. split; [done|lia].
  - apply andb_true_iff in Hno as [He Hno].
    apply negb_true_iff in He.
    destruct (handle_reschedules st e He) as [Hs Ha].
    destruct (IH (NemoSocket.handle st e) Hno) as [IHs IHa].
    fold (NemoSocket.run (NemoSocket.handle st e) evs).
    rewrite IHs, IHa, Hs, Ha. clear IHs IHa Hs Ha IH.
    unfold NemoSocket.closes, NemoSocket.reschedules. simpl.
    destruct (NemoSocket.is_close e); simpl.
    + destruct (Nat.ltb_spec (NemoSocket.reconnectAttemptsRef st)
                  NemoSocket.MAX_RECONNECT_ATTEMPTS) as [Hlt|Hge]; simpl.
      * rewrite <- app_assoc.
        destruct (NemoSocket.MAX_RECONNECT_ATTEMPTS
                  - NemoSocket.reconnectAttemptsRef st) as [|m] eqn:Em; [lia|].
        replace (NemoSocket.MAX_RECONNECT_ATTEMPTS
                 - (NemoSocket.reconnectAttemptsRef st + 1)) with m by lia.
        split; [done|lia].
      * rewrite app_nil_r.
        replace (NemoSocket.MAX_RECONNECT_ATTEMPTS
                 - (NemoSocket.reconnectAttemptsRef st + 0)) with 0 by lia.
        replace (NemoSocket.MAX_RECONNECT_ATTEMPTS
                 - NemoSocket.reconnectAttemptsRef st) with 0 by lia.
        rewrite !Nat.min_0_r. split; [done|lia].
    + rewrite app_nil_r, Nat.add_0_r. split; [done|lia].
Qed.

(** C10, as amended.  In a run of socket events in which no socket
    opens, the hook sets at most [MAX_RECONNECT_ATTEMPTS] = 5 reconnect
    timers, less the attempts already counted: exactly one per [close]
    until the counter reaches the maximum, each with the fixed delay of
    3000 ms.  A [close] that finds the counter at the maximum sets no
    timer and puts the connection-failure message in the error state.
    An [open] resets the counter, so the bound is per run of failures. *)
Theorem reconnect_bounded_between_opens
    (st : NemoSocket.State) (evs : list NemoSocket.Event) :
  NemoSocket.never_opens evs = true →
  (∃ k,
      k = NemoSocket.closes evs
            `min` (NemoSocket.MAX_RECONNECT_ATTEMPTS
                   - NemoSocket.reconnectAttemptsRef st)
      ∧ k ≤ 5
      ∧ NemoSocket.scheduled (NemoSocket.run st evs)
        = NemoSocket.scheduled st ++ replicate k 3000%N
      ∧ NemoSocket.reconnectAttemptsRef (NemoSocket.run st evs)
        = NemoSocket.reconnectAttemptsRef st + k)
  ∧ (∀ s, NemoSocket.reconnectAttemptsRef s = NemoSocket.MAX_RECONNECT_ATTEMPTS →
       NemoSocket.scheduled (NemoSocket.onclose s) = NemoSocket.scheduled s
       ∧ NemoSocket.reconnectAttemptsRef (NemoSocket.onclose s)
         = NemoSocket.MAX_RECONNECT_ATTEMPTS
       ∧ NemoSocket.err (NemoSocket.onclose s)
         = Some (lit "Unable to connect to Nemo. Is the server running?"))
  ∧ (∀ s, NemoSocket.reconnectAttemptsRef (NemoSocket.onopen s) = 0).
Proof.
  intros Hno. split; [|split].
  - destruct (run_without_open evs st Hno) as [Hs Ha].
    eexists. split; [reflexivity|].
    split; [unfold NemoSocket.MAX_RECONNECT_ATTEMPTS; lia|].
    split; [exact Hs | exact Ha].
  - intros s Hs. unfold NemoSocket.onclose. rewrite Hs. simpl. done.
  - done.
Qed.

(** Six failures in a row after mounting set five timers and end with
    the failure message. *)
Lemma reconnect_bounded_between_opens_witness :
  NemoSocket.never_opens NemoSocket.failing_run = true
  ∧ NemoSocket.scheduled (NemoSocket.run NemoSocket.mounted NemoSocket.failing_run)
    = replicate 5 3000%N
  ∧ NemoSocket.err (NemoSocket.run NemoSocket.mounted NemoSocket.failing_run)
    = Some (lit "Unable to connect to Nemo. Is the server running?").
Proof.
  destruct (reconnect_bounded_between_opens
              NemoSocket.mounted NemoSocket.failing_run eq_refl)
    as [(k & Hk & _ & Hs & _) _].
  split; [reflexivity|]. split; [|reflexivity].
  rewrite Hs, Hk. reflexivity.
Defined.

(** C10, as stated, fails: a server that accepts every connection and
    then drops it makes the hook reconnect for ever.  After six such
    rounds six timers have been set and no failure is reported. *)
Lemma reconnect_unbounded_when_flapping :
  length (NemoSocket.scheduled
            (NemoSocket.run NemoSocket.mounted (NemoSocket.flapping 6))) = 6
  ∧ NemoSocket.err (NemoSocket.run NemoSocket.mounted (NemoSocket.flapping 6))
    = None
  ∧ ¬ (∀ evs : list NemoSocket.Event,
         length (NemoSocket.scheduled (NemoSocket.run NemoSocket.mounted evs))
         ≤ NemoSocket.MAX_RECONNECT_ATTEMPTS).
Proof.
  split; [reflexivity|]. split; [reflexivity|].
  intros Hall. specialize (Hall (NemoSocket.flapping 6)).
  vm_compute in Hall. lia.
Qed.

(** The same for any number of rounds: [n] drops set [n] timers. *)
Lemma flapping_schedules (n : nat) (st : NemoSocket.State) :
  length (NemoSocket.scheduled (NemoSocket.run st (NemoSocket.flapping n)))
  = length (NemoSocket.scheduled st) + n.
Proof.
  revert st. induction n as [|n IH]; intros st; [simpl; lia|].
  change (NemoSocket.flapping (S n))
    with ([NemoSocket.WsOpen; NemoSocket.WsClose; NemoSocket.TimerFires true]
          ++ NemoSocket.flapping n).
  unfold NemoSocket.run. rewrite fold_left_app.
  fold (NemoSocket.run
          (fold_left NemoSocket.handle
             [NemoSocket.WsOpen; NemoSocket.WsClose; NemoSocket.TimerFires true] st)
          (NemoSocket.flapping n)).
  rewrite IH. simpl. rewrite length_app. simpl. lia.
Qed.

End NemoSocketFacts.

(** ** App: the transcript *)
Section AppFacts.
Import Text Json.

Lemma said_app (who : App.Role) (a b : list App.Message) :
  App.said who (a ++ b) = App.said who a ++ App.said who b.
Proof. unfold App.said. by rewrite filter_app, fmap_app. Qed.

Lemma said_one (who : App.Role) (m : App.Message) :
  App.said who [m] = if decide (App.role m = who) then [App.content m] else [].
Proof.
  unfold App.said. rewrite filter_cons, filter_nil. by case_decide.
Qed.

Lemma onError_frame (prev : option ustring) (st : App.State) :
  App.messages (App.onError prev st) = App.messages st
  ∧ App.processedResponseRef (App.onError prev st) = App.processedResponseRef st
  ∧ App.played (App.onError prev st) = App.played st
  ∧ App.socket (App.onError prev st) = App.socket st.
Proof.
  unfold App.onError. case_bool_decide; [done|].
  destruct (NemoSocket.err (App.socket st)) as [e|]; [|done].
  by destruct (truthy e).
Qed.

(** What the effect on [lastResponse] does, by cases on the guard. *)
Lemma onResponse_cases (now : N) (st : App.State) :
  match NemoSocket.lastResponse (App.socket st) with
  | Some r =>
    match NemoSocket.text r with
    | Some t =>
      if truthy t && negb (bool_decide (App.processedResponseRef st = Some t))
      then App.messages (App.onResponse now st)
             = App.messages st
               ++ [App.mkMessage (lit "nemo-" ++ lit (pretty now)) App.nemo t now]
           ∧ App.processedResponseRef (App.onResponse now st) = Some t
           ∧ App.played (App.onResponse now st) = App.played st ++ App.clip r
           ∧ App.isTyping (App.onResponse now st) = false
      else App.onResponse now st = st
    | None => App.onResponse now st = st
    end
  | None => App.onResponse now st = st
  end.
Proof.
  unfold App.onResponse, App.clip.
  destruct (NemoSocket.lastResponse (App.socket st)) as [r|]; [|done].
  destruct (NemoSocket.text r) as [t|]; [|done].
  destruct (truthy t); simpl; [|done].
  case_bool_decide; simpl; [done|].
  repeat split; try done.
  destruct (NemoSocket.audio r) as [a|]; [|by rewrite app_nil_r].
  destruct (truthy a); [done|by rewrite app_nil_r].
Qed.

Lemma deliver_skip (r : NemoSocket.NemoResponse) (now : N) (st : App.State) :
  NemoSocket.text r = None ∨ NemoSocket.text r = Some []
  ∨ NemoSocket.text r = App.processedResponseRef st →
  App.messages (App.deliver r now st) = App.messages st
  ∧ App.played (App.deliver r now st) = App.played st
  ∧ App.processedResponseRef (App.deliver r now st) = App.processedResponseRef st.
Proof.
  intros Hskip. unfold App.deliver.
  set (st0 := App.with_socket (NemoSocket.onmessage (Some r) (App.socket st)) st).
  pose proof (onResponse_cases now st0) as Hc.
  change (NemoSocket.lastResponse (App.socket st0)) with (Some r) in Hc.
  change (App.processedResponseRef st0) with (App.processedResponseRef st) in Hc.
  cbv beta iota in Hc.
  destruct (NemoSocket.text r) as [t|] eqn:Et; [|by rewrite Hc].
  destruct (truthy t) eqn:Htr; simpl in Hc; [|by rewrite Hc].
  case_bool_decide as Href; simpl in Hc; [by rewrite Hc|].
  destruct Hskip as [?|[[= ->]|Heq]]; [done|done|].
  by rewrite Heq in Href.
Qed.

Lemma deliver_append (r : NemoSocket.NemoResponse) (now : N) (st : App.State)
    (t : ustring) :
  NemoSocket.text r = Some t → t ≠ [] → App.processedResponseRef st ≠ Some t →
  App.messages (App.deliver r now st)
    = App.messages st
      ++ [App.mkMessage (lit "nemo-" ++ lit (pretty now)) App.nemo t now]
  ∧ App.played (App.deliver r now st) = App.played st ++ App.clip r
  ∧ App.processedResponseRef (App.deliver r now st) = Some t.
Proof.
  intros Et Hne Href. unfold App.deliver.
  set (st0 := App.with_socket (NemoSocket.onmessage (Some r) (App.socket st)) st).
  pose proof (onResponse_cases now st0) as Hc.
  change (NemoSocket.lastResponse (App.socket st0)) with (Some r) in Hc.
  change (App.processedResponseRef st0) with (App.processedResponseRef st) in Hc.
  cbv beta iota in Hc. rewrite Et in Hc.
  apply truthy_nonempty in Hne. rewrite Hne in Hc.
  rewrite bool_decide_eq_false_2 in Hc by done. simpl in Hc.
  destruct Hc as (Hm & Hp & Hpl & _). done.
Qed.

Lemma step_browser_message (st : App.State) (r : NemoSocket.NemoResponse) (now : N) :
  App.step st (App.Browser (NemoSocket.WsMessage (Some r)), now)
  = App.onError (NemoSocket.err (App.socket st)) (App.deliver r now st).
Proof. done. Qed.

(** One step appends at most one entry: the user's text as it was
    passed to [handleSend], or a response's text. *)
Lemma step_messages (st : App.State) (ev : App.Event * N) :
  match ev.1 with
  | App.UserSends t =>
    App.messages (App.step st ev)
    = App.messages st
      ++ [App.mkMessage (lit "user-" ++ lit (pretty ev.2)) App.user t ev.2]
    ∧ App.processedResponseRef (App.step st ev) = App.processedResponseRef st
  | App.Browser (NemoSocket.WsMessage (Some r)) =>
    (App.messages (App.step st ev) = App.messages st
     ∧ App.processedResponseRef (App.step st ev) = App.processedResponseRef st)
    ∨ (∃ t, NemoSocket.text r = Some t
         ∧ App.messages (App.step st ev)
           = App.messages st
             ++ [App.mkMessage (lit "nemo-" ++ lit (pretty ev.2)) App.nemo t ev.2]
         ∧ App.processedResponseRef (App.step st ev) = Some t)
  | App.Browser _ =>
    App.messages (App.step st ev) = App.messages st
    ∧ App.processedResponseRef (App.step st ev) = App.processedResponseRef st
  end.
Proof.
  destruct ev as [[t|e] now]; simpl.
  - unfold App.step. simpl.
    destruct (onError_frame (NemoSocket.err (App.socket st))
                (App.handleSend t now st)) as (-> & -> & _). done.
  - destruct e as [| | |[r|]|created];
      try (unfold App.step; simpl;
           match goal with
           | |- context [App.onError ?p ?x] =>
             destruct (onError_frame p x) as (-> & -> & _)
           end; done).
    rewrite step_browser_message.
    destruct (onError_frame (NemoSocket.err (App.socket st))
                (App.deliver r now st)) as (-> & -> & _).
    destruct (NemoSocket.text r) as [t|] eqn:Et.
    + destruct (decide (t = [])) as [->|Hne].
      { left. destruct (deliver_skip r now st) as (-> & _ & ->); auto. }
      destruct (decide (App.processedResponseRef st = Some t)) as [Href|Href].
      { left. destruct (deliver_skip r now st) as (-> & _ & ->); auto.
        right. right. by rewrite Et. }
      right. exists t.
      destruct (deliver_append r now st t Et Hne Href) as (-> & _ & ->). done.
    + left. destruct (deliver_skip r now st) as (-> & _ & ->); auto.
Qed.

(** The user's side of the transcript is the texts passed to
    [handleSend], in order, whatever the socket delivers. *)
Lemma run_said_user (evs : list (App.Event * N)) (st : App.State) :
  App.said App.user (App.messages (App.run st evs))
  = App.said App.user (App.messages st) ++ App.texts_sent evs.
Proof.
  revert st. induction evs as [|ev evs IH]; intros st; simpl.
  - by rewrite app_nil_r.
  - fold (App.run (App.step st ev) evs). rewrite IH.
    pose proof (step_messages st ev) as Hs.
    unfold App.texts_sent. simpl. fold (App.texts_sent evs).
    destruct ev as [[t|e] now]; simpl in *.
    + destruct Hs as [-> _]. rewrite said_app, said_one. simpl.
      by rewrite <- app_assoc.
    + destruct e as [| | |[r|]|created]; simpl in *;
        try (destruct Hs as [-> _]; done).
      destruct Hs as [[-> _]|(t & _ & -> & _)]; [done|].
      rewrite said_app, said_one. simpl. by rewrite app_nil_r.
Qed.

(** Nemo's side of the transcript holds texts of delivered responses
    only. *)
Lemma run_said_nemo (evs : list (App.Event * N)) (st : App.State) (t : ustring) :
  t ∈ App.said App.nemo (App.messages (App.run st evs)) →
  t ∈ App.said App.nemo (App.messages st)
  ∨ ∃ r now, (App.Browser (NemoSocket.WsMessage (Some r)), now) ∈ evs
             ∧ NemoSocket.text r = Some t.
Proof.
  revert st. induction evs as [|ev evs IH]; intros st; simpl; [auto|].
  fold (App.run (App.step st ev) evs). intros Hin.
  destruct (IH _ Hin) as [Hin'|(r & now & Hev & Ht)].
  2:{ right. exists r, now. split; [apply elem_of_cons; by right|done]. }
  pose proof (step_messages st ev) as Hs.
  destruct ev as [[u|e] now]; simpl in *.
  - destruct Hs as [Hm _]. rewrite Hm, said_app, said_one in Hin'. simpl in Hin'.
    rewrite app_nil_r in Hin'. by left.
  - destruct e as [| | |[r|]|created]; simpl in *;
      try (destruct Hs as [Hm _]; rewrite Hm in Hin'; by left).
    destruct Hs as [[Hm _]|(t' & Ht' & Hm & _)]; rewrite Hm in Hin'; [by left|].
    rewrite said_app, said_one in Hin'. simpl in Hin'.
    apply elem_of_app in Hin' as [?|Hlast]; [by left|].
    apply list_elem_of_singleton in Hlast as ->.
    right. exists r, now. split; [apply elem_of_cons; by left|done].
Qed.

(** [processedResponseRef] holds the text of the latest Nemo entry of
    the transcript. *)
Lemma run_processed_ref (evs : list (App.Event * N)) (st : App.State) :
  App.processedResponseRef st = last (App.said App.nemo (App.messages st)) →
  App.processedResponseRef (App.run st evs)
  = last (App.said App.nemo (App.messages (App.run st evs))).
Proof.
  revert st. induction evs as [|ev evs IH]; intros st Hinv; simpl; [done|].
  fold (App.run (App.step st ev) evs). apply IH.
  pose proof (step_messages st ev) as Hs.
  destruct ev as [[u|e] now]; simpl in *.
  - destruct Hs as [-> ->]. rewrite said_app, said_one. simpl. by rewrite app_nil_r.
  - destruct e as [| | |[r|]|created]; simpl in *;
      try (destruct Hs as [-> ->]; done).
    destruct Hs as [[-> ->]|(t & _ & -> & ->)]; [done|].
    rewrite said_app, said_one. simpl. by rewrite last_snoc.
Qed.

(** C8, as amended.  When the App processes a backend response: if its
    text is missing or empty, or equals the text [processedResponseRef]
    holds - the text of the last response that entered the transcript,
    which is the latest Nemo entry, and not the text of the response
    received before this one - nothing is appended and nothing is
    played; otherwise exactly one Nemo message with that text is
    appended (and the response's clip, if any, is played).  So a second
    response with the same text adds no entry. *)
Theorem response_appended_unless_repeated
    (st : App.State) (r : NemoSocket.NemoResponse) (now : N) :
  (NemoSocket.text r = None ∨ NemoSocket.text r = Some []
   ∨ NemoSocket.text r = App.processedResponseRef st →
     App.messages (App.deliver r now st) = App.messages st
     ∧ App.played (App.deliver r now st) = App.played st)
  ∧ (∀ t, NemoSocket.text r = Some t → t ≠ [] →
          App.processedResponseRef st ≠ Some t →
     App.messages (App.deliver r now st)
       = App.messages st
         ++ [App.mkMessage (lit "nemo-" ++ lit (pretty now)) App.nemo t now]
     ∧ App.played (App.deliver r now st) = App.played st ++ App.clip r
     ∧ App.processedResponseRef (App.deliver r now st) = Some t)
  ∧ (∀ r2 now2, NemoSocket.text r2 = NemoSocket.text r →
     App.messages (App.deliver r2 now2 (App.deliver r now st))
       = App.messages (App.deliver r now st)
     ∧ App.played (App.deliver r2 now2 (App.deliver r now st))
       = App.played (App.deliver r now st))
  ∧ (∀ evs,
     App.processedResponseRef (App.run App.initial evs)
     = last (App.said App.nemo (App.messages (App.run App.initial evs)))).
Proof.
  split; [|split; [|split]].
  - intros Hskip. destruct (deliver_skip r now st Hskip) as (? & ? & _). done.
  - intros t Et Hne Href. exact (deliver_append r now st t Et Hne Href).
  - intros r2 now2 Heq.
    assert (NemoSocket.text r2 = None ∨ NemoSocket.text r2 = Some []
            ∨ NemoSocket.text r2
              = App.processedResponseRef (App.deliver r now st)) as Hskip.
    { rewrite Heq. destruct (NemoSocket.text r) as [t|] eqn:Et; [|by left].
      destruct (decide (t = [])) as [->|Hne]; [right; by left|].
      right. right.
      destruct (decide (App.processedResponseRef st = Some t)) as [Href|Href].
      - destruct (deliver_skip r now st) as (_ & _ & ->); [|done].
        right. right. by rewrite Et.
      - by destruct (deliver_append r now st t Et Hne Href) as (_ & _ & ->). }
    destruct (deliver_skip r2 now2 _ Hskip) as (? & ? & _). done.
  - intros evs. by apply run_processed_ref.
Qed.

(** C8, as stated, fails: a response with an empty text does not count
    as the previously processed one.  After "A", the empty text and "A"
    again, the third response is not empty and differs from the one
    before it, and yet it adds no entry. *)
Lemma repeat_after_empty_response_is_dropped :
  App.said App.nemo
    (App.messages
       (App.deliver (NemoSocket.mkResponse (Some (lit "A")) None [] None) 3%N
          (App.deliver (NemoSocket.mkResponse (Some []) None [] None) 2%N
             (App.deliver (NemoSocket.mkResponse (Some (lit "A")) None [] None) 1%N
                App.initial))))
  = [lit "A"]
  ∧ ¬ (∀ st prev r now1 now2 t,
         NemoSocket.text r = Some t → t ≠ [] →
         NemoSocket.text r ≠ NemoSocket.text prev →
         length (App.messages (App.deliver r now2 (App.deliver prev now1 st)))
         = S (length (App.messages (App.deliver prev now1 st)))).
Proof.
  split; [reflexivity|].
  intros Hall.
  specialize (Hall (App.deliver (NemoSocket.mkResponse (Some (lit "A")) None [] None)
                      1%N App.initial)
                (NemoSocket.mkResponse (Some []) None [] None)
                (NemoSocket.mkResponse (Some (lit "A")) None [] None)
                2%N 3%N (lit "A") eq_refl).
  vm_compute in Hall. by specialize (Hall ltac:(discriminate) ltac:(discriminate)).
Qed.

(** Every frame the front end hands to the socket is [{text}]. *)
Lemma request_is_request_shaped (t : ustring) :
  Contract.request_shape (NemoSocket.request t) = true.
Proof.
  unfold Contract.request_shape, has_string, optional, NemoSocket.request, field.
  rewrite lookup_singleton_eq. by rewrite lookup_singleton_ne.
Qed.

Lemma run_sent_requests (evs : list (App.Event * N)) (st : App.State) :
  Forall (λ j, ∃ t, j = NemoSocket.request t) (NemoSocket.sent (App.socket st)) →
  Forall (λ j, ∃ t, j = NemoSocket.request t)
         (NemoSocket.sent (App.socket (App.run st evs))).
Proof.
  revert st. induction evs as [|ev evs IH]; intros st Hinv; simpl; [done|].
  fold (App.run (App.step st ev) evs). apply IH. clear IH.
  destruct ev as [[t|e] now]; unfold App.step; simpl;
    match goal with
    | |- context [App.onError ?p ?x] =>
      destruct (onError_frame p x) as (_ & _ & _ & ->)
    end.
  - unfold App.handleSend, NemoSocket.sendMessage. simpl.
    destruct (NemoSocket.wsRef (App.socket st)) as [[]|]; simpl; try done.
    apply Forall_app. split; [done|]. apply Forall_singleton. by exists t.
  - destruct e as [| | |[r|]|created]; simpl; try done.
    + unfold NemoSocket.onclose. by destruct (_ <? _).
    + unfold App.onResponse. simpl.
      destruct (NemoSocket.text r) as [t|]; [|done].
      destruct (truthy t); [|done]. by case_bool_decide.
    + unfold NemoSocket.connect.
      by destruct (NemoSocket.wsRef (App.socket st)) as [[]|]; destruct created.
Qed.

End AppFacts.

(** ** The backend: turns, replies and background saves *)
Section ServerFacts.
Import Text Json.
Context {Ext : Type} (sv : Server.Services Ext).

Lemma sent_turns_app (a b : list Server.LogEntry) :
  Server.sent_turns (a ++ b) = Server.sent_turns a ++ Server.sent_turns b.
Proof. unfold Server.sent_turns. apply omap_app. Qed.

Lemma saving_turns_app (a b : list Server.LogEntry) :
  Server.saving_turns (a ++ b) = Server.saving_turns a ++ Server.saving_turns b.
Proof. unfold Server.saving_turns. apply omap_app. Qed.

(** What one step of the coroutine adds: a send step adds one frame,
    one [Sent] entry and one task, all of the current turn; the other
    steps add none of these. *)
Lemma endpoint_step_adds (st st' : Server.State Ext) :
  Server.endpoint_step sv st = Some st' →
  (∃ u r a, Server.pc st = Server.AtSend u r a
     ∧ Server.pc st' = Server.AtReceive
     ∧ Server.turn st' = Server.turn st
     ∧ Server.outbox st' = Server.outbox st ++ [Server.reply a r]
     ∧ Server.ready st' = Server.ready st ++ [Server.mkTask (Server.turn st) u r]
     ∧ Server.log st'
       = Server.log st ++ [Server.Sent (Server.turn st) (Server.reply a r)])
  ∨ ((∀ u r a, Server.pc st ≠ Server.AtSend u r a)
     ∧ Server.outbox st' = Server.outbox st
     ∧ Server.ready st' = Server.ready st
     ∧ ∃ l, Server.log st' = Server.log st ++ l
            ∧ Server.sent_turns l = [] ∧ Server.saving_turns l = []
            ∧ ∀ n, Server.Saving n ∉ l).
Proof.
  unfold Server.endpoint_step, Server.except. intros Hstep.
  destruct (Server.pc st) eqn:Hpc.
  5:{ done. }
  4:{ left. simplify_eq. simpl. eauto 10. }
  all: right; split; [done|].
  all: repeat case_match; simplify_eq; simpl;
    repeat split; try done.
  all: first [ by (eexists [_]; repeat split; try done;
                   intros n [=]%list_elem_of_singleton)
             | by (exists []; rewrite app_nil_r; repeat split; try done;
                   intros n ?%elem_of_nil) ].
Qed.

Lemma task_step_effect (st st' : Server.State Ext) :
  Server.task_step sv st = Some st' →
  Server.pc st' = Server.pc st
  ∧ Server.inbox st' = Server.inbox st
  ∧ Server.outbox st' = Server.outbox st
  ∧ Server.llm_calls st' = Server.llm_calls st
  ∧ Server.turn st' = Server.turn st
  ∧ ∃ t l, Server.ready st = t :: Server.ready st'
           ∧ Server.log st' = Server.log st ++ Server.Saving (Server.task_turn t) :: l
           ∧ Server.sent_turns l = [] ∧ Server.saving_turns l = []
           ∧ ∀ n, Server.Saving n ∉ l.
Proof.
  unfold Server.task_step. intros Hstep.
  destruct (Server.ready st) as [|t rest] eqn:Hr; [done|].
  destruct (Server.save_interaction _ _ _ _) as [[[]|x] e'];
    simplify_eq; simpl; repeat split; try done.
  - exists t, []. repeat split; try done. intros n ?%elem_of_nil. done.
  - exists t, [Server.SaveRaised (Server.task_turn t) x].
    repeat split; try done. intros n [=]%list_elem_of_singleton.
Qed.

Lemma split_at_entry (a l l1 l2 : list Server.LogEntry) (x : Server.LogEntry) :
  a ++ l = l1 ++ x :: l2 →
  (∃ l2', a = l1 ++ x :: l2') ∨ (∃ p, l1 = a ++ p ∧ l = p ++ x :: l2).
Proof.
  revert l1. induction a as [|y a IH]; intros l1 Heq; simpl in *.
  - right. by exists l1.
  - destruct l1 as [|z l1]; simpl in *.
    + injection Heq as -> <-. left. by exists a.
    + injection Heq as -> Heq.
      destruct (IH l1 Heq) as [[l2' ->]|(p & -> & ->)].
      * left. by exists l2'.
      * right. by exists p.
Qed.

Lemma after_extend (lg l : list Server.LogEntry) :
  (∀ l1 n l2, lg = l1 ++ Server.Saving n :: l2 → n ∈ Server.sent_turns l1) →
  (∀ n, Server.Saving n ∉ l) →
  ∀ l1 n l2, lg ++ l = l1 ++ Server.Saving n :: l2 → n ∈ Server.sent_turns l1.
Proof.
  intros Hlg Hl l1 n l2 Heq.
  destruct (split_at_entry _ _ _ _ _ Heq) as [[l2' ->]|(p & -> & ->)].
  - by eapply Hlg.
  - exfalso. apply (Hl n). apply elem_of_app. right. apply elem_of_cons. by left.
Qed.

Lemma ordered_accepted (e : Ext) (frames : list JSON) :
  Server.Ordered (Server.accepted e frames).
Proof.
  constructor; simpl; try done.
  - constructor.
  - intros [|? ?] n l2; simpl; intros [=].
Qed.

Lemma ordered_endpoint_step (st st' : Server.State Ext) :
  Server.Ordered st → Server.endpoint_step sv st = Some st' → Server.Ordered st'.
Proof.
  intros [Hq Hs Hb Ha] Hstep.
  assert (Server.sent_bound st ≤ Server.sent_bound st'
          ∨ ∃ u r a, Server.pc st = Server.AtSend u r a) as Hmono.
  { unfold Server.sent_bound, Server.endpoint_step, Server.except in *.
    destruct (Server.pc st) eqn:Hpc; [| | |right; eauto|done];
      left; repeat case_match; simplify_eq; simpl in *; try lia; try done. }
  destruct (endpoint_step_adds st st' Hstep)
    as [(u & r & a & Hpc & Hpc' & Ht & Ho & Hr & Hl)
       |(Hpc & Ho & Hr & l & Hl & Hsl & Hvl & Hnl)].
  - assert (Forall (λ n, n < Server.turn st) (Server.sent_turns (Server.log st)))
      as Hlt.
    { unfold Server.sent_bound in Hb. by rewrite Hpc in Hb. }
    constructor.
    + rewrite Hl, Hr, sent_turns_app, saving_turns_app, fmap_app. simpl.
      rewrite app_nil_r, app_assoc. by rewrite Hq.
    + rewrite Hl, sent_turns_app. simpl.
      apply StronglySorted_app_2; [|done|repeat constructor].
      intros x1 x2 Hx1 ->%list_elem_of_singleton.
      by eapply Forall_forall in Hlt.
    + unfold Server.sent_bound. rewrite Hpc', Ht, Hl, sent_turns_app. simpl.
      apply Forall_app. split; [|by repeat constructor].
      eapply Forall_impl; [exact Hlt|]. simpl. lia.
    + rewrite Hl. apply after_extend; [done|].
      intros n [=]%list_elem_of_singleton.
  - destruct Hmono as [Hmono|(u & r & a & Hsend)]; [|by destruct (Hpc u r a)].
    constructor.
    + rewrite Hl, Hr, sent_turns_app, saving_turns_app, Hsl, Hvl, !app_nil_r.
      done.
    + by rewrite Hl, sent_turns_app, Hsl, app_nil_r.
    + rewrite Hl, sent_turns_app, Hsl, app_nil_r.
      eapply Forall_impl; [exact Hb|]. simpl. lia.
    + rewrite Hl. by apply after_extend.
Qed.

Lemma ordered_task_step (st st' : Server.State Ext) :
  Server.Ordered st → Server.task_step sv st = Some st' → Server.Ordered st'.
Proof.
  intros [Hq Hs Hb Ha] Hstep.
  destruct (task_step_effect st st' Hstep)
    as (Hpc & _ & _ & _ & Ht & t & l & Hr & Hl & Hsl & Hvl & Hnl).
  rewrite Hr in Hq. simpl in Hq.
  constructor.
  - rewrite Hl, sent_turns_app, saving_turns_app. simpl.
    rewrite Hsl, Hvl, app_nil_r, <- app_assoc. simpl. done.
  - rewrite Hl, sent_turns_app. simpl. by rewrite Hsl, app_nil_r.
  - unfold Server.sent_bound in *. rewrite Hpc, Ht, Hl, sent_turns_app. simpl.
    by rewrite Hsl, app_nil_r.
  - rewrite Hl. intros l1 n l2 Heq.
    destruct (split_at_entry _ _ _ _ _ Heq) as [[l2' Hlg]|(p & -> & Hp)].
    + by eapply Ha.
    + destruct p as [|y p]; simpl in Hp.
      * injection Hp as Hn _. rewrite app_nil_r, <- Hq, <- Hn.
        apply elem_of_app. right. apply elem_of_cons. by left.
      * injection Hp as _ ->. exfalso. apply (Hnl n).
        apply elem_of_app. right. apply elem_of_cons. by left.
Qed.

Lemma ordered_run (sched : list Server.Choice) (st : Server.State Ext) :
  Server.Ordered st → Server.Ordered (Server.run sv st sched).
Proof.
  revert st. induction sched as [|c sched IH]; intros st Hord; simpl; [done|].
  fold (Server.run sv (Server.exec sv st c) sched). apply IH.
  destruct c; simpl.
  - destruct (Server.endpoint_step sv st) as [st'|] eqn:Hstep; simpl; [|done].
    by eapply ordered_endpoint_step.
  - destruct (Server.task_step sv st) as [st'|] eqn:Hstep; simpl; [|done].
    by eapply ordered_task_step.
Qed.

(** Every run under a schedule visits reachable states only, and every
    reachable state is ordered. *)
Lemma run_reachable (e : Ext) (frames : list JSON) (sched : list Server.Choice)
    (st : Server.State Ext) :
  Server.reachable sv e frames st →
  Server.reachable sv e frames (Server.run sv st sched).
Proof.
  revert st. induction sched as [|c sched IH]; intros st Hst; simpl; [done|].
  fold (Server.run sv (Server.exec sv st c) sched). apply IH.
  destruct c; simpl.
  - destruct (Server.endpoint_step sv st) as [st'|] eqn:Hstep; simpl; [|done].
    eapply Server.reach_step; [exact Hst|]. by apply Server.step_endpoint.
  - destruct (Server.task_step sv st) as [st'|] eqn:Hstep; simpl; [|done].
    eapply Server.reach_step; [exact Hst|]. by apply Server.step_task.
Qed.

Lemma ordered_reachable (e : Ext) (frames : list JSON) (st : Server.State Ext) :
  Server.reachable sv e frames st → Server.Ordered st.
Proof.
  induction 1 as [|st st' _ IH Hstep]; [apply ordered_accepted|].
  inversion Hstep; subst.
  - by eapply ordered_endpoint_step.
  - by eapply ordered_task_step.
Qed.

(** Once the coroutine has ended, no schedule sends a frame or calls
    the LLM again. *)
Lemma finished_absorbing (sched : list Server.Choice) (st : Server.State Ext) :
  Server.pc st = Server.Finished →
  Server.pc (Server.run sv st sched) = Server.Finished
  ∧ Server.outbox (Server.run sv st sched) = Server.outbox st
  ∧ Server.llm_calls (Server.run sv st sched) = Server.llm_calls st.
Proof.
  revert st. induction sched as [|c sched IH]; intros st Hpc; simpl; [done|].
  fold (Server.run sv (Server.exec sv st c) sched).
  destruct c; simpl.
  - unfold Server.endpoint_step. rewrite Hpc. simpl. by apply IH.
  - destruct (Server.task_step sv st) as [st'|] eqn:Hstep; simpl; [|by apply IH].
    destruct (task_step_effect st st' Hstep) as (Hpc' & _ & Ho & Hc & _).
    destruct (IH st') as (? & ? & ?); [congruence|].
    repeat split; congruence.
Qed.

Lemma reply_shape (a r : ustring) :
  Contract.nemo_response (Server.reply a r) = true
  ∧ Contract.result_shape (Server.reply a r) = false
  ∧ NemoSocket.decode (Server.reply a r)
    = NemoSocket.mkResponse (Some r) (Some a) [] None.
Proof.
  unfold Contract.nemo_response, Contract.result_shape, NemoSocket.decode,
    NemoSocket.str_field, has_string, optional, field, Server.reply.
  by simplify_map_eq.
Qed.

Lemma run_outbox_replies (sched : list Server.Choice) (st : Server.State Ext) :
  Forall (λ j, ∃ a r, j = Server.reply a r) (Server.outbox st) →
  Forall (λ j, ∃ a r, j = Server.reply a r)
         (Server.outbox (Server.run sv st sched)).
Proof.
  revert st. induction sched as [|c sched IH]; intros st Hinv; simpl; [done|].
  fold (Server.run sv (Server.exec sv st c) sched). apply IH. clear IH.
  destruct c; simpl.
  - destruct (Server.endpoint_step sv st) as [st'|] eqn:Hstep; simpl; [|done].
    destruct (endpoint_step_adds st st' Hstep)
      as [(u & r & a & _ & _ & _ & -> & _)|(_ & -> & _)]; [|done].
    apply Forall_app. split; [done|]. apply Forall_singleton. by exists a, r.
  - destruct (Server.task_step sv st) as [st'|] eqn:Hstep; simpl; [|done].
    by destruct (task_step_effect st st' Hstep) as (_ & _ & -> & _).
Qed.

(** One whole turn when every service answers: four steps of the
    coroutine, from the [receive] to the [send]. *)
Lemma turn_completes (st : Server.State Ext) (data : JSON) (rest : list JSON)
    (user_text : JSON) (hits : list Server.MemoryHit) (r a : ustring)
    (e1 e2 e3 : Ext) :
  Server.pc st = Server.AtReceive →
  Server.inbox st = data :: rest →
  Server.subscript data "text" = Server.Ok user_text →
  Server.search sv user_text Server.user_id 3 (Server.ext st) = (Server.Ok hits, e1) →
  Server.generate sv user_text
    (Server.system_prompt (Server.join Server.nl (Server.memory <$> hits))) e1
    = (Server.Ok r, e2) →
  Server.synthesize sv r e2 = (Server.Ok a, e3) →
  Server.outbox (Server.run sv st (replicate 4 Server.RunEndpoint))
    = Server.outbox st ++ [Server.reply a r]
  ∧ Server.llm_calls (Server.run sv st (replicate 4 Server.RunEndpoint))
    = Server.llm_calls st
      ++ [(user_text,
           Server.system_prompt (Server.join Server.nl (Server.memory <$> hits)))]
  ∧ Server.pc (Server.run sv st (replicate 4 Server.RunEndpoint))
    = Server.AtReceive.
Proof.
  intros Hpc Hin Hsub Hsearch Hgen Hsyn.
  set (P := Server.system_prompt (Server.join Server.nl (Server.memory <$> hits))).
  assert (∃ s1, Server.endpoint_step sv st = Some s1
                ∧ Server.pc s1 = Server.AtGenerate user_text P
                ∧ Server.ext s1 = e1
                ∧ Server.outbox s1 = Server.outbox st
                ∧ Server.llm_calls s1 = Server.llm_calls st)
    as (s1 & H1 & Hpc1 & He1 & Ho1 & Hc1).
  { unfold Server.endpoint_step. rewrite Hpc, Hin, Hsub.
    unfold Server.get_context. rewrite Hsearch. eexists. by split. }
  assert (∃ s2, Server.endpoint_step sv s1 = Some s2
                ∧ Server.pc s2 = Server.AtSynthesize user_text r
                ∧ Server.ext s2 = e2
                ∧ Server.outbox s2 = Server.outbox st
                ∧ Server.llm_calls s2 = Server.llm_calls st ++ [(user_text, P)])
    as (s2 & H2 & Hpc2 & He2 & Ho2 & Hc2).
  { unfold Server.endpoint_step. rewrite Hpc1, He1. fold P in Hgen. rewrite Hgen.
    eexists. split; [done|]. simpl. by rewrite Ho1, Hc1. }
  assert (∃ s3, Server.endpoint_step sv s2 = Some s3
                ∧ Server.pc s3 = Server.AtSend user_text r a
                ∧ Server.outbox s3 = Server.outbox st
                ∧ Server.llm_calls s3 = Server.llm_calls st ++ [(user_text, P)])
    as (s3 & H3 & Hpc3 & Ho3 & Hc3).
  { unfold Server.endpoint_step. rewrite Hpc2, He2, Hsyn.
    eexists. split; [done|]. simpl. by rewrite Ho2, Hc2. }
  assert (∃ s4, Server.endpoint_step sv s3 = Some s4
                ∧ Server.pc s4 = Server.AtReceive
                ∧ Server.outbox s4 = Server.outbox st ++ [Server.reply a r]
                ∧ Server.llm_calls s4 = Server.llm_calls st ++ [(user_text, P)])
    as (s4 & H4 & Hpc4 & Ho4 & Hc4).
  { unfold Server.endpoint_step. rewrite Hpc3.
    eexists. split; [done|]. simpl. by rewrite Ho3, Hc3. }
  unfold Server.run. cbn [replicate fold_left Server.exec].
  rewrite H1. cbn [from_option id]. rewrite H2. cbn [from_option id].
  rewrite H3. cbn [from_option id]. rewrite H4. cbn [from_option id].
  done.
Qed.

(** C5. Saving a finished turn to memory is detached from the turn.  In
    every run of the connection, under every schedule of the event
    loop: the saves started, followed by the tasks still queued, are
    exactly the turns answered so far, in increasing turn order (no save
    overtakes the save of an earlier turn); a save starts only after the
    answer of its turn was sent; and running a save, whether it returns
    or raises, leaves the coroutine, its inbox, the frames sent and the
    LLM calls as they were. *)
Theorem saves_are_detached_and_in_turn_order
    (e : Ext) (frames : list JSON) (sched : list Server.Choice) :
  Server.saving_turns (Server.log (Server.run sv (Server.accepted e frames) sched))
    ++ (Server.task_turn
          <$> Server.ready (Server.run sv (Server.accepted e frames) sched))
  = Server.sent_turns (Server.log (Server.run sv (Server.accepted e frames) sched))
  ∧ StronglySorted lt
      (Server.sent_turns (Server.log (Server.run sv (Server.accepted e frames) sched)))
  ∧ StronglySorted lt
      (Server.saving_turns (Server.log (Server.run sv (Server.accepted e frames) sched)))
  ∧ (∀ l1 n l2,
       Server.log (Server.run sv (Server.accepted e frames) sched)
       = l1 ++ Server.Saving n :: l2 →
       n ∈ Server.sent_turns l1)
  ∧ (∀ s s', Server.task_step sv s = Some s' →
       Server.pc s' = Server.pc s ∧ Server.inbox s' = Server.inbox s
       ∧ Server.outbox s' = Server.outbox s
       ∧ Server.llm_calls s' = Server.llm_calls s).
Proof.
  destruct (ordered_run sched _ (ordered_accepted e frames)) as [Hq Hs Hb Ha].
  split; [exact Hq|]. split; [exact Hs|]. split.
  { rewrite <- Hq in Hs. by apply StronglySorted_app_1_l in Hs. }
  split; [exact Ha|].
  intros s s' Hstep.
  destruct (task_step_effect s s' Hstep) as (? & ? & ? & ? & _). done.
Qed.

(** C4, as amended.  A failure of the memory store during retrieval is
    not isolated: [get_context] passes the exception on, the handler
    around the loop reports it and the coroutine ends, so the turn sends
    no answer, the LLM is not called, and under no schedule is a later
    frame answered.  When retrieval succeeds the turn goes on to the LLM
    with the recalled memories in the system prompt. *)
Theorem memory_failure_ends_the_connection
    (st : Server.State Ext) (data : JSON) (rest : list JSON) (user_text : JSON) :
  Server.pc st = Server.AtReceive →
  Server.inbox st = data :: rest →
  Server.subscript data "text" = Server.Ok user_text →
  (∀ x e', Server.search sv user_text Server.user_id 3 (Server.ext st)
           = (Server.Raise x, e') →
     Server.get_context sv user_text (Server.ext st) = (Server.Raise x, e')
     ∧ ∃ st', Server.endpoint_step sv st = Some st'
        ∧ Server.pc st' = Server.Finished
        ∧ Server.log st' = Server.log st ++ [Server.Error x]
        ∧ ∀ sched,
            Server.pc (Server.run sv st' sched) = Server.Finished
            ∧ Server.outbox (Server.run sv st' sched) = Server.outbox st
            ∧ Server.llm_calls (Server.run sv st' sched) = Server.llm_calls st)
  ∧ (∀ hits e', Server.search sv user_text Server.user_id 3 (Server.ext st)
                = (Server.Ok hits, e') →
     Server.get_context sv user_text (Server.ext st)
       = (Server.Ok (Server.join Server.nl (Server.memory <$> hits)), e')
     ∧ ∃ st', Server.endpoint_step sv st = Some st'
        ∧ Server.pc st'
          = Server.AtGenerate user_text
              (Server.system_prompt
                 (Server.join Server.nl (Server.memory <$> hits)))
        ∧ Server.outbox st' = Server.outbox st).
Proof.
  intros Hpc Hin Hsub. split.
  - intros x e' Hsearch.
    assert (Server.get_context sv user_text (Server.ext st) = (Server.Raise x, e'))
      as Hctx by (unfold Server.get_context; by rewrite Hsearch).
    split; [exact Hctx|].
    unfold Server.endpoint_step. rewrite Hpc, Hin, Hsub, Hctx.
    eexists. split; [done|]. split; [done|]. split; [done|].
    intros sched.
    match goal with
    | |- context [Server.run sv ?s sched] =>
      destruct (finished_absorbing sched s) as (? & ? & ?); [done|]
    end.
    done.
  - intros hits e' Hsearch.
    assert (Server.get_context sv user_text (Server.ext st)
            = (Server.Ok (Server.join Server.nl (Server.memory <$> hits)), e'))
      as Hctx by (unfold Server.get_context; by rewrite Hsearch).
    split; [exact Hctx|].
    unfold Server.endpoint_step. rewrite Hpc, Hin, Hsub, Hctx.
    eexists. by split.
Qed.

(** C7, as amended.  Every frame the front end sends has the request
    shape [{text}] (no [user_id]); every frame the backend delivers is
    [{audio, text, visemes}], the shape of [NemoResponse], with the
    answer under [text]: it carries no [final_text], [streamed_deltas]
    or [tool_trace]. *)
Theorem frames_have_the_declared_shapes
    (evs : list (App.Event * N))
    (e : Ext) (frames : list JSON) (sched : list Server.Choice) :
  Forall (λ j, Contract.request_shape j = true ∧ field "user_id" j = None)
         (NemoSocket.sent (App.socket (App.run App.initial evs)))
  ∧ Forall (λ j, Contract.nemo_response j = true
                 ∧ Contract.result_shape j = false
                 ∧ field "final_text" j = None
                 ∧ field "streamed_deltas" j = None
                 ∧ field "tool_trace" j = None)
           (Server.outbox (Server.run sv (Server.accepted e frames) sched)).
Proof.
  split.
  - eapply Forall_impl; [apply run_sent_requests; by constructor|].
    intros j [t ->]. split; [apply request_is_request_shaped|].
    unfold NemoSocket.request, field. by rewrite lookup_singleton_ne.
  - eapply Forall_impl; [apply run_outbox_replies; by constructor|].
    intros j (a & r & ->). destruct (reply_shape a r) as (? & ? & _).
    repeat split; try done; unfold Server.reply, field; by simplify_map_eq.
Qed.

End ServerFacts.

(** ** The backend on concrete services *)
Section ServerExamples.
Import Text Json.

(** The store is down and the client sends one frame. *)
Lemma memory_failure_ends_the_connection_witness :
  Server.get_context Server.memory_down (JStr (lit "hi")) ()
  = (Server.Raise (Server.ServiceError (lit "timeout")), ()).
Proof.
  destruct (memory_failure_ends_the_connection Server.memory_down
              (Server.accepted () [NemoSocket.request (lit "hi")])
              (NemoSocket.request (lit "hi")) [] (JStr (lit "hi"))
              eq_refl eq_refl eq_refl) as [Hfail _].
  destruct (Hfail (Server.ServiceError (lit "timeout")) () eq_refl) as [Hctx _].
  exact Hctx.
Defined.

(** C4, as stated, fails.  With the store down, retrieval raises (it
    does not return the empty string) and the frame is never answered,
    under any schedule; the same frame is answered when the store is up. *)
Lemma memory_down_no_answer :
  Server.get_context Server.memory_down (JStr (lit "hi")) ()
  = (Server.Raise (Server.ServiceError (lit "timeout")), ())
  ∧ (∀ sched,
       Server.outbox
         (Server.run Server.memory_down
            (Server.accepted () [NemoSocket.request (lit "hi")]) sched) = []
       ∧ Server.llm_calls
           (Server.run Server.memory_down
              (Server.accepted () [NemoSocket.request (lit "hi")]) sched) = [])
  ∧ length (Server.outbox
              (Server.run Server.stub
                 (Server.accepted () [NemoSocket.request (lit "hi")])
                 (replicate 4 Server.RunEndpoint))) = 1.
Proof.
  split; [reflexivity|]. split; [|reflexivity].
  assert (∀ sched st,
            st = Server.accepted () [NemoSocket.request (lit "hi")]
            ∨ (Server.pc st = Server.Finished ∧ Server.outbox st = []
               ∧ Server.llm_calls st = []) →
            Server.outbox (Server.run Server.memory_down st sched) = []
            ∧ Server.llm_calls (Server.run Server.memory_down st sched) = [])
    as Hall.
  { induction sched as [|c sched IH]; intros st Hst.
    - destruct Hst as [->|(_ & ? & ?)]; done.
    - simpl. fold (Server.run Server.memory_down
                     (Server.exec Server.memory_down st c) sched).
      apply IH. destruct Hst as [->|(Hpc & Ho & Hc)].
      + destruct c; [right|left]; done.
      + right. destruct c; simpl.
        * unfold Server.endpoint_step. by rewrite Hpc.
        * destruct (Server.task_step Server.memory_down st) as [st'|] eqn:Hstep;
            simpl; [|done].
          destruct (task_step_effect _ st st' Hstep) as (-> & _ & -> & -> & _).
          done. }
  intros sched. apply Hall. by left.
Qed.

(** C7, as stated, fails on the result side: the frame the backend
    delivers for a turn is not of the shape
    [{final_text, streamed_deltas?, tool_trace?}]. *)
Lemma reply_is_not_result_shaped :
  Contract.result_shape
    <$> Server.outbox
          (Server.run Server.stub
             (Server.accepted () [NemoSocket.request (lit "hi")])
             (replicate 4 Server.RunEndpoint))
  = [false]
  ∧ Contract.nemo_response
      <$> Server.outbox
            (Server.run Server.stub
               (Server.accepted () [NemoSocket.request (lit "hi")])
               (replicate 4 Server.RunEndpoint))
    = [true].
Proof. split; reflexivity. Qed.

End ServerExamples.

(** ** The session: what the user sees and what the LLM is sent *)
Section SessionFacts.
Import Text Json.

(** C1. The memory context never reaches the user-facing transcript.
    Over any session the user entries of the transcript are exactly the
    texts the user sent, in order, and every Nemo entry is the text of a
    delivered response; [handleSend] stores the text it was given and
    sends the frame [{text}]; and the backend, on that frame, calls the
    LLM with the text as the user message and the recalled memories in
    the system prompt, and answers with the LLM's response text as it
    is. *)
Theorem memory_context_never_in_transcript :
  (∀ (st : App.State) (evs : list (App.Event * N)),
     App.said App.user (App.messages (App.run st evs))
     = App.said App.user (App.messages st) ++ App.texts_sent evs)
  ∧ (∀ (st : App.State) (evs : list (App.Event * N)) (t : ustring),
     t ∈ App.said App.nemo (App.messages (App.run st evs)) →
     t ∈ App.said App.nemo (App.messages st)
     ∨ ∃ r now, (App.Browser (NemoSocket.WsMessage (Some r)), now) ∈ evs
                ∧ NemoSocket.text r = Some t)
  ∧ (∀ (st : App.State) (t : ustring) (now : N),
     App.messages (App.handleSend t now st)
     = App.messages st
       ++ [App.mkMessage (lit "user-" ++ lit (pretty now)) App.user t now]
     ∧ (NemoSocket.wsRef (App.socket st) = Some NemoSocket.OPEN →
        NemoSocket.sent (App.socket (App.handleSend t now st))
        = NemoSocket.sent (App.socket st) ++ [NemoSocket.request t]))
  ∧ (∀ (Ext : Type) (sv : Server.Services Ext) (st : Server.State Ext)
       (t : ustring) (rest : list JSON) (hits : list Server.MemoryHit)
       (r a : ustring) (e1 e2 e3 : Ext),
     Server.pc st = Server.AtReceive →
     Server.inbox st = NemoSocket.request t :: rest →
     Server.search sv (JStr t) Server.user_id 3 (Server.ext st)
     = (Server.Ok hits, e1) →
     Server.generate sv (JStr t)
       (Server.system_prompt (Server.join Server.nl (Server.memory <$> hits))) e1
     = (Server.Ok r, e2) →
     Server.synthesize sv r e2 = (Server.Ok a, e3) →
     Server.llm_calls (Server.run sv st (replicate 4 Server.RunEndpoint))
     = Server.llm_calls st
       ++ [(JStr t,
            Server.system_prompt (Server.join Server.nl (Server.memory <$> hits)))]
     ∧ Server.outbox (Server.run sv st (replicate 4 Server.RunEndpoint))
       = Server.outbox st ++ [Server.reply a r]
     ∧ NemoSocket.text (NemoSocket.decode (Server.reply a r)) = Some r).
Proof.
  split; [intros st evs; apply run_said_user|].
  split; [intros st evs t; apply run_said_nemo|].
  split.
  - intros st t now. split; [done|].
    intros Hopen. unfold App.handleSend, NemoSocket.sendMessage. simpl.
    by rewrite Hopen.
  - intros Ext sv st t rest hits r a e1 e2 e3 Hpc Hin Hsearch Hgen Hsyn.
    assert (Server.subscript (NemoSocket.request t) "text" = Server.Ok (JStr t))
      as Hsub.
    { unfold Server.subscript, NemoSocket.request. by rewrite lookup_singleton_eq. }
    destruct (turn_completes sv st _ rest _ hits r a e1 e2 e3
                Hpc Hin Hsub Hsearch Hgen Hsyn) as (Ho & Hc & _).
    split; [exact Hc|]. split; [exact Ho|].
    by destruct (reply_shape a r) as (_ & _ & ->).
Qed.

(** The deadline scenario: the memory is sent to the LLM, which echoes
    it, so the answer contains it; the user entry of the transcript is
    the question as typed. *)
Example deadline_scenario :
  App.said App.user (App.messages Scenario.answered) = [Scenario.question]
  ∧ Server.llm_calls Scenario.served
    = [(JStr Scenario.question, Server.system_prompt (lit "deadline is Friday"))]
  ∧ (Scenario.includes (lit "Friday") <$> App.said App.nemo (App.messages Scenario.answered))
    = [true]
  ∧ Scenario.includes (lit "Friday") Scenario.question = false.
Proof. repeat split; reflexivity. Qed.

End SessionFacts.

(** ** ContextWindow: the budget and the order of eviction *)
Section ContextWindowFacts.
Import Text Json.
Variable cost : Agent.Message → nat.
Variable budget : nat.

Local Abbreviation total_cost := (ContextWindow.total_cost cost).
Local Abbreviation evict := (ContextWindow.evict cost budget).
Local Abbreviation non_system := ContextWindow.non_system.
Local Abbreviation systems := ContextWindow.systems.
Local Abbreviation remove_oldest := ContextWindow.remove_oldest.

Lemma remove_oldest_non_system (h : list Agent.Message) :
  non_system (remove_oldest h) = drop 1 (non_system h).
Proof.
  unfold ContextWindow.non_system.
  induction h as [|m r IH]; simpl; [done|].
  case_decide as Hm.
  - rewrite !filter_cons. case_decide; [done|]. exact IH.
  - rewrite filter_cons. case_decide; [|done]. simpl. by rewrite drop_0.
Qed.

Lemma remove_oldest_systems (h : list Agent.Message) :
  systems (remove_oldest h) = systems h.
Proof.
  unfold ContextWindow.systems.
  induction h as [|m r IH]; simpl; [done|].
  case_decide as Hm.
  - rewrite !filter_cons. case_decide; [|done]. by rewrite IH.
  - rewrite filter_cons. by case_decide.
Qed.

Lemma remove_oldest_sublist (h : list Agent.Message) :
  remove_oldest h `sublist_of` h.
Proof.
  induction h as [|m r IH]; simpl; [done|].
  case_decide; [by apply sublist_skip | by apply sublist_cons].
Qed.

Lemma iter_remove_non_system (k : nat) (h : list Agent.Message) :
  non_system (Nat.iter k remove_oldest h) = drop k (non_system h).
Proof.
  induction k as [|k IH]; simpl; [by rewrite drop_0|].
  rewrite remove_oldest_non_system, IH, drop_drop. f_equal. lia.
Qed.

Lemma iter_remove_systems (k : nat) (h : list Agent.Message) :
  systems (Nat.iter k remove_oldest h) = systems h.
Proof.
  induction k as [|k IH]; simpl; [done|]. by rewrite remove_oldest_systems.
Qed.

Lemma iter_remove_sublist (k : nat) (h : list Agent.Message) :
  Nat.iter k remove_oldest h `sublist_of` h.
Proof.
  induction k as [|k IH]; simpl; [done|].
  etrans; [apply remove_oldest_sublist | exact IH].
Qed.

Lemma non_system_nil (h : list Agent.Message) :
  non_system h = [] → systems h = h.
Proof.
  unfold ContextWindow.non_system, ContextWindow.systems.
  induction h as [|m r IH]; [done|].
  destruct (decide (Agent.role m = Agent.system)) as [Hm|Hm].
  - rewrite filter_cons_False by (intros ?; done).
    rewrite filter_cons_True by done. intros Hr. by rewrite IH.
  - by rewrite filter_cons_True by done.
Qed.

Lemma non_system_one (h : list Agent.Message) (x : Agent.Message) :
  non_system h = [x] →
  Agent.role x ≠ Agent.system
  ∧ ∃ l1 l2, h = l1 ++ x :: l2 ∧ systems h = l1 ++ l2.
Proof.
  unfold ContextWindow.non_system, ContextWindow.systems.
  induction h as [|m r IH]; [done|].
  destruct (decide (Agent.role m = Agent.system)) as [Hm|Hm].
  - rewrite filter_cons_False by (intros ?; done).
    rewrite filter_cons_True by done. intros Hr.
    destruct (IH Hr) as (Hx & l1 & l2 & -> & Hs).
    split; [done|]. exists (m :: l1), l2. split; [done|]. simpl. by rewrite Hs.
  - rewrite filter_cons_True by done.
    rewrite filter_cons_False by done. intros [= -> Hr].
    split; [done|]. exists [], r. split; [done|]. simpl.
    by apply non_system_nil.
Qed.

Lemma systems_all (h : list Agent.Message) :
  Forall (λ m, Agent.role m = Agent.system) (systems h).
Proof.
  apply Forall_forall. intros y Hy. unfold ContextWindow.systems in Hy.
  by apply list_elem_of_filter in Hy as [? _].
Qed.

Lemma cost_le_total (h : list Agent.Message) (x : Agent.Message) :
  x ∈ h → cost x ≤ total_cost h.
Proof.
  unfold ContextWindow.total_cost.
  induction h as [|m r IH]; [by intros ?%elem_of_nil|].
  intros [->|Hin]%elem_of_cons; csimpl; [lia|]. specialize (IH Hin). lia.
Qed.

Lemma non_system_elem (h : list Agent.Message) (x : Agent.Message) :
  x ∈ non_system h → x ∈ h.
Proof.
  unfold ContextWindow.non_system. by intros [_ ?]%list_elem_of_filter.
Qed.

(** The eviction loop, run with enough fuel, removes the [k] oldest
    non-system messages for some [k], each removal made while the
    history was over budget and never of a last message that exceeds
    the budget by itself, and stops within budget or with nothing left
    to evict but such a message. *)
Lemma evict_spec (fuel : nat) (h : list Agent.Message) :
  length (non_system h) ≤ fuel →
  ∃ k, evict fuel h = Nat.iter k remove_oldest h
     ∧ (∀ j, j < k →
          budget < total_cost (Nat.iter j remove_oldest h)
          ∧ ∀ x, non_system (Nat.iter j remove_oldest h) = [x] →
                 cost x ≤ budget)
     ∧ (total_cost (evict fuel h) ≤ budget
        ∨ non_system (evict fuel h) = []
        ∨ ∃ x, non_system (evict fuel h) = [x] ∧ budget < cost x).
Proof.
  revert h. induction fuel as [|fuel IH]; intros h Hfuel.
  - exists 0. split; [done|]. split; [lia|].
    right. left. simpl. destruct (non_system h); [done|simpl in Hfuel; lia].
  - simpl.
    destruct (Nat.leb_spec (total_cost h) budget) as [Hle|Hgt].
    { exists 0. split; [done|]. split; [lia|]. by left. }
    assert (length (non_system (remove_oldest h)) ≤ fuel →
            (∀ x, non_system h = [x] → cost x ≤ budget) →
            ∃ k, evict fuel (remove_oldest h) = Nat.iter k remove_oldest h
               ∧ (∀ j, j < k →
                    budget < total_cost (Nat.iter j remove_oldest h)
                    ∧ ∀ x, non_system (Nat.iter j remove_oldest h) = [x] →
                           cost x ≤ budget)
               ∧ (total_cost (evict fuel (remove_oldest h)) ≤ budget
                  ∨ non_system (evict fuel (remove_oldest h)) = []
                  ∨ ∃ x, non_system (evict fuel (remove_oldest h)) = [x]
                         ∧ budget < cost x)) as Hrec.
    { intros Hlen Hfirst.
      destruct (IH (remove_oldest h) Hlen) as (k & Hk & Hover & Hstop).
      exists (S k). rewrite Nat.iter_succ_r. split; [exact Hk|].
      split; [|exact Hstop].
      intros [|j] Hj; [split; [exact Hgt|exact Hfirst]|].
      rewrite Nat.iter_succ_r. apply Hover. lia. }
    rewrite remove_oldest_non_system in Hrec.
    destruct (non_system h) as [|x [|y l]] eqn:Hns.
    + exists 0. split; [done|]. split; [lia|]. right. by left.
    + destruct (Nat.ltb_spec budget (cost x)) as [Hx|Hx].
      * exists 0. split; [done|]. split; [lia|]. right. right.
        exists x. by rewrite Hns.
      * apply Hrec; [simpl; lia|]. by intros ? [= <-].
    + apply Hrec; [simpl in *; lia|]. intros ? [=].
Qed.

(** C3, as amended.  After an append the cost of the history is
    within the budget, with two exceptions: the only non-system message
    left is one that exceeds the budget by itself, which is retained
    next to the system messages, not alone; or no non-system message is
    left and the system messages exceed the budget.  In a history with
    at most one system message, the standing instruction, an exception
    is a message over budget by itself with at most that instruction
    beside it.  An appended non-system message that exceeds the budget
    by itself is always retained, as the only non-system message.
    Eviction removes the oldest non-system messages, from the head and
    in insertion order, only while the history is over budget; it keeps
    the order of the remaining messages and every system message; the
    warning is signalled exactly when the history stays over budget. *)
Theorem append_keeps_budget_and_order
    (m : Agent.Message) (w : ContextWindow.Window) :
  (total_cost (ContextWindow.history (ContextWindow.append cost budget m w).1)
     ≤ budget
   ∨ (∃ x, non_system (ContextWindow.history (ContextWindow.append cost budget m w).1)
           = [x] ∧ budget < cost x)
   ∨ (non_system (ContextWindow.history (ContextWindow.append cost budget m w).1) = []
      ∧ budget
        < total_cost (ContextWindow.history (ContextWindow.append cost budget m w).1)))
  ∧ (length (systems (ContextWindow.history w ++ [m])) ≤ 1 →
     total_cost (ContextWindow.history (ContextWindow.append cost budget m w).1)
       ≤ budget
     ∨ ∃ l1 x l2,
         ContextWindow.history (ContextWindow.append cost budget m w).1
         = l1 ++ x :: l2
         ∧ budget < cost x
         ∧ Forall (λ y, Agent.role y = Agent.system) (l1 ++ l2)
         ∧ length (l1 ++ l2) ≤ 1)
  ∧ (∃ k,
       ContextWindow.history (ContextWindow.append cost budget m w).1
       = Nat.iter k remove_oldest (ContextWindow.history w ++ [m])
       ∧ non_system (ContextWindow.history (ContextWindow.append cost budget m w).1)
         = drop k (non_system (ContextWindow.history w ++ [m]))
       ∧ ∀ j, j < k →
           budget
           < total_cost (Nat.iter j remove_oldest (ContextWindow.history w ++ [m])))
  ∧ systems (ContextWindow.history (ContextWindow.append cost budget m w).1)
    = systems (ContextWindow.history w ++ [m])
  ∧ ContextWindow.history (ContextWindow.append cost budget m w).1
    `sublist_of` (ContextWindow.history w ++ [m])
  ∧ ((ContextWindow.append cost budget m w).2 = true
     ↔ budget
       < total_cost (ContextWindow.history (ContextWindow.append cost budget m w).1))
  ∧ (budget < cost m → Agent.role m ≠ Agent.system →
     non_system (ContextWindow.history (ContextWindow.append cost budget m w).1)
     = [m]).
Proof.
  unfold ContextWindow.append. cbn [fst snd ContextWindow.history].
  set (h0 := ContextWindow.history w ++ [m]).
  destruct (evict_spec (length h0) h0) as (k & Hk & Hover & Hstop).
  { unfold ContextWindow.non_system. apply length_filter. }
  set (r := evict (length h0) h0) in *.
  assert (total_cost r ≤ budget
          ∨ (∃ x, non_system r = [x] ∧ budget < cost x)
          ∨ (non_system r = [] ∧ budget < total_cost r)) as Hcases.
  { destruct (Nat.le_gt_cases (total_cost r) budget) as [?|Hgt]; [by left|].
    destruct Hstop as [?|[Hnil|Hone]]; [lia| |]; right; [right|left]; done. }
  assert (systems r = systems h0) as Hsys
    by (rewrite Hk; apply iter_remove_systems).
  split; [exact Hcases|]. split.
  { intros Hone.
    destruct Hcases as [?|[(x & Hx & Hcx)|(Hnil & Hgt)]]; [by left| |]; right.
    - destruct (non_system_one r x Hx) as (_ & l1 & l2 & Hr & Hs).
      exists l1, x, l2. split; [exact Hr|]. split; [exact Hcx|].
      rewrite <- Hs. split; [apply systems_all|]. by rewrite Hsys.
    - pose proof (non_system_nil r Hnil) as Hs.
      assert (length r ≤ 1) as Hlen by (rewrite <- Hs, Hsys; exact Hone).
      destruct r as [|x [|y r']] eqn:Hr; simpl in Hlen; [|clear Hlen|lia].
      + unfold ContextWindow.total_cost in Hgt. simpl in Hgt. lia.
      + exists [], x, []. repeat split; simpl; try done; try lia.
        unfold ContextWindow.total_cost in Hgt. simpl in Hgt. lia. }
  split.
  { exists k. split; [exact Hk|]. split; [|intros j Hj; by apply Hover].
    rewrite Hk. apply iter_remove_non_system. }
  split; [exact Hsys|]. split.
  { rewrite Hk. apply iter_remove_sublist. }
  split.
  { destruct (Nat.leb_spec (total_cost r) budget); simpl; split; try done; lia. }
  intros Hbig Hrole.
  assert (non_system h0 = non_system (ContextWindow.history w) ++ [m]) as Hns0.
  { unfold h0, ContextWindow.non_system.
    by rewrite filter_app, filter_cons_True, filter_nil by done. }
  assert (non_system r = drop k (non_system h0)) as Hdrop
    by (rewrite Hk; apply iter_remove_non_system).
  set (n := length (non_system (ContextWindow.history w))) in *.
  assert (k ≤ n) as Hkn.
  { destruct (Nat.le_gt_cases k n) as [?|Hlt]; [done|]. exfalso.
    destruct (Hover n Hlt) as [_ Hsingle].
    specialize (Hsingle m). rewrite iter_remove_non_system, Hns0 in Hsingle.
    unfold n in Hsingle.
    rewrite drop_app_length in Hsingle. specialize (Hsingle eq_refl). lia. }
  assert (m ∈ non_system r) as Hin.
  { rewrite Hdrop, Hns0, drop_app_le by done.
    apply elem_of_app. right. apply elem_of_cons. by left. }
  destruct Hcases as [Hle|[(x & Hx & _)|(Hnil & _)]].
  - pose proof (cost_le_total r m (non_system_elem r m Hin)). lia.
  - rewrite Hx in Hin. apply list_elem_of_singleton in Hin as ->. exact Hx.
  - rewrite Hnil in Hin. by apply elem_of_nil in Hin.
Qed.

End ContextWindowFacts.

(** The window on small histories, with the length of the content as
    cost and a budget of 4: the oldest message goes first; the system
    instruction stays; a message that exceeds the budget by itself is
    retained with a warning; a message that fits the budget but not next
    to the system instruction is evicted. *)
Example window_examples :
  let append := ContextWindow.append ContextWindow.by_length 4 in
  let sys := ContextWindow.msg Agent.system "sys" in
  let a := ContextWindow.msg Agent.user "aa" in
  let b := ContextWindow.msg Agent.assistant "bb" in
  let c := ContextWindow.msg Agent.user "cc" in
  let big := ContextWindow.msg Agent.user "12345" in
  let one := ContextWindow.msg Agent.user "1" in
  append c (ContextWindow.mkWindow None [a; b])
    = (ContextWindow.mkWindow None [b; c], false)
  ∧ append big (ContextWindow.mkWindow None [a; b])
    = (ContextWindow.mkWindow None [big], true)
  ∧ append one (ContextWindow.mkWindow (Some sys) [sys; a])
    = (ContextWindow.mkWindow (Some sys) [sys; one], false)
  ∧ append big (ContextWindow.mkWindow (Some sys) [sys])
    = (ContextWindow.mkWindow (Some sys) [sys; big], true)
  ∧ append a (ContextWindow.mkWindow (Some sys) [sys])
    = (ContextWindow.mkWindow (Some sys) [sys], false).
Proof. repeat split; reflexivity. Qed.

(** C3, as stated, fails, with the length of the content as cost and
    a budget of 4.  A message over budget by itself is retained, but
    next to the system instruction and not alone.  Two system messages
    are both kept, at a cost of 6, although neither exceeds the budget
    by itself. *)
Lemma over_budget_without_a_message_alone :
  ContextWindow.history
    (ContextWindow.append ContextWindow.by_length 4
       (ContextWindow.msg Agent.user "12345")
       (ContextWindow.mkWindow (Some (ContextWindow.msg Agent.system "sys"))
          [ContextWindow.msg Agent.system "sys"])).1
  = [ContextWindow.msg Agent.system "sys"; ContextWindow.msg Agent.user "12345"]
  ∧ ContextWindow.history
      (ContextWindow.append ContextWindow.by_length 4
         (ContextWindow.msg Agent.system "two")
         (ContextWindow.mkWindow (Some (ContextWindow.msg Agent.system "sys"))
            [ContextWindow.msg Agent.system "sys"])).1
    = [ContextWindow.msg Agent.system "sys"; ContextWindow.msg Agent.system "two"]
  ∧ ContextWindow.total_cost ContextWindow.by_length
      [ContextWindow.msg Agent.system "sys"; ContextWindow.msg Agent.system "two"]
    = 6
  ∧ ¬ (∀ m w,
         ContextWindow.total_cost ContextWindow.by_length
           (ContextWindow.history
              (ContextWindow.append ContextWindow.by_length 4 m w).1) ≤ 4
         ∨ ∃ x, ContextWindow.history
                  (ContextWindow.append ContextWindow.by_length 4 m w).1 = [x]
                ∧ 4 < ContextWindow.by_length x).
Proof.
  split; [reflexivity|]. split; [reflexivity|]. split; [reflexivity|].
  intros Hall.
  destruct (Hall (ContextWindow.msg Agent.system "two")
              (ContextWindow.mkWindow (Some (ContextWindow.msg Agent.system "sys"))
                 [ContextWindow.msg Agent.system "sys"]))
    as [Hle|(x & Hx & _)].
  - vm_compute in Hle. lia.
  - vm_compute in Hx. discriminate Hx.
Qed.

(** ** ToolRegistry: execution never escapes *)
Section ToolRegistryFacts.
Import Text Json.
Context {W : Type}.
Variable coercible : JSON → string → bool.

Lemma param_ok_valid (args : gmap string JSON) (p : ToolRegistry.ToolParameter) :
  ToolRegistry.param_ok coercible args p = true
  ↔ (ToolRegistry.required p = true
       → is_Some (args !! ToolRegistry.param_name p))
    ∧ (∀ v, args !! ToolRegistry.param_name p = Some v
            → coercible v (ToolRegistry.param_type p) = true).
Proof.
  unfold ToolRegistry.param_ok.
  destruct (args !! ToolRegistry.param_name p) as [v|] eqn:Hv.
  - split.
    + intros Hc. split; [by eexists|]. by intros ? [= <-].
    + intros [_ Hc]. by apply Hc.
  - split.
    + intros Hr%negb_true_iff. split; [by rewrite Hr|done].
    + intros [Hreq _]. destruct (ToolRegistry.required p); [|done].
      by destruct (Hreq eq_refl).
Qed.

Lemma validate_valid (ps : list ToolRegistry.ToolParameter) (args : gmap string JSON) :
  ToolRegistry.validate coercible ps args = true
  ↔ ToolRegistry.valid coercible ps args.
Proof.
  unfold ToolRegistry.validate, ToolRegistry.valid.
  induction ps as [|p ps IH]; simpl.
  - split; [intros _ p' ?%elem_of_nil; done|done].
  - rewrite andb_true_iff, IH, param_ok_valid. split.
    + intros [Hp Hps] p' [->|Hin]%elem_of_cons; [exact Hp|by apply Hps].
    + intros Hall. split.
      * apply Hall. apply elem_of_cons. by left.
      * intros p' Hin. apply Hall. apply elem_of_cons. by right.
Qed.

(** C6. [execute] always returns a ToolResult for the invocation, with
    exactly one of [output] and [error] set: an [UnknownTool] error when
    the name is not registered, an [InvalidArguments] error when the
    arguments do not validate against the declared parameters (in both
    cases the executor is not invoked and the world is untouched), and
    otherwise the executor's outcome, its output or its failure as a
    [ToolExecutionError] error. *)
Theorem execute_wraps_every_outcome
    (reg : gmap string (ToolRegistry.Tool W)) (id n : string)
    (args : gmap string JSON) (w : W) :
  ToolRegistry.tool_call_id (ToolRegistry.execute coercible reg id n args w).1 = id
  ∧ (is_Some (ToolRegistry.output (ToolRegistry.execute coercible reg id n args w).1)
     ↔ ToolRegistry.error (ToolRegistry.execute coercible reg id n args w).1 = None)
  ∧ (reg !! n = None →
     ToolRegistry.execute coercible reg id n args w
     = (ToolRegistry.mkResult id None (Some (ToolRegistry.UnknownTool, lit n)), w))
  ∧ (∀ t, reg !! n = Some t →
     ¬ ToolRegistry.valid coercible (ToolRegistry.parameters t) args →
     ToolRegistry.execute coercible reg id n args w
     = (ToolRegistry.mkResult id None
          (Some (ToolRegistry.InvalidArguments, lit n)), w))
  ∧ (∀ t, reg !! n = Some t →
     ToolRegistry.valid coercible (ToolRegistry.parameters t) args →
     ToolRegistry.execute coercible reg id n args w
     = match ToolRegistry.executor t args w with
       | (ToolRegistry.Output payload, w') =>
         (ToolRegistry.mkResult id (Some payload) None, w')
       | (ToolRegistry.Fails message, w') =>
         (ToolRegistry.mkResult id None
            (Some (ToolRegistry.ToolExecutionError, message)), w')
       end).
Proof.
  unfold ToolRegistry.execute.
  destruct (reg !! n) as [t|] eqn:Hreg.
  - pose proof (validate_valid (ToolRegistry.parameters t) args) as Hv.
    destruct (ToolRegistry.validate coercible (ToolRegistry.parameters t) args)
      eqn:Hval.
    + assert (ToolRegistry.valid coercible (ToolRegistry.parameters t) args)
        as Hok by (by apply Hv).
      destruct (ToolRegistry.executor t args w) as [[payload|message] w'] eqn:Hex;
        simpl.
      * split; [done|]. split; [split; [done|by eexists]|].
        split; [done|]. split.
        -- intros t' [= <-] Hbad. by destruct Hbad.
        -- intros t' [= <-] _. by rewrite Hex.
      * split; [done|]. split; [split; [by intros [? ?]|done]|].
        split; [done|]. split.
        -- intros t' [= <-] Hbad. by destruct Hbad.
        -- intros t' [= <-] _. by rewrite Hex.
    + assert (¬ ToolRegistry.valid coercible (ToolRegistry.parameters t) args)
        as Hbad by (intros Hok; apply Hv in Hok; done).
      simpl. split; [done|]. split; [split; [by intros [? ?]|done]|].
      split; [done|]. split.
      * by intros t' [= <-] _.
      * intros t' [= <-] Hok. by destruct Hbad.
  - simpl. split; [done|]. split; [split; [by intros [? ?]|done]|].
    split; [done|]. split; intros t' [=].
Qed.

End ToolRegistryFacts.

(** ** AgentLoop: the round limit *)
Section AgentLoopFacts.
Import Text Json.
Context {W : Type}.
Variable cost : Agent.Message → nat.
Variable budget : nat.
Variable coercible : JSON → string → bool.
Variable registry : gmap string (ToolRegistry.Tool W).
Variable max_rounds : nat.
Variable max_retries : nat.
Variable chat : nat → list Agent.Message → W → AgentLoop.Reply * W.
Variable retrieve_context : ustring → W → ustring * W.
Variable route : ustring → AgentLoop.State W → option (ustring * AgentLoop.State W).
Variable render : ToolRegistry.ToolResult → ustring.
Variable limit_hit : ustring.

Local Abbreviation call_llm := (AgentLoop.call_llm chat).
Local Abbreviation rounds :=
  (AgentLoop.rounds cost budget coercible registry max_rounds max_retries chat
     render limit_hit).
Local Abbreviation tool_round :=
  (AgentLoop.tool_round cost budget coercible registry render).
Local Abbreviation handle_turn :=
  (AgentLoop.handle_turn cost budget coercible registry max_rounds max_retries
     chat retrieve_context route render limit_hit).

Lemma tool_round_counts (calls : list Agent.ToolInvocation) (st : AgentLoop.State W) :
  AgentLoop.round_count (tool_round calls st) = AgentLoop.round_count st
  ∧ AgentLoop.llm_calls (tool_round calls st) = AgentLoop.llm_calls st.
Proof.
  revert st. induction calls as [|c calls IH]; intros st; simpl; [done|].
  destruct (ToolRegistry.execute _ _ _ _ _ _) as [r w'].
  destruct (IH (AgentLoop.push cost budget
                  (Agent.mkMessage Agent.tool (render r) []
                     (Some (ToolRegistry.tool_call_id r)) 0)
                  (AgentLoop.mkState (AgentLoop.window st)
                     (AgentLoop.round_count st) (AgentLoop.llm_calls st)
                     (AgentLoop.persist_queue st) w'))) as [-> ->].
  done.
Qed.

(** One call with its retries makes between one and [retries + 1]
    round-trips. *)
Lemma call_llm_counts (retries : nat) (h : list Agent.Message) (k : nat) (w : W) :
  k < (call_llm retries h k w).1.2 ∧ (call_llm retries h k w).1.2 ≤ k + S retries.
Proof.
  revert k w. induction retries as [|retries IH]; intros k w; simpl.
  - destruct (chat k h w) as [[m|[] message] w']; simpl; lia.
  - destruct (chat k h w) as [[m|[] message] w']; simpl; try lia.
    destruct (IH (S k) w'). lia.
Qed.

(** A call is not retried when the provider never fails transiently. *)
Lemma call_llm_once (retries : nat) (h : list Agent.Message) (k : nat) (w : W) :
  (∀ k h w message,
     (chat k h w).1 ≠ AgentLoop.ProviderError AgentLoop.Transient message) →
  (call_llm retries h k w).1.2 = S k.
Proof.
  intros Hnever. specialize (Hnever k h w).
  destruct retries; simpl;
    destruct (chat k h w) as [[m|[] message] w']; simpl in *; try done;
    by destruct (Hnever message).
Qed.

(** A call that is answered is not retried. *)
Lemma call_llm_answer (retries : nat) (h : list Agent.Message) (k : nat) (w w' : W)
    (m : Agent.Message) :
  chat k h w = (AgentLoop.Answer m, w') →
  call_llm retries h k w = (AgentLoop.Answer m, S k, w').
Proof. intros H. destruct retries; simpl; by rewrite H. Qed.

Local Arguments AgentLoop.tool_round : simpl never.
Local Arguments AgentLoop.push : simpl never.
Local Arguments AgentLoop.call_llm : simpl never.

Lemma rounds_terminate (attempts fuel : nat) (original : ustring)
    (st : AgentLoop.State W) :
  (∀ h k w, (call_llm max_retries h k w).1.2 ≤ k + attempts) →
  AgentLoop.round_count st ≤ max_rounds →
  S max_rounds - AgentLoop.round_count st ≤ fuel →
  ∃ r, rounds fuel original st = Some r
       ∧ AgentLoop.bounded_from max_rounds limit_hit attempts st original r.
Proof.
  intros Hatt.
  revert st. induction fuel as [|fuel IH]; intros st Hrc Hfuel; [lia|].
  simpl.
  pose proof (call_llm_counts max_retries
                (ContextWindow.snapshot (AgentLoop.window st))
                (AgentLoop.llm_calls st) (AgentLoop.world st)) as [Hlo _].
  pose proof (Hatt (ContextWindow.snapshot (AgentLoop.window st))
                (AgentLoop.llm_calls st) (AgentLoop.world st)) as Hhi.
  destruct (call_llm _ _ _ _) as [[reply calls] w']. simpl in Hlo, Hhi.
  assert (S max_rounds - AgentLoop.round_count st
          = S (max_rounds - AgentLoop.round_count st)) as Hleft by lia.
  destruct reply as [m|kind message].
  2:{ eexists. split; [done|]. unfold AgentLoop.bounded_from. simpl.
      rewrite Hleft. repeat split; try done; try lia; try nia. }
  destruct (Agent.tool_calls m) as [|c cs] eqn:Hcalls.
  { eexists. split; [done|].
    unfold AgentLoop.bounded_from, AgentLoop.finalize. simpl.
    rewrite Hleft. repeat split; try done; try lia; try nia. }
  match goal with
  | |- context [AgentLoop.tool_round ?a ?b ?c ?d ?e ?cs ?s] =>
    destruct (tool_round_counts cs s) as [Hr2 Hl2];
    set (st2 := AgentLoop.tool_round a b c d e cs s) in *
  end.
  simpl in Hr2, Hl2. cbn [AgentLoop.round_count]. rewrite Hr2.
  destruct (Nat.ltb_spec max_rounds (S (AgentLoop.round_count st))) as [Hex|Hok].
  - eexists. split; [done|]. unfold AgentLoop.bounded_from. simpl.
    rewrite Hl2, Hleft. repeat split; try done; try lia; try nia.
  - destruct (IH (AgentLoop.mkState (AgentLoop.window st2)
                    (S (AgentLoop.round_count st)) (AgentLoop.llm_calls st2)
                    (AgentLoop.persist_queue st2) (AgentLoop.world st2)))
      as (r & Hr & Hb); simpl; [lia|lia|].
    exists r. split; [exact Hr|].
    unfold AgentLoop.bounded_from in *. simpl in Hb. rewrite Hl2 in Hb.
    destruct Hb as (Hb1 & Hb2 & Hb3 & Hb4 & Hb5 & Hb6 & Hb7).
    assert (max_rounds - AgentLoop.round_count st
            = S max_rounds - S (AgentLoop.round_count st)) as Hrest by lia.
    rewrite Hleft, Hrest.
    split; [nia|]. split; [lia|]. done.
Qed.

(** More fuel does not change the result. *)
Lemma rounds_fuel_mono (fuel fuel' : nat) (original : ustring)
    (st : AgentLoop.State W) (r : AgentLoop.TurnResult W) :
  rounds fuel original st = Some r → fuel ≤ fuel' →
  rounds fuel' original st = Some r.
Proof.
  revert fuel' st. induction fuel as [|fuel IH]; intros fuel' st Hr Hle; [done|].
  destruct fuel' as [|fuel']; [lia|]. simpl in *.
  destruct (call_llm _ _ _ _) as [[[m|kind message] calls] w']; [|done].
  destruct (Agent.tool_calls m) as [|c cs]; [done|].
  destruct (_ <? _); [done|]. apply IH; [done|lia].
Qed.

(** A model that asks for a tool in every reply is cut off: the loop
    ends on [ToolLoopExceeded] after exactly the rounds left plus one
    calls. *)
Lemma rounds_always_tools (fuel : nat) (original : ustring)
    (st : AgentLoop.State W) (r : AgentLoop.TurnResult W) :
  (∀ k h w, ∃ m w', chat k h w = (AgentLoop.Answer m, w')
                    ∧ Agent.tool_calls m ≠ []) →
  AgentLoop.round_count st ≤ max_rounds →
  rounds fuel original st = Some r →
  AgentLoop.ending r = AgentLoop.ToolLoopExceeded
  ∧ AgentLoop.llm_calls (AgentLoop.after r)
    = AgentLoop.llm_calls st + (S max_rounds - AgentLoop.round_count st).
Proof.
  intros Htools. revert st.
  induction fuel as [|fuel IH]; intros st Hrc Hr; [done|].
  simpl in Hr.
  destruct (Htools (AgentLoop.llm_calls st)
              (ContextWindow.snapshot (AgentLoop.window st)) (AgentLoop.world st))
    as (m & w' & Hchat & Hm).
  rewrite (call_llm_answer max_retries _ _ _ _ _ Hchat) in Hr.
  destruct (Agent.tool_calls m) as [|c cs] eqn:Hcalls; [done|].
  match type of Hr with
  | context [AgentLoop.tool_round ?a ?b ?c ?d ?e ?cs ?s] =>
    destruct (tool_round_counts cs s) as [Hr2 Hl2];
    set (st2 := AgentLoop.tool_round a b c d e cs s) in *
  end.
  simpl in Hr2, Hl2. cbn [AgentLoop.round_count] in Hr. rewrite Hr2 in Hr.
  destruct (Nat.ltb_spec max_rounds (S (AgentLoop.round_count st))) as [Hex|Hok].
  - injection Hr as <-. simpl. rewrite Hl2. split; [done|lia].
  - apply IH in Hr as [He Hl]; simpl; [|lia].
    split; [exact He|]. simpl in Hl. rewrite Hl, Hl2. lia.
Qed.

(** C2, as amended.  Every user turn ends, and the configured maximum
    bounds its LLM round-trips, at one more than the maximum for each
    attempt a call may take.  With fuel for [max_rounds + 1] rounds (or
    more) the turn returns a result.  For a turn that is not a command,
    between one and [(max_rounds + 1) * (max_retries + 1)] round-trips
    are made to the LLM, a transient provider failure being retried at
    most [max_retries] times, and at most [max_rounds + 1] when the
    provider never fails transiently; [round_count] never exceeds
    [max_rounds + 1], and it exceeds the maximum exactly when the turn
    ends on [ToolLoopExceeded], and the final answer is then the
    degraded one; a model that requests a tool in every reply is cut
    off in this way, after exactly [max_rounds + 1] round-trips. *)
Theorem turn_ends_within_round_limit (raw : ustring) (st : AgentLoop.State W) :
  ∃ r, handle_turn (S max_rounds) raw st = Some r
     ∧ (∀ fuel, S max_rounds ≤ fuel → handle_turn fuel raw st = Some r)
     ∧ (route raw st = None →
        1 ≤ AgentLoop.llm_calls (AgentLoop.after r)
          ≤ S max_rounds * S max_retries
        ∧ AgentLoop.round_count (AgentLoop.after r) ≤ S max_rounds
        ∧ (max_rounds < AgentLoop.round_count (AgentLoop.after r)
           ↔ AgentLoop.ending r = AgentLoop.ToolLoopExceeded)
        ∧ (AgentLoop.ending r = AgentLoop.ToolLoopExceeded →
           AgentLoop.final_text r = limit_hit)
        ∧ AgentLoop.transcript_text r = raw
        ∧ ((∀ k h w message,
              (chat k h w).1 ≠ AgentLoop.ProviderError AgentLoop.Transient message) →
           AgentLoop.llm_calls (AgentLoop.after r) ≤ S max_rounds)
        ∧ ((∀ k h w, ∃ m w', chat k h w = (AgentLoop.Answer m, w')
                             ∧ Agent.tool_calls m ≠ []) →
           AgentLoop.ending r = AgentLoop.ToolLoopExceeded
           ∧ AgentLoop.llm_calls (AgentLoop.after r) = S max_rounds)).
Proof.
  unfold AgentLoop.handle_turn.
  destruct (route raw st) as [[answer st']|] eqn:Hroute.
  { eexists. split; [done|]. split; [done|]. done. }
  destruct (retrieve_context raw (AgentLoop.world st)) as [block w'].
  match goal with
  | |- context [AgentLoop.rounds _ _ _ _ _ _ _ _ _ _ _ ?s] => set (st1 := s)
  end.
  destruct (rounds_terminate (S max_retries) (S max_rounds) raw st1)
    as (r & Hr & Hb); [intros h k w; apply call_llm_counts|simpl; lia|simpl; lia|].
  exists r. split; [exact Hr|].
  split; [intros fuel Hfuel; by eapply rounds_fuel_mono|].
  intros _. unfold AgentLoop.bounded_from in Hb.
  destruct Hb as (Hb1 & Hb2 & Hb3 & Hb4 & Hb5 & Hb6 & Hb7).
  change (AgentLoop.llm_calls st1) with 0 in Hb1, Hb2.
  change (AgentLoop.round_count st1) with 0 in Hb1.
  rewrite Nat.sub_0_r in Hb1.
  split; [split; [lia|exact Hb1]|]. split; [exact Hb3|]. split; [exact Hb4|].
  split; [exact Hb5|]. split; [exact Hb7|]. split.
  { intros Hnever.
    destruct (rounds_terminate 1 (S max_rounds) raw st1) as (r' & Hr' & Hb');
      [|simpl; lia|simpl; lia|].
    { intros h k w. rewrite (call_llm_once _ _ _ _ Hnever). lia. }
    rewrite Hr in Hr'. injection Hr' as <-.
    destruct Hb' as (Hb1' & _).
    change (AgentLoop.llm_calls st1) with 0 in Hb1'.
    change (AgentLoop.round_count st1) with 0 in Hb1'. lia. }
  intros Htools.
  destruct (rounds_always_tools (S max_rounds) raw st1 r Htools) as [He Hl];
    [simpl; lia|exact Hr|].
  split; [exact He|]. rewrite Hl. simpl. lia.
Qed.

End AgentLoopFacts.

(** C2, as stated, fails: the round-trips to the LLM are not bounded by
    the configured maximum.  With a maximum of 1 a turn with one tool
    round makes 2 round-trips and ends normally; with a maximum of 3 a
    model that always asks for a tool is cut off after 4; and a
    provider that is rate-limited at every other call takes 8, the
    retries being round-trips too. *)
Lemma round_trips_exceed_configured_maximum :
  ((λ r, (AgentLoop.ending r, AgentLoop.llm_calls (AgentLoop.after r)))
     <$> AgentLoop.stub_turn 1 AgentLoop.once_then_text)
  = Some (AgentLoop.Final, 2)
  ∧ ((λ r, (AgentLoop.ending r, AgentLoop.llm_calls (AgentLoop.after r)))
       <$> AgentLoop.stub_turn 3 AgentLoop.always_tool)
    = Some (AgentLoop.ToolLoopExceeded, 4)
  ∧ ((λ r, (AgentLoop.ending r, AgentLoop.llm_calls (AgentLoop.after r)))
       <$> AgentLoop.stub_turn 3 AgentLoop.rate_limited)
    = Some (AgentLoop.ToolLoopExceeded, 8)
  ∧ ¬ (∀ max_rounds chat r,
         AgentLoop.stub_turn max_rounds chat = Some r →
         AgentLoop.llm_calls (AgentLoop.after r) ≤ max_rounds).
Proof.
  split; [reflexivity|]. split; [reflexivity|]. split; [reflexivity|].
  intros Hall.
  destruct (AgentLoop.stub_turn 1 AgentLoop.once_then_text) as [r|] eqn:Hr;
    [|discriminate Hr].
  specialize (Hall 1 AgentLoop.once_then_text r Hr).
  vm_compute in Hr. injection Hr as <-. vm_compute in Hall. lia.
Qed.

(** The scenarios of the spec.  A call to an unregistered tool is
    answered with an [UnknownTool] error message in the history, the
    model then answers in plain text, and the turn ends with
    [round_count] 1.  A model that always asks for a tool is cut off
    after [max_rounds + 1] calls.  A provider that stays down is tried
    three times, and the turn fails. *)
Example unknown_tool_scenario :
  (AgentLoop.ending <$> AgentLoop.stub_turn 3 AgentLoop.once_then_text)
  = Some AgentLoop.Final
  ∧ (AgentLoop.final_text <$> AgentLoop.stub_turn 3 AgentLoop.once_then_text)
    = Some (Text.lit "done")
  ∧ ((λ r, AgentLoop.round_count (AgentLoop.after r))
       <$> AgentLoop.stub_turn 3 AgentLoop.once_then_text) = Some 1
  ∧ ((λ r, (λ m, (Agent.role m, Agent.content m))
             <$> ContextWindow.history (AgentLoop.window (AgentLoop.after r)))
       <$> AgentLoop.stub_turn 3 AgentLoop.once_then_text)
    = Some [(Agent.user, Text.lit "hi"); (Agent.assistant, []);
            (Agent.tool, Text.lit "error: nope"); (Agent.assistant, Text.lit "done")]
  ∧ (AgentLoop.ending <$> AgentLoop.stub_turn 3 AgentLoop.always_tool)
    = Some AgentLoop.ToolLoopExceeded
  ∧ ((λ r, AgentLoop.llm_calls (AgentLoop.after r))
       <$> AgentLoop.stub_turn 3 AgentLoop.always_tool) = Some 4
  ∧ ((λ r, (AgentLoop.ending r, AgentLoop.llm_calls (AgentLoop.after r)))
       <$> AgentLoop.stub_turn 3 AgentLoop.down)
    = Some (AgentLoop.LLMProviderError, 3).
Proof. repeat split; reflexivity. Qed.

(** ** The socket hook and the App over whole sessions *)
Section SessionInvariants.
Import Text Json.

Lemma socket_run_snoc (st : NemoSocket.State) (evs : list NemoSocket.Event)
    (e : NemoSocket.Event) :
  NemoSocket.run st (evs ++ [e]) = NemoSocket.handle (NemoSocket.run st evs) e.
Proof. unfold NemoSocket.run. by rewrite fold_left_app. Qed.

Lemma app_run_snoc (st : App.State) (evs : list (App.Event * N)) (ev : App.Event * N) :
  App.run st (evs ++ [ev]) = App.step (App.run st evs) ev.
Proof. unfold App.run. by rewrite fold_left_app. Qed.

(** What one event does to the attempt counter and the timers. *)
Lemma handle_counter (st : NemoSocket.State) (e : NemoSocket.Event) :
  NemoSocket.reconnectAttemptsRef st ≤ NemoSocket.MAX_RECONNECT_ATTEMPTS →
  ∃ k, k ≤ 1
     ∧ NemoSocket.scheduled (NemoSocket.handle st e)
       = NemoSocket.scheduled st ++ replicate k NemoSocket.RECONNECT_DELAY
     ∧ NemoSocket.reconnectAttemptsRef (NemoSocket.handle st e)
       ≤ NemoSocket.MAX_RECONNECT_ATTEMPTS
     ∧ (k = 1 → NemoSocket.is_close e = true)
     ∧ k + (NemoSocket.MAX_RECONNECT_ATTEMPTS
            - NemoSocket.reconnectAttemptsRef (NemoSocket.handle st e))
       ≤ (NemoSocket.MAX_RECONNECT_ATTEMPTS - NemoSocket.reconnectAttemptsRef st)
         + (if NemoSocket.is_open e then NemoSocket.MAX_RECONNECT_ATTEMPTS else 0).
Proof.
  intros Hle. unfold NemoSocket.MAX_RECONNECT_ATTEMPTS in *.
  destruct e as [| | |data|created]; simpl.
  - exists 0. rewrite app_nil_r. repeat split; try done; lia.
  - unfold NemoSocket.onclose, NemoSocket.MAX_RECONNECT_ATTEMPTS.
    destruct (Nat.ltb_spec (NemoSocket.reconnectAttemptsRef st) 5); simpl.
    + exists 1. repeat split; try done; lia.
    + exists 0. rewrite app_nil_r. repeat split; try done; lia.
  - exists 0. rewrite app_nil_r. repeat split; try done; lia.
  - exists 0. destruct data; simpl; rewrite app_nil_r; repeat split; try done; lia.
  - exists 0. unfold NemoSocket.connect.
    destruct (NemoSocket.wsRef st) as [[]|]; destruct created; simpl;
      rewrite app_nil_r; repeat split; try done; lia.
Qed.

Lemma run_counter (evs : list NemoSocket.Event) (st : NemoSocket.State) :
  NemoSocket.reconnectAttemptsRef st ≤ NemoSocket.MAX_RECONNECT_ATTEMPTS →
  ∃ k, NemoSocket.scheduled (NemoSocket.run st evs)
       = NemoSocket.scheduled st ++ replicate k NemoSocket.RECONNECT_DELAY
     ∧ NemoSocket.reconnectAttemptsRef (NemoSocket.run st evs)
       ≤ NemoSocket.MAX_RECONNECT_ATTEMPTS
     ∧ k ≤ NemoSocket.closes evs
     ∧ k + (NemoSocket.MAX_RECONNECT_ATTEMPTS
            - NemoSocket.reconnectAttemptsRef (NemoSocket.run st evs))
       ≤ (NemoSocket.MAX_RECONNECT_ATTEMPTS - NemoSocket.reconnectAttemptsRef st)
         + NemoSocket.MAX_RECONNECT_ATTEMPTS * Runs.opens evs.
Proof.
  intros Hle. induction evs as [|e evs IH] using rev_ind.
  - exists 0. simpl. rewrite app_nil_r. repeat split; try done; lia.
  - destruct IH as (k & Hs & Ha & Hc & Hp).
    destruct (handle_counter (NemoSocket.run st evs) e Ha)
      as (j & Hj & Hs' & Ha' & Hjc & Hp').
    exists (k + j). rewrite socket_run_snoc, Hs', Hs, <- app_assoc.
    rewrite <- replicate_add.
    unfold NemoSocket.closes, Runs.opens, NemoSocket.MAX_RECONNECT_ATTEMPTS in *.
    rewrite !List.filter_app, !length_app. simpl.
    split; [done|]. split; [exact Ha'|].
    destruct (NemoSocket.is_close e) eqn:Hclose;
      destruct (NemoSocket.is_open e) eqn:Hopen; simpl in *;
      try (destruct e; discriminate); split; try lia.
    all: assert (j = 0) by (destruct j as [|[|j]]; [done| |lia];
                            by specialize (Hjc eq_refl)); lia.
Qed.

(** X1. In every run of the socket hook after mounting, whatever the order
    of opens, closes, errors, frames and timers: the attempt counter
    never exceeds the maximum of 5; every reconnect timer has the delay
    of 3000 ms; and the timers set number at most the closes, and at
    most 5 for the start and 5 more for every open. *)
Theorem reconnect_timers_bounded_by_opens (evs : list NemoSocket.Event) :
  NemoSocket.reconnectAttemptsRef (NemoSocket.run NemoSocket.mounted evs) ≤ 5
  ∧ Forall (λ d, d = 3000%N)
      (NemoSocket.scheduled (NemoSocket.run NemoSocket.mounted evs))
  ∧ length (NemoSocket.scheduled (NemoSocket.run NemoSocket.mounted evs))
    ≤ NemoSocket.closes evs
  ∧ length (NemoSocket.scheduled (NemoSocket.run NemoSocket.mounted evs))
    ≤ 5 * (1 + Runs.opens evs).
Proof.
  destruct (run_counter evs NemoSocket.mounted) as (k & Hs & Ha & Hc & Hp).
  { unfold NemoSocket.MAX_RECONNECT_ATTEMPTS. simpl. lia. }
  rewrite Hs. simpl. rewrite length_replicate.
  unfold NemoSocket.MAX_RECONNECT_ATTEMPTS in *. simpl in Hp.
  split; [exact Ha|]. split; [|split; [exact Hc|lia]].
  apply Forall_forall. intros d Hd. by apply elem_of_replicate in Hd as [-> _].
Qed.

Lemma onError_typing (prev : option ustring) (st : App.State) :
  App.isTyping (App.onError prev st) = true → App.isTyping st = true.
Proof.
  unfold App.onError. case_bool_decide; [done|].
  destruct (NemoSocket.err (App.socket st)) as [e|]; [|done].
  by destruct (truthy e).
Qed.

Lemma step_browser (st : App.State) (e : NemoSocket.Event) (now : N) :
  App.step st (App.Browser e, now)
  = App.onError (NemoSocket.err (App.socket st))
      (if App.stores_response e
       then App.onResponse now
              (App.with_socket (NemoSocket.handle (App.socket st) e) st)
       else App.with_socket (NemoSocket.handle (App.socket st) e) st).
Proof. done. Qed.

Lemma onResponse_socket (now : N) (st : App.State) :
  App.socket (App.onResponse now st) = App.socket st.
Proof.
  unfold App.onResponse.
  destruct (NemoSocket.lastResponse (App.socket st)) as [r|]; [|done].
  destruct (NemoSocket.text r) as [t|]; [|done].
  destruct (truthy t); [|done]. by case_bool_decide.
Qed.

(** All that one event does to the App. *)
Lemma step_effect (st : App.State) (ev : App.Event * N) :
  (∃ t, ev.1 = App.UserSends t
     ∧ App.messages (App.step st ev)
       = App.messages st
         ++ [App.mkMessage (lit "user-" ++ lit (pretty ev.2)) App.user t ev.2]
     ∧ App.processedResponseRef (App.step st ev) = App.processedResponseRef st
     ∧ App.played (App.step st ev) = App.played st
     ∧ App.socket (App.step st ev) = NemoSocket.sendMessage t (App.socket st))
  ∨ (∃ e, ev.1 = App.Browser e
       ∧ App.socket (App.step st ev) = NemoSocket.handle (App.socket st) e
       ∧ ((App.messages (App.step st ev) = App.messages st
           ∧ App.processedResponseRef (App.step st ev) = App.processedResponseRef st
           ∧ App.played (App.step st ev) = App.played st
           ∧ (App.isTyping (App.step st ev) = true → App.isTyping st = true))
          ∨ (∃ r t, e = NemoSocket.WsMessage (Some r)
               ∧ NemoSocket.text r = Some t ∧ t ≠ []
               ∧ App.processedResponseRef st ≠ Some t
               ∧ App.messages (App.step st ev)
                 = App.messages st
                   ++ [App.mkMessage (lit "nemo-" ++ lit (pretty ev.2))
                         App.nemo t ev.2]
               ∧ App.processedResponseRef (App.step st ev) = Some t
               ∧ App.played (App.step st ev) = App.played st ++ App.clip r
               ∧ App.isTyping (App.step st ev) = false))).
Proof.
  destruct ev as [[t|e] now]; [left|right]; simpl.
  - exists t. split; [done|]. unfold App.step. simpl.
    destruct (onError_frame (NemoSocket.err (App.socket st))
                (App.handleSend t now st)) as (-> & -> & -> & ->). done.
  - exists e. split; [done|].
    rewrite step_browser.
    set (st1 := App.with_socket (NemoSocket.handle (App.socket st) e) st).
    assert (∃ st2, (if App.stores_response e then App.onResponse now st1 else st1)
                   = st2) as [st2 Hst2] by eauto.
    rewrite Hst2.
    pose proof (onError_frame (NemoSocket.err (App.socket st)) st2)
      as (Hm & Hr & Hp & Hs).
    pose proof (onError_typing (NemoSocket.err (App.socket st)) st2) as Ht.
    rewrite Hm, Hr, Hp, Hs.
    destruct (App.stores_response e) eqn:Hstore.
    2:{ subst st2. split; [done|]. left. repeat split; try done; try exact Ht. }
    destruct e as [| | |[r|]|created]; try discriminate.
    pose proof (onResponse_cases now st1) as Hc.
    change (NemoSocket.lastResponse (App.socket st1)) with (Some r) in Hc.
    change (App.processedResponseRef st1) with (App.processedResponseRef st) in Hc.
    cbv beta iota in Hc. rewrite Hst2 in Hc.
    destruct (NemoSocket.text r) as [t|] eqn:Et.
    2:{ subst st2. rewrite Hc in *. split; [done|]. left.
        repeat split; try done; try exact Ht. }
    destruct (truthy t) eqn:Htr; simpl in Hc.
    2:{ subst st2. rewrite Hc in *. split; [done|]. left.
        repeat split; try done; try exact Ht. }
    case_bool_decide as Href; simpl in Hc.
    { subst st2. rewrite Hc in *. split; [done|]. left.
        repeat split; try done; try exact Ht. }
    destruct Hc as (Hc1 & Hc2 & Hc3 & Hc4).
    assert (App.socket st2 = App.socket st1) as ->
      by (rewrite <- Hst2; apply onResponse_socket).
    split; [done|]. right. exists r, t.
    split; [done|]. split; [done|]. split; [by apply truthy_nonempty|].
    split; [done|]. split; [done|]. split; [done|]. split; [done|].
    destruct (App.isTyping (App.onError _ st2)) eqn:Hty; [|done].
    specialize (Ht eq_refl). congruence.
Qed.

Lemma handle_sent (k : NemoSocket.State) (e : NemoSocket.Event) :
  NemoSocket.sent (NemoSocket.handle k e) = NemoSocket.sent k.
Proof.
  destruct e as [| | |[r|]|created]; simpl; try done.
  - unfold NemoSocket.onclose. by destruct (_ <? _).
  - unfold NemoSocket.connect.
    by destruct (NemoSocket.wsRef k) as [[]|]; destruct created.
Qed.




Lemma no_repeat_snoc (l : list ustring) (t : ustring) :
  Runs.no_repeat l → last l ≠ Some t → Runs.no_repeat (l ++ [t]).
Proof.
  induction l as [|a l IH]; simpl; [done|].
  intros [Ha Hl] Hlast. destruct l as [|b l]; simpl in *.
  - split; [|done]. intros ->. by apply Hlast.
  - split; [done|]. by apply IH.
Qed.

(** The invariant of the Nemo side of the transcript. *)
Lemma run_nemo_side (evs : list (App.Event * N)) :
  App.processedResponseRef (App.run App.initial evs)
  = last (App.said App.nemo (App.messages (App.run App.initial evs)))
  ∧ Runs.no_repeat (App.said App.nemo (App.messages (App.run App.initial evs)))
  ∧ Forall (λ t, t ≠ []) (App.said App.nemo (App.messages (App.run App.initial evs)))
  ∧ Forall (λ a, a ≠ []) (App.played (App.run App.initial evs))
  ∧ length (App.played (App.run App.initial evs))
    ≤ length (App.said App.nemo (App.messages (App.run App.initial evs))).
Proof.
  induction evs as [|ev evs IH] using rev_ind.
  - simpl. repeat split; try done; by constructor.
  - destruct IH as (Href & Hnr & Hne & Hpl & Hlen).
    rewrite app_run_snoc.
    destruct (step_effect (App.run App.initial evs) ev)
      as [(t & _ & -> & -> & -> & _)
         |(e & _ & _ & [(-> & -> & -> & _)
                       |(r & t & _ & Ht & Hnt & Hnew & -> & -> & -> & _)])].
    + rewrite said_app, said_one. simpl. rewrite app_nil_r. done.
    + done.
    + rewrite said_app, said_one. simpl.
      split; [by rewrite last_snoc|].
      split; [apply no_repeat_snoc; [done|by rewrite <- Href]|].
      split; [apply Forall_app; split; [done|by repeat constructor]|].
      unfold App.clip. rewrite !length_app. simpl.
      destruct (NemoSocket.audio r) as [a|]; [destruct (truthy a) eqn:Ha|].
      * split; [|simpl; lia].
        apply Forall_app. split; [done|]. repeat constructor.
        by apply truthy_nonempty.
      * rewrite app_nil_r. split; [done|simpl; lia].
      * rewrite app_nil_r. split; [done|simpl; lia].
Qed.

(** X4. On Nemo's side of the transcript no entry is empty and no two
    entries in a row carry the same text, in any session. *)
Theorem nemo_entries_never_repeat (evs : list (App.Event * N)) :
  Runs.no_repeat (App.said App.nemo (App.messages (App.run App.initial evs)))
  ∧ Forall (λ t, t ≠ []) (App.said App.nemo (App.messages (App.run App.initial evs))).
Proof.
  destruct (run_nemo_side evs) as (_ & ? & ? & _). done.
Qed.

(** X5. Audio is played only for responses that entered the transcript:
    the clips handed to [playAudio] are never empty and are no more
    than Nemo's entries. *)
Theorem clips_played_only_for_entries (evs : list (App.Event * N)) :
  Forall (λ a, a ≠ []) (App.played (App.run App.initial evs))
  ∧ length (App.played (App.run App.initial evs))
    ≤ length (App.said App.nemo (App.messages (App.run App.initial evs))).
Proof.
  destruct (run_nemo_side evs) as (_ & _ & _ & ? & ?). done.
Qed.

(** X6. The transcript only grows: whatever happens, the entries shown
    stay as they are and in place, and an event adds at most one. *)
Theorem transcript_append_only (st : App.State) (evs : list (App.Event * N)) :
  App.messages st `prefix_of` App.messages (App.run st evs)
  ∧ length (App.messages (App.run st evs)) ≤ length (App.messages st) + length evs.
Proof.
  induction evs as [|ev evs [IHp IHl]] using rev_ind.
  - simpl. split; [done|lia].
  - rewrite app_run_snoc, length_app. simpl.
    destruct (step_effect (App.run st evs) ev)
      as [(t & _ & -> & _)
         |(e & _ & _ & [(-> & _)|(r & t & _ & _ & _ & _ & -> & _)])].
    + rewrite length_app. simpl. split; [by apply prefix_app_r|lia].
    + split; [done|lia].
    + rewrite length_app. simpl. split; [by apply prefix_app_r|lia].
Qed.



End SessionInvariants.

(** ** Trimming, and the panel as a whole *)
Section UiFacts.
Import Text Json.

Lemma trim_start_id (s : ustring) :
  match s with
  | c :: _ => is_white_space c = false
  | [] => True
  end →
  trim_start s = s.
Proof. destruct s as [|c r]; simpl; [done|]. by intros ->. Qed.

Lemma trim_start_split (s : ustring) :
  ∃ l, s = l ++ trim_start s ∧ blank l = true.
Proof.
  induction s as [|c r (l & Hl & Hb)]; simpl; [by exists []|].
  destruct (is_white_space c) eqn:Hc.
  - exists (c :: l). simpl. rewrite Hc, Hb. split; [by rewrite <- Hl|done].
  - by exists [].
Qed.

Lemma blank_rev (s : ustring) : blank (rev s) = blank s.
Proof.
  unfold blank. induction s as [|c r IH]; simpl; [done|].
  rewrite forallb_app, IH. simpl. rewrite andb_true_r. apply andb_comm.
Qed.

Lemma trim_end_split (s : ustring) :
  ∃ r, s = trim_end s ++ r ∧ blank r = true.
Proof.
  unfold trim_end. destruct (trim_start_split (rev s)) as (l & Hl & Hb).
  exists (rev l). split; [|by rewrite blank_rev].
  rewrite <- rev_app_distr, <- Hl. by rewrite rev_involutive.
Qed.

Lemma trim_split (s : ustring) :
  ∃ l r, s = l ++ trim s ++ r ∧ blank l = true ∧ blank r = true.
Proof.
  destruct (trim_start_split s) as (l & Hl & Hbl).
  destruct (trim_end_split (trim_start s)) as (r & Hr & Hbr).
  exists l, r. split; [|done]. unfold trim. by rewrite <- Hr.
Qed.

Lemma trim_idempotent (s : ustring) : trim (trim s) = trim s.
Proof.
  pose proof (trim_head s) as Hh.
  assert (rev (trim s) = trim_start (rev (trim_start s))) as Hrev
    by (unfold trim, trim_end; apply rev_involutive).
  pose proof (trim_start_head (rev (trim_start s))) as Hl.
  rewrite <- Hrev in Hl.
  unfold trim at 1. rewrite (trim_start_id (trim s) Hh).
  unfold trim_end. rewrite (trim_start_id (rev (trim s)) Hl).
  apply rev_involutive.
Qed.

Lemma trim_clean (s : ustring) : trim s ≠ [] → Ui.clean (trim s).
Proof.
  intros Hne. split; [done|]. split; [by apply trim_not_blank|].
  apply trim_idempotent.
Qed.

(** X8. What [handleSend] passes to [onSend] is the input less white
    space at its two ends, and nothing else: the input is the text sent
    between two blank strings, and the text sent starts and ends with a
    character that is not white space, so that trimming it again
    changes nothing. *)
Theorem sent_text_is_input_less_blank_ends (p : InputBar.Props) (st : InputBar.State) :
  match (InputBar.handleSend p st).2 with
  | Some t =>
    (∃ l r, InputBar.input st = l ++ t ++ r ∧ blank l = true ∧ blank r = true)
    ∧ trim t = t
    ∧ (∀ c, head t = Some c ∨ last t = Some c → is_white_space c = false)
  | None => True
  end.
Proof.
  unfold InputBar.handleSend. simpl.
  destruct (truthy (trim (InputBar.input st)) && negb (InputBar.disabled p));
    simpl; [|done].
  split; [apply trim_split|]. split; [apply trim_idempotent|].
  intros c [Hc|Hc].
  - pose proof (trim_head (InputBar.input st)) as Hh.
    destruct (trim (InputBar.input st)); [done|]. simpl in Hc. by injection Hc as <-.
  - assert (rev (trim (InputBar.input st))
            = trim_start (rev (trim_start (InputBar.input st)))) as Hrev
      by (unfold trim, trim_end; apply rev_involutive).
    pose proof (trim_start_head (rev (trim_start (InputBar.input st)))) as Hl.
    rewrite <- Hrev in Hl.
    destruct (trim (InputBar.input st)) as [|a t] using rev_ind; [done|].
    rewrite last_snoc in Hc. injection Hc as <-.
    rewrite rev_app_distr in Hl. simpl in Hl. done.
Qed.

Lemma handleSend_clean (p : InputBar.Props) (b : InputBar.State) :
  match (InputBar.handleSend p b).2 with
  | Some t => Ui.clean t
  | None => True
  end.
Proof.
  unfold InputBar.handleSend. simpl.
  destruct (truthy (trim (InputBar.input b)) && negb (InputBar.disabled p))
    eqn:H; simpl; [|done].
  apply andb_true_iff in H as [H _]. apply trim_clean.
  by apply truthy_nonempty.
Qed.

Lemma click_clean (p : InputBar.Props) (b : InputBar.State) :
  match (InputBar.click p b).2 with
  | Some t => Ui.clean t
  | None => True
  end.
Proof.
  unfold InputBar.click. destruct (InputBar.button_disabled p b); [done|].
  apply handleSend_clean.
Qed.

Lemma press_clean (p : InputBar.Props) (b : InputBar.State) (e : InputBar.KeyboardEvent) :
  match (InputBar.press p b e).2 with
  | Some t => Ui.clean t
  | None => True
  end.
Proof.
  unfold InputBar.press, InputBar.handleKeyDown.
  destruct (InputBar.field_disabled p b); [done|].
  destruct (_ && _); [|done]. apply handleSend_clean.
Qed.

(** What one event of the panel does to [App]: nothing, a call of
    [handleSend] with a clean text, or a socket event. *)
Lemma ui_step_app (st : Ui.State) (ev : Ui.Event * N) :
  Ui.app (Ui.step st ev) = Ui.app st
  ∨ (∃ t, Ui.clean t
        ∧ Ui.app (Ui.step st ev) = App.step (Ui.app st) (App.UserSends t, ev.2))
  ∨ (∃ e, Ui.app (Ui.step st ev) = App.step (Ui.app st) (App.Browser e, ev.2)).
Proof.
  destruct ev as [[s| |e|p inp|b|s|e] now]; unfold Ui.step; simpl.
  - left. by destruct (InputBar.field_disabled _ _).
  - unfold Ui.sends.
    pose proof (click_clean (Ui.barProps st) (Ui.bar st)) as H.
    destruct (InputBar.click _ _).2 as [t|]; [|by left].
    right; left. by exists t.
  - unfold Ui.sends.
    pose proof (press_clean (Ui.barProps st) (Ui.bar st) e) as H.
    destruct (InputBar.press _ _ _).2 as [t|]; [|by left].
    right; left. by exists t.
  - pose proof (handleSend_clean p
                  {| InputBar.input := inp;
                     InputBar.isListening := InputBar.isListening (Ui.bar st) |})
      as H.
    destruct (InputBar.handleSend _ _).2 as [t|]; [|by left].
    right; left. by exists t.
  - by left.
  - left. by destruct (truthy s).
  - right; right. by exists e.
Qed.

Lemma ui_run_snoc (st : Ui.State) (evs : list (Ui.Event * N)) (ev : Ui.Event * N) :
  Ui.run st (evs ++ [ev]) = Ui.step (Ui.run st evs) ev.
Proof. unfold Ui.run. by rewrite fold_left_app. Qed.

(** [App]'s steps keep the user's side of the transcript and the frames
    sent clean, when the texts passed to [handleSend] are. *)
Lemma app_step_clean (a : App.State) (ev : App.Event * N) :
  match ev.1 with
  | App.UserSends t => Ui.clean t
  | App.Browser _ => True
  end →
  Forall Ui.clean (App.said App.user (App.messages a)) →
  Forall (λ j, ∃ t, j = NemoSocket.request t ∧ Ui.clean t)
    (NemoSocket.sent (App.socket a)) →
  Forall Ui.clean (App.said App.user (App.messages (App.step a ev)))
  ∧ Forall (λ j, ∃ t, j = NemoSocket.request t ∧ Ui.clean t)
      (NemoSocket.sent (App.socket (App.step a ev))).
Proof.
  intros Hev Hm Hs.
  destruct (step_effect a ev)
    as [(t & Et & -> & _ & _ & ->)
       |(e & Ee & -> & [(-> & _)|(r & t & _ & _ & _ & _ & -> & _)])].
  - rewrite Et in Hev. split.
    + rewrite said_app, said_one. apply Forall_app. split; [done|].
      by apply Forall_singleton.
    + unfold NemoSocket.sendMessage.
      destruct (NemoSocket.wsRef (App.socket a)) as [[]|]; simpl; try done.
      apply Forall_app. split; [done|]. apply Forall_singleton. by exists t.
  - split; [done|]. by rewrite handle_sent.
  - split; [|by rewrite handle_sent].
    rewrite said_app, said_one. apply Forall_app. split; [done|].
    constructor.
Qed.

(** X9. Whatever the user and the browser do to the panel - typing,
    clicks, keys, dictation with its delayed send, socket events - every
    entry of the user in the transcript and every frame sent to the
    server carries a text that is not blank and has no white space at
    either end; and every frame is a request [{text}]. *)
Theorem panel_sends_only_clean_texts (evs : list (Ui.Event * N)) :
  Forall Ui.clean
    (App.said App.user (App.messages (Ui.app (Ui.run Ui.initial evs))))
  ∧ Forall (λ j, ∃ t, j = NemoSocket.request t ∧ Ui.clean t)
      (NemoSocket.sent (App.socket (Ui.app (Ui.run Ui.initial evs)))).
Proof.
  induction evs as [|ev evs [IHm IHs]] using rev_ind; [by split|].
  rewrite ui_run_snoc.
  destruct (ui_step_app (Ui.run Ui.initial evs) ev)
    as [->|[(t & Ht & ->)|(e & ->)]]; [done| |].
  - by apply app_step_clean.
  - by apply app_step_clean.
Qed.

(** X10. While Nemo's typing indicator is on, or the socket is not
    connected, or dictation is listening, typing into the field,
    clicking the send button and pressing a key leave the panel as it
    is: nothing is sent and the field keeps its content. *)
Theorem panel_inert_while_busy (st : Ui.State) (now : N) :
  App.isTyping (Ui.app st) = true
  ∨ NemoSocket.isConnected (App.socket (Ui.app st)) = false
  ∨ InputBar.isListening (Ui.bar st) = true →
  Ui.step st (Ui.Clicks, now) = st
  ∧ (∀ e, Ui.step st (Ui.Presses e, now) = st)
  ∧ (∀ s, Ui.step st (Ui.Types s, now) = st).
Proof.
  intros H.
  assert (InputBar.field_disabled (Ui.barProps st) (Ui.bar st) = true) as Hf.
  { unfold InputBar.field_disabled, Ui.barProps. simpl.
    destruct H as [-> | [-> | ->]]; simpl; [done| |].
    - by rewrite orb_true_r.
    - by rewrite orb_true_r. }
  assert (InputBar.button_disabled (Ui.barProps st) (Ui.bar st) = true) as Hb.
  { unfold InputBar.button_disabled, Ui.barProps. simpl.
    destruct H as [-> | [-> | ->]]; simpl; [done| |].
    - by rewrite !orb_true_r.
    - by rewrite !orb_true_r. }
  unfold Ui.step, Ui.sends, InputBar.click, InputBar.press. simpl.
  rewrite Hf, Hb. simpl. by destruct st.
Qed.

Lemma panel_inert_while_busy_witness :
  Ui.step Ui.initial (Ui.Clicks, 1%N) = Ui.initial
  ∧ (∀ e, Ui.step Ui.initial (Ui.Presses e, 1%N) = Ui.initial)
  ∧ (∀ s, Ui.step Ui.initial (Ui.Types s, 1%N) = Ui.initial).
Proof.
  apply (panel_inert_while_busy Ui.initial 1%N).
  right; left. reflexivity.
Defined.

(** X11. On an open socket, with the indicator off and dictation not
    listening, a click on the send button, and Enter in the field, do
    the whole exchange when the field holds more than white space: the
    trimmed text becomes the user's next entry of the transcript, the
    frame [{text}] with it is sent, the field is cleared and the typing
    indicator comes on. *)
Theorem panel_click_sends_trimmed_input (st : Ui.State) (now : N) (ev : Ui.Event) :
  ev = Ui.Clicks ∨ ev = Ui.Presses Ui.Enter →
  App.isTyping (Ui.app st) = false →
  NemoSocket.isConnected (App.socket (Ui.app st)) = true →
  NemoSocket.wsRef (App.socket (Ui.app st)) = Some NemoSocket.OPEN →
  InputBar.isListening (Ui.bar st) = false →
  trim (InputBar.input (Ui.bar st)) ≠ [] →
  let t := trim (InputBar.input (Ui.bar st)) in
  let st' := Ui.step st (ev, now) in
  App.messages (Ui.app st')
  = App.messages (Ui.app st)
    ++ [App.mkMessage (lit "user-" ++ lit (pretty now)) App.user t now]
  ∧ NemoSocket.sent (App.socket (Ui.app st'))
    = NemoSocket.sent (App.socket (Ui.app st)) ++ [NemoSocket.request t]
  ∧ InputBar.input (Ui.bar st') = []
  ∧ App.isTyping (Ui.app st') = true.
Proof.
  intros Hev Hty Hc Hws Hl Hne t st'.
  assert (truthy t = true) as Ht.
  { unfold truthy. subst t. by destruct (trim _). }
  assert (Ui.step st (ev, now)
          = {| Ui.app := App.step (Ui.app st) (App.UserSends t, now);
               Ui.bar := {| InputBar.input := [];
                            InputBar.isListening :=
                              InputBar.isListening (Ui.bar st) |} |}) as Hstep.
  { destruct Hev as [-> | ->];
      unfold Ui.step, Ui.sends, InputBar.click, InputBar.press,
        InputBar.handleKeyDown, InputBar.button_disabled,
        InputBar.field_disabled, InputBar.handleSend, Ui.barProps; simpl;
      fold t; rewrite Hty, Hc, Hl, Ht; simpl; done. }
  subst st'. rewrite Hstep. simpl.
  unfold App.step. simpl.
  assert (NemoSocket.err (NemoSocket.sendMessage t (App.socket (Ui.app st)))
          = NemoSocket.err (App.socket (Ui.app st))) as He
    by (unfold NemoSocket.sendMessage; by rewrite Hws).
  unfold App.onError. simpl. rewrite He, bool_decide_eq_true_2 by done.
  simpl. repeat split; try done.
  unfold NemoSocket.sendMessage. by rewrite Hws.
Qed.

Lemma panel_click_sends_trimmed_input_witness :
  App.said App.user
    (App.messages (Ui.app (Ui.step Ui.ready (Ui.Clicks, 3%N))))
  = [lit "hello Nemo"]
  ∧ NemoSocket.sent (App.socket (Ui.app (Ui.step Ui.ready (Ui.Clicks, 3%N))))
    = [NemoSocket.request (lit "hello Nemo")].
Proof.
  destruct (panel_click_sends_trimmed_input Ui.ready 3%N Ui.Clicks)
    as (Hm & Hs & _); try reflexivity; [by left|by vm_compute|].
  rewrite Hm, Hs. split; reflexivity.
Defined.

End UiFacts.

(** ** The connection's bookkeeping *)
Section BackendFacts.
Import Text Json.
Context {Ext : Type} (sv : Server.Services Ext).

Lemma server_run_snoc (st : Server.State Ext) (sched : list Server.Choice)
    (c : Server.Choice) :
  Server.run sv st (sched ++ [c]) = Server.exec sv (Server.run sv st sched) c.
Proof. unfold Server.run. by rewrite fold_left_app. Qed.

Lemma task_of_turn_mono (frames : list JSON) (lg l : list Server.LogEntry)
    (t : Server.Task) :
  Backend.task_of_turn frames lg t → Backend.task_of_turn frames (lg ++ l) t.
Proof.
  intros [Hu [a Ha]]. split; [done|]. exists a. apply elem_of_app. by left.
Qed.

Lemma tasks_mono (frames : list JSON) (lg l : list Server.LogEntry)
    (q : list Server.Task) :
  Forall (Backend.task_of_turn frames lg) q →
  Forall (Backend.task_of_turn frames (lg ++ l)) q.
Proof.
  intros H. eapply Forall_impl; [exact H|]. intros t. apply task_of_turn_mono.
Qed.

Lemma drop_cons_inv {A} (l : list A) (n : nat) (x : A) (r : list A) :
  drop n l = x :: r → l !! n = Some x ∧ r = drop (S n) l ∧ n < length l.
Proof.
  intros H.
  assert (l !! n = Some x) as Hl.
  { rewrite <- (Nat.add_0_r n), <- lookup_drop, H. done. }
  split; [done|]. split.
  - rewrite (drop_S l x n Hl) in H. by injection H.
  - by eapply lookup_lt_Some.
Qed.

Lemma calls_snoc (frames : list JSON) (calls : list (JSON * ustring))
    (u : JSON) (p : ustring) :
  Forall2 (λ c d, Server.subscript d "text" = Server.Ok c.1)
    calls (take (length calls) frames) →
  Backend.text_of_turn frames (S (length calls)) u →
  Forall2 (λ c d, Server.subscript d "text" = Server.Ok c.1)
    (calls ++ [(u, p)]) (take (length (calls ++ [(u, p)])) frames).
Proof.
  intros Hc (_ & d & Hd & Hu). simpl in Hd. rewrite Nat.sub_0_r in Hd.
  rewrite length_app. simpl. rewrite Nat.add_1_r.
  rewrite (take_S_r _ _ _ Hd). apply Forall2_app; [done|].
  by apply Forall2_cons.
Qed.

Lemma accounted_accepted (e : Ext) (frames : list JSON) :
  Backend.Accounted sv frames (Server.accepted e frames).
Proof.
  split; simpl; try done. lia.
Qed.

Local Ltac acc_close :=
  first [ done | by apply tasks_mono | lia | congruence ].

Lemma accounted_endpoint_step (frames : list JSON) (st st' : Server.State Ext) :
  Backend.Accounted sv frames st →
  Server.endpoint_step sv st = Some st' →
  Backend.Accounted sv frames st'.
Proof.
  intros [Hin Hturn Hcalls Hprompts Htasks Hpc] Hstep.
  unfold Server.endpoint_step in Hstep.
  destruct (Server.pc st) as [|u p|u r|u r a|] eqn:Epc.
  - destruct Hpc as [Ho Hl].
    destruct (Server.inbox st) as [|data rest] eqn:Ein.
    { simplify_eq. split; simpl; rewrite ?Ein; acc_close. }
    symmetry in Hin. apply drop_cons_inv in Hin as (Hd & Hrest & Hlt).
    destruct (Server.subscript data "text") as [u|x] eqn:Esub.
    2:{ simplify_eq. split; simpl; acc_close. }
    unfold Server.get_context in Hstep.
    destruct (Server.search sv u Server.user_id 3 (Server.ext st))
      as [[hits|x] e'] eqn:Es.
    2:{ simplify_eq. split; simpl; acc_close. }
    simplify_eq. split; simpl; try acc_close.
    split; [lia|]. split; [lia|]. split.
    + split; [lia|]. exists data. simpl. by rewrite Nat.sub_0_r.
    + by exists (Server.ext st), e', hits.
  - destruct Hpc as (Ho & Hl & Hu & Hp).
    assert (Backend.text_of_turn frames (S (length (Server.llm_calls st))) u)
      as Hu' by (by rewrite Hl, Ho).
    pose proof (calls_snoc frames (Server.llm_calls st) u p Hcalls Hu') as Hc'.
    assert (Forall (λ c, Backend.recalled_prompt sv c.1 c.2)
              (Server.llm_calls st ++ [(u, p)])) as Hp'.
    { apply Forall_app. split; [done|]. by apply Forall_singleton. }
    destruct (Server.generate sv u p (Server.ext st)) as [[r|x] e'] eqn:Eg.
    + simplify_eq. split; simpl; try acc_close.
      rewrite length_app. simpl. split; [done|]. split; [lia|done].
    + simplify_eq. split; simpl; try acc_close.
      rewrite length_app. simpl. lia.
  - destruct Hpc as (Ho & Hl & Hu).
    destruct (Server.synthesize sv r (Server.ext st)) as [[a|x] e'] eqn:Ey.
    + simplify_eq. split; simpl; acc_close.
    + simplify_eq. split; simpl; acc_close.
  - destruct Hpc as (Ho & Hl & Hu).
    simplify_eq. split; simpl; try acc_close.
    + apply Forall_app. split; [by apply tasks_mono|].
      apply Forall_singleton. split; [done|]. exists a. simpl.
      apply elem_of_app. right. by apply list_elem_of_singleton.
    + rewrite length_app. simpl. lia.
  - done.
Qed.

Lemma accounted_task_step (frames : list JSON) (st st' : Server.State Ext) :
  Backend.Accounted sv frames st →
  Server.task_step sv st = Some st' →
  Backend.Accounted sv frames st'.
Proof.
  intros [Hin Hturn Hcalls Hprompts Htasks Hpc] Hstep.
  destruct (task_step_effect sv st st' Hstep)
    as (Epc & Ein & Eout & Ecalls & Eturn & t & l & Er & El & _).
  split; rewrite ?Epc, ?Ein, ?Eout, ?Ecalls, ?Eturn; try done.
  rewrite Er in Htasks. apply Forall_cons in Htasks as [_ Htasks].
  rewrite El. by apply tasks_mono.
Qed.

Lemma accounted_exec (frames : list JSON) (st : Server.State Ext)
    (c : Server.Choice) :
  Backend.Accounted sv frames st →
  Backend.Accounted sv frames (Server.exec sv st c).
Proof.
  intros Hacc. destruct c; simpl.
  - destruct (Server.endpoint_step sv st) as [st'|] eqn:Hstep; simpl; [|done].
    by eapply accounted_endpoint_step.
  - destruct (Server.task_step sv st) as [st'|] eqn:Hstep; simpl; [|done].
    by eapply accounted_task_step.
Qed.

Lemma accounted_run (e : Ext) (frames : list JSON) (sched : list Server.Choice) :
  Backend.Accounted sv frames (Server.run sv (Server.accepted e frames) sched).
Proof.
  induction sched as [|c sched IH] using rev_ind; [apply accounted_accepted|].
  rewrite server_run_snoc. by apply accounted_exec.
Qed.

Lemma join_infix (sep : ustring) (l : list ustring) (h : ustring) :
  h ∈ l → ∃ a b, Server.join sep l = a ++ h ++ b.
Proof.
  induction l as [|x l IH]; intros Hin; [by apply elem_of_nil in Hin|].
  apply elem_of_cons in Hin as [->|Hin].
  - destruct l as [|y l].
    + exists [], []. simpl. by rewrite app_nil_r.
    + by exists [], (sep ++ Server.join sep (y :: l)).
  - destruct (IH Hin) as (a & b & E).
    destruct l as [|y l]; [by apply elem_of_nil in Hin|].
    change (Server.join sep (x :: y :: l))
      with (x ++ sep ++ Server.join sep (y :: l)).
    rewrite E. exists (x ++ sep ++ a), b. by rewrite <- !app_assoc.
Qed.

Lemma system_prompt_infix (ctx : ustring) :
  ∃ a b, Server.system_prompt ctx = a ++ ctx ++ b.
Proof.
  unfold Server.system_prompt.
  set (n := Server.nl). set (i := Server.indent).
  set (k1 := lit "You are Shanaya, a sassy and empathetic friend.").
  set (k2 := lit "RELEVANT MEMORIES (Use these to personalize the chat):").
  set (k3 := lit "Keep responses short (under 2 sentences) and conversational.").
  clearbody n i k1 k2 k3.
  exists (n ++ i ++ k1 ++ n ++ i ++ n ++ i ++ k2 ++ n ++ i),
         (n ++ i ++ n ++ i ++ k3 ++ n ++ i).
  by rewrite <- !app_assoc.
Qed.

(** X12. Under every schedule the endpoint handles the frames in the
    order received, one at a time: the frames not yet received are the
    rest of what the client sends, the answers sent never outnumber the
    calls to the LLM nor these the frames received, at most one frame
    received is unanswered, and whenever the coroutine waits for the
    next frame every frame received so far has been answered. *)
Theorem frames_answered_one_at_a_time (e : Ext) (frames : list JSON)
    (sched : list Server.Choice) :
  let st := Server.run sv (Server.accepted e frames) sched in
  Server.inbox st = drop (Server.turn st) frames
  ∧ length (Server.outbox st) ≤ length (Server.llm_calls st)
  ∧ length (Server.llm_calls st) ≤ Server.turn st
  ∧ Server.turn st ≤ length frames
  ∧ Server.turn st ≤ S (length (Server.outbox st))
  ∧ (Server.pc st = Server.AtReceive →
     length (Server.outbox st) = Server.turn st).
Proof.
  intros st.
  destruct (accounted_run e frames sched) as [Hin Hturn _ _ _ Hpc].
  fold st in Hin, Hturn, Hpc.
  split; [done|].
  destruct (Server.pc st); repeat split; try done; try lia.
  all: by destruct Hpc.
Qed.

(** X13. Under every schedule the i-th call to the LLM is for the text
    of the i-th frame received, and its system prompt is the one built
    from the memories that a search of the store for that very text, for
    user_default and at most 3 results, returned: each of these memories
    occurs verbatim in the prompt. *)
Theorem llm_called_with_frame_text_and_recalled_memories (e : Ext)
    (frames : list JSON) (sched : list Server.Choice) :
  let calls := Server.llm_calls (Server.run sv (Server.accepted e frames) sched) in
  Forall2 (λ c d, Server.subscript d "text" = Server.Ok c.1)
    calls (take (length calls) frames)
  ∧ Forall (λ c, ∃ e0 e1 hits,
              Server.search sv c.1 Server.user_id 3 e0 = (Server.Ok hits, e1)
              ∧ c.2 = Server.system_prompt
                        (Server.join Server.nl (Server.memory <$> hits))
              ∧ ∀ h, h ∈ hits → ∃ a b, c.2 = a ++ Server.memory h ++ b)
      calls.
Proof.
  intros calls.
  destruct (accounted_run e frames sched) as [_ _ Hcalls Hprompts _ _].
  split; [done|].
  eapply Forall_impl; [exact Hprompts|].
  intros [u p] (e0 & e1 & hits & Hs & Hp). simpl in *.
  exists e0, e1, hits. split; [done|]. split; [done|].
  intros h Hh.
  destruct (join_infix Server.nl (Server.memory <$> hits) (Server.memory h))
    as (a & b & Hj); [by apply list_elem_of_fmap_2|].
  destruct (system_prompt_infix (Server.join Server.nl (Server.memory <$> hits)))
    as (a' & b' & Hsp).
  rewrite Hp, Hsp, Hj. exists (a' ++ a), (b ++ b'). by rewrite <- !app_assoc.
Qed.

(** X14. Under every schedule each save task in the queue belongs to a
    turn that has been answered: it carries the text of that turn's
    frame and the answer that was sent for it, so that what it stores
    under user_default is "User: <text> | Shanaya: <answer>". *)
Theorem queued_saves_carry_their_turn (e : Ext) (frames : list JSON)
    (sched : list Server.Choice) :
  let st := Server.run sv (Server.accepted e frames) sched in
  Forall (λ t,
    ∃ d a,
      frames !! (Server.task_turn t - 1) = Some d
      ∧ Server.subscript d "text" = Server.Ok (Server.task_user_text t)
      ∧ Server.Sent (Server.task_turn t)
          (Server.reply a (Server.task_agent_text t)) ∈ Server.log st
      ∧ ∀ x, Server.save_interaction sv (Server.task_user_text t)
               (Server.task_agent_text t) x
             = Server.add sv
                 (lit "User: " ++ Server.fstr sv (Server.task_user_text t)
                  ++ lit " | Shanaya: " ++ Server.task_agent_text t)
                 Server.user_id x)
    (Server.ready st).
Proof.
  intros st.
  destruct (accounted_run e frames sched) as [_ _ _ _ Htasks _].
  eapply Forall_impl; [exact Htasks|].
  intros t [(_ & d & Hd & Hu) (a & Ha)]. by exists d, a.
Qed.

(** Once the coroutine has ended nothing is received, sent, asked of
    the LLM or queued any more; the saves still queued may run. *)
Lemma finished_quiet (sched : list Server.Choice) (st : Server.State Ext) :
  Server.pc st = Server.Finished →
  Server.pc (Server.run sv st sched) = Server.Finished
  ∧ Server.outbox (Server.run sv st sched) = Server.outbox st
  ∧ Server.llm_calls (Server.run sv st sched) = Server.llm_calls st
  ∧ Server.inbox (Server.run sv st sched) = Server.inbox st
  ∧ Server.ready (Server.run sv st sched) `suffix_of` Server.ready st
  ∧ Server.log st `prefix_of` Server.log (Server.run sv st sched).
Proof.
  revert st. induction sched as [|c sched IH]; intros st Hpc; simpl; [done|].
  fold (Server.run sv (Server.exec sv st c) sched).
  destruct c; simpl.
  - unfold Server.endpoint_step. rewrite Hpc. simpl. by apply IH.
  - destruct (Server.task_step sv st) as [st'|] eqn:Hstep; simpl; [|by apply IH].
    destruct (task_step_effect sv st st' Hstep)
      as (Hpc' & Hi & Ho & Hc & _ & t & l & Hr & Hl & _).
    destruct (IH st') as (? & ? & ? & ? & Hsuf & Hpre); [congruence|].
    repeat split; try congruence.
    + rewrite Hr. by apply suffix_cons_r.
    + etrans; [|exact Hpre]. rewrite Hl. by apply prefix_app_r.
Qed.

(** A step of the coroutine that raises: the handler around the loop
    logs the exception and the coroutine is over. *)
Lemma raised_quiet (st st1 : Server.State Ext) (x : Server.exn) (e' : Ext)
    (sched : list Server.Choice) :
  Server.endpoint_step sv st = Some (Server.except x e' st1) →
  Server.pc (Server.run sv st (Server.RunEndpoint :: sched)) = Server.Finished
  ∧ Server.Error x ∈ Server.log (Server.run sv st (Server.RunEndpoint :: sched))
  ∧ Server.outbox (Server.run sv st (Server.RunEndpoint :: sched))
    = Server.outbox st1
  ∧ Server.llm_calls (Server.run sv st (Server.RunEndpoint :: sched))
    = Server.llm_calls st1
  ∧ Server.inbox (Server.run sv st (Server.RunEndpoint :: sched))
    = Server.inbox st1
  ∧ Server.ready (Server.run sv st (Server.RunEndpoint :: sched))
    `suffix_of` Server.ready st1.
Proof.
  intros Hstep. simpl.
  fold (Server.run sv (Server.exec sv st Server.RunEndpoint) sched).
  simpl. rewrite Hstep. simpl.
  destruct (finished_quiet sched (Server.except x e' st1))
    as (Hpc & Ho & Hc & Hi & Hr & Hl); [done|].
  repeat split; try done.
  eapply elem_of_prefix; [|exact Hl]. simpl.
  apply elem_of_app. right. by apply list_elem_of_singleton.
Qed.

(** X15. A frame that is not an object, or has no 'text', and the
    client's disconnect each end the handler for good: the exception
    (TypeError, KeyError 'text', WebSocketDisconnect) is logged as an
    error and, under every schedule, no answer is sent for this frame
    or for any later one, the LLM is not called again, no frame is
    received again and no save is queued. *)
Theorem malformed_frame_or_disconnect_ends_the_connection
    (st : Server.State Ext) (x : Server.exn) :
  Server.pc st = Server.AtReceive →
  match Server.inbox st with
  | [] => x = Server.WebSocketDisconnect
  | data :: _ => Server.subscript data "text" = Server.Raise x
  end →
  (x = Server.WebSocketDisconnect ∨ x = Server.TypeError
   ∨ x = Server.KeyError "text")
  ∧ ∀ sched,
      let st' := Server.run sv st (Server.RunEndpoint :: sched) in
      Server.pc st' = Server.Finished
      ∧ Server.Error x ∈ Server.log st'
      ∧ Server.outbox st' = Server.outbox st
      ∧ Server.llm_calls st' = Server.llm_calls st
      ∧ Server.inbox st' = tail (Server.inbox st)
      ∧ Server.ready st' `suffix_of` Server.ready st.
Proof.
  intros Hpc Hx. split.
  - destruct (Server.inbox st) as [|data rest]; [by left|].
    right. unfold Server.subscript in Hx.
    destruct data; simplify_eq; try by left.
    destruct (o !! "text"); simplify_eq. by right.
  - intros sched st'. subst st'.
    destruct (Server.inbox st) as [|data rest] eqn:Ein.
    + subst x.
      destruct (raised_quiet st st Server.WebSocketDisconnect (Server.ext st) sched)
        as (? & ? & ? & ? & Hi & ?).
      { unfold Server.endpoint_step. by rewrite Hpc, Ein. }
      rewrite Hi, Ein. done.
    + set (st1 := {| Server.ext := Server.ext st; Server.inbox := rest;
                     Server.pc := Server.AtReceive;
                     Server.turn := S (Server.turn st);
                     Server.ready := Server.ready st;
                     Server.outbox := Server.outbox st;
                     Server.llm_calls := Server.llm_calls st;
                     Server.log := Server.log st |}).
      destruct (raised_quiet st st1 x (Server.ext st) sched)
        as (? & ? & ? & ? & Hi & ?); [|done].
      unfold Server.endpoint_step. by rewrite Hpc, Ein, Hx.
Qed.

(** X16. When the LLM or the speech synthesiser raises, the handler
    ends for good as well: the error is logged, the turn's frame gets
    no answer - not even the text the LLM had produced, when it is the
    synthesiser that failed - no save is queued for the turn, and no
    later frame is received. *)
Theorem service_failure_sends_no_answer
    (st : Server.State Ext) (u : JSON) (p r : ustring) (x : Server.exn) (e' : Ext) :
  (Server.pc st = Server.AtGenerate u p
   ∧ Server.generate sv u p (Server.ext st) = (Server.Raise x, e'))
  ∨ (Server.pc st = Server.AtSynthesize u r
     ∧ Server.synthesize sv r (Server.ext st) = (Server.Raise x, e')) →
  ∀ sched,
    let st' := Server.run sv st (Server.RunEndpoint :: sched) in
    Server.pc st' = Server.Finished
    ∧ Server.Error x ∈ Server.log st'
    ∧ Server.outbox st' = Server.outbox st
    ∧ Server.inbox st' = Server.inbox st
    ∧ Server.ready st' `suffix_of` Server.ready st.
Proof.
  intros [[Hpc Hg]|[Hpc Hy]] sched st'; subst st'.
  - set (st1 := {| Server.ext := Server.ext st; Server.inbox := Server.inbox st;
                   Server.pc := Server.pc st; Server.turn := Server.turn st;
                   Server.ready := Server.ready st;
                   Server.outbox := Server.outbox st;
                   Server.llm_calls := Server.llm_calls st ++ [(u, p)];
                   Server.log := Server.log st |}).
    destruct (raised_quiet st st1 x e' sched) as (? & ? & ? & ? & ? & ?); [|done].
    unfold Server.endpoint_step. by rewrite Hpc, Hg.
  - destruct (raised_quiet st st x e' sched) as (? & ? & ? & ? & ? & ?); [|done].
    unfold Server.endpoint_step. by rewrite Hpc, Hy.
Qed.

End BackendFacts.

(** ** Progress when the services answer *)
Section BackendProgress.
Import Text Json.
Context {Ext : Type} (sv : Server.Services Ext) (frames : list JSON).
Hypothesis search_answers :
  ∀ t u n e, ∃ hits e', Server.search sv t u n e = (Server.Ok hits, e').
Hypothesis generate_answers :
  ∀ u p e, ∃ r e', Server.generate sv u p e = (Server.Ok r, e').
Hypothesis synthesize_answers :
  ∀ r e, ∃ a e', Server.synthesize sv r e = (Server.Ok a, e').
Hypothesis frames_have_text :
  Forall (λ d, ∃ u, Server.subscript d "text" = Server.Ok u) frames.

Lemma endpoint_steps_snoc (sched : list Server.Choice) (c : Server.Choice) :
  Backend.endpoint_steps (sched ++ [c])
  = Backend.endpoint_steps sched + (if Backend.is_endpoint c then 1 else 0).
Proof.
  unfold Backend.endpoint_steps. rewrite List.filter_app, length_app. simpl.
  by destruct (Backend.is_endpoint c).
Qed.

(** While frames are left, a step of the coroutine takes the turn one
    suspension point further. *)
Lemma endpoint_advances (st : Server.State Ext) :
  Backend.Accounted sv frames st →
  Server.pc st ≠ Server.Finished →
  4 * length (Server.outbox st) + Backend.phase (Server.pc st)
    < 4 * length frames →
  ∃ st', Server.endpoint_step sv st = Some st'
         ∧ Server.pc st' ≠ Server.Finished
         ∧ 4 * length (Server.outbox st') + Backend.phase (Server.pc st')
           = S (4 * length (Server.outbox st) + Backend.phase (Server.pc st)).
Proof using search_answers generate_answers synthesize_answers frames_have_text.
  intros [Hin Hturn _ _ _ Hpc] Hnf Hlt.
  unfold Server.endpoint_step.
  destruct (Server.pc st) as [|u p|u r|u r a|] eqn:Epc; [| | | |done].
  - destruct Hpc as [Ho _]. simpl in Hlt.
    assert (Server.turn st < length frames) as Ht by lia.
    destruct (lookup_lt_is_Some_2 frames (Server.turn st) Ht) as [data Hd].
    rewrite (drop_S _ _ _ Hd) in Hin. rewrite Hin.
    destruct (proj1 (Forall_lookup _ _) frames_have_text _ _ Hd) as [u Hu].
    rewrite Hu. unfold Server.get_context.
    destruct (search_answers u Server.user_id 3 (Server.ext st))
      as (hits & e' & ->).
    eexists. split; [done|]. simpl. split; [done|lia].
  - destruct (generate_answers u p (Server.ext st)) as (r & e' & ->).
    eexists. split; [done|]. simpl. split; [done|lia].
  - destruct (synthesize_answers r (Server.ext st)) as (a & e' & ->).
    eexists. split; [done|]. simpl. split; [done|lia].
  - eexists. split; [done|]. simpl. split; [done|].
    rewrite length_app. simpl. lia.
Qed.

Lemma progress_run (e : Ext) (sched : list Server.Choice) :
  (Backend.endpoint_steps sched ≤ 4 * length frames →
   Server.pc (Server.run sv (Server.accepted e frames) sched) ≠ Server.Finished
   ∧ 4 * length (Server.outbox (Server.run sv (Server.accepted e frames) sched))
     + Backend.phase (Server.pc (Server.run sv (Server.accepted e frames) sched))
     = Backend.endpoint_steps sched)
  ∧ (4 * length frames < Backend.endpoint_steps sched →
     Server.pc (Server.run sv (Server.accepted e frames) sched) = Server.Finished
     ∧ length (Server.outbox (Server.run sv (Server.accepted e frames) sched))
       = length frames).
Proof using search_answers generate_answers synthesize_answers frames_have_text.
  induction sched as [|c sched [IHle IHgt]] using rev_ind.
  { split; [|unfold Backend.endpoint_steps; simpl; lia]. intros _. by split. }
  rewrite server_run_snoc, endpoint_steps_snoc.
  pose proof (accounted_run sv e frames sched) as Hacc.
  set (st := Server.run sv (Server.accepted e frames) sched) in *.
  destruct c; simpl.
  2:{ rewrite Nat.add_0_r.
      assert (Server.pc (default st (Server.task_step sv st)) = Server.pc st
              ∧ Server.outbox (default st (Server.task_step sv st))
                = Server.outbox st) as [-> ->]; [|done].
      destruct (Server.task_step sv st) as [st'|] eqn:Hstep; simpl; [|done].
      by destruct (task_step_effect sv st st' Hstep) as (-> & _ & -> & _). }
  split.
  - intros Hle.
    destruct IHle as [Hnf Hk]; [lia|].
    destruct (endpoint_advances st Hacc Hnf) as (st' & -> & Hnf' & Hk'); [lia|].
    simpl. split; [done|lia].
  - intros Hgt.
    destruct (decide (Backend.endpoint_steps sched = 4 * length frames)) as [Heq|Hne].
    + destruct IHle as [Hnf Hk]; [lia|].
      destruct Hacc as [Hin Hturn _ _ _ Hpc].
      assert (Server.pc st = Server.AtReceive) as Epc.
      { destruct (Server.pc st); simpl in Hk; try done; lia. }
      rewrite Epc in Hpc, Hk. destruct Hpc as [Ho _]. simpl in Hk.
      assert (Server.inbox st = []) as Ein.
      { rewrite Hin. apply drop_ge. lia. }
      unfold Server.endpoint_step. rewrite Epc, Ein. simpl. split; [done|lia].
    + destruct IHgt as [Hf Hn]; [lia|].
      unfold Server.endpoint_step. rewrite Hf. simpl. by split.
Qed.

(** X17. When the store's search, the LLM and the synthesiser always
    answer and every frame has a 'text', the frames are answered
    however the event loop schedules the endpoint and the save tasks,
    and whether or not the saves succeed: after k resumptions of the
    endpoint exactly min(number of frames, k / 4) answers have been
    sent, each of the shape the front end decodes; it takes four
    resumptions to answer a frame. *)
Theorem answers_sent_under_any_schedule (e : Ext) (sched : list Server.Choice) :
  length (Server.outbox (Server.run sv (Server.accepted e frames) sched))
  = Nat.min (length frames) (Backend.endpoint_steps sched / 4)
  ∧ Forall (λ j, ∃ a r, j = Server.reply a r
                        ∧ NemoSocket.decode j
                          = NemoSocket.mkResponse (Some r) (Some a) [] None)
      (Server.outbox (Server.run sv (Server.accepted e frames) sched)).
Proof using search_answers generate_answers synthesize_answers frames_have_text.
  split.
  - destruct (progress_run e sched) as [Hle Hgt].
    destruct (decide (Backend.endpoint_steps sched ≤ 4 * length frames)) as [H|H].
    + destruct (Hle H) as [_ Hk].
      assert (Backend.phase
                (Server.pc (Server.run sv (Server.accepted e frames) sched)) < 4)
        as Hph by (destruct (Server.pc _); simpl; lia).
      assert (Backend.endpoint_steps sched / 4
              = length (Server.outbox
                          (Server.run sv (Server.accepted e frames) sched)))
        as ->.
      { symmetry. eapply Nat.div_unique; [exact Hph|]. lia. }
      lia.
    + destruct Hgt as [_ ->]; [lia|].
      assert (length frames ≤ Backend.endpoint_steps sched / 4); [|lia].
      apply Nat.div_le_lower_bound; lia.
  - eapply Forall_impl.
    + apply (run_outbox_replies sv sched (Server.accepted e frames)). constructor.
    + intros j (a & r & ->). exists a, r. split; [done|]. apply reply_shape.
Qed.

End BackendProgress.

(** ** The connection on examples *)
Section BackendExamples.
Import Text Json.

Lemma malformed_frame_or_disconnect_ends_the_connection_witness :
  Server.outbox
    (Server.run Server.stub (Server.accepted () Backend.broken_frames)
       (Server.RunEndpoint :: Backend.eager)) = []
  ∧ Server.inbox
      (Server.run Server.stub (Server.accepted () Backend.broken_frames)
         (Server.RunEndpoint :: Backend.eager))
    = [NemoSocket.request (lit "hi")].
Proof.
  destruct (malformed_frame_or_disconnect_ends_the_connection Server.stub
              (Server.accepted () Backend.broken_frames)
              (Server.KeyError "text"))
    as [_ H]; [reflexivity|reflexivity|].
  destruct (H Backend.eager) as (_ & _ & Ho & _ & Hi & _).
  split; [exact Ho|exact Hi].
Defined.

Lemma service_failure_sends_no_answer_witness :
  Server.outbox
    (Server.run Backend.tts_down
       (Server.run Backend.tts_down (Server.accepted () Backend.two_frames)
          [Server.RunEndpoint; Server.RunEndpoint])
       (Server.RunEndpoint :: Backend.eager)) = []
  ∧ Server.ready
      (Server.run Backend.tts_down
         (Server.run Backend.tts_down (Server.accepted () Backend.two_frames)
            [Server.RunEndpoint; Server.RunEndpoint])
         (Server.RunEndpoint :: Backend.eager)) `suffix_of` [].
Proof.
  destruct (service_failure_sends_no_answer Backend.tts_down
              (Server.run Backend.tts_down (Server.accepted () Backend.two_frames)
                 [Server.RunEndpoint; Server.RunEndpoint])
              (JStr (lit "hi")) []
              (Server.system_prompt
                 (Server.join Server.nl [lit "deadline is Friday"]))
              (Server.ServiceError (lit "tts")) ()
              (or_intror (conj eq_refl eq_refl)) Backend.eager)
    as (_ & _ & Ho & _ & Hr).
  split; [exact Ho|exact Hr].
Defined.

Lemma answers_sent_under_any_schedule_witness :
  length (Server.outbox
            (Server.run Backend.store_read_only
               (Server.accepted () Backend.two_frames) Backend.eager)) = 2.
Proof.
  destruct (answers_sent_under_any_schedule Backend.store_read_only
              Backend.two_frames) with (e := ()) (sched := Backend.eager)
    as [H _].
  - intros t u n e. by exists [Server.mkHit (lit "deadline is Friday")], e.
  - intros u p e. by exists p, e.
  - intros r e. by exists (lit "UklGRg=="), e.
  - repeat constructor; eexists; reflexivity.
  - exact H.
Defined.

End BackendExamples.

(** ** Dictation *)
Section SpeechFacts.
Import Text.

Lemma loop_heard (results : list SpeechRecognition.Result) (f i : ustring) :
  match SpeechRecognition.loop results f i with
  | Some (f', i') =>
    f' = f ++ SpeechRecognition.heard true results
    ∧ i' = i ++ SpeechRecognition.heard false results
    ∧ Forall (λ r, SpeechRecognition.alternatives r ≠ []) results
  | None => Exists (λ r, SpeechRecognition.alternatives r = []) results
  end.
Proof.
  revert f i. induction results as [|r rest IH]; intros f i; simpl.
  { by rewrite !app_nil_r. }
  destruct (SpeechRecognition.alternatives r) as [|alt alts] eqn:Ealt.
  { by apply Exists_cons_hd. }
  unfold SpeechRecognition.heard. simpl. rewrite Ealt.
  destruct (SpeechRecognition.isFinal r); simpl.
  - specialize (IH (f ++ alt) i).
    destruct (SpeechRecognition.loop rest (f ++ alt) i) as [[f' i']|].
    + destruct IH as (-> & -> & Hall). rewrite <- app_assoc.
      repeat split; try done. apply Forall_cons. split; [by rewrite Ealt|done].
    + by apply Exists_cons_tl.
  - specialize (IH f (i ++ alt)).
    destruct (SpeechRecognition.loop rest f (i ++ alt)) as [[f' i']|].
    + destruct IH as (-> & -> & Hall). rewrite <- app_assoc.
      repeat split; try done. apply Forall_cons. split; [by rewrite Ealt|done].
    + by apply Exists_cons_tl.
Qed.

(** X18. A result event sets the transcript from the results at and
    after [resultIndex] only: to the final results' texts joined when
    that is not empty, and else to the interim results' texts joined;
    final text replaces interim text, it is not appended to it.
    Listening and the error stay as they are.  The handler throws, and
    changes nothing, exactly when one of these results has no
    alternative. *)
Theorem transcript_is_final_text_else_interim
    (resultIndex : nat) (results : list SpeechRecognition.Result)
    (st : SpeechRecognition.State) :
  match SpeechRecognition.onresult resultIndex results st with
  | Some st' =>
    Forall (λ r, SpeechRecognition.alternatives r ≠ []) (drop resultIndex results)
    ∧ SpeechRecognition.transcript st'
      = (if decide (SpeechRecognition.heard true (drop resultIndex results) = [])
         then SpeechRecognition.heard false (drop resultIndex results)
         else SpeechRecognition.heard true (drop resultIndex results))
    ∧ SpeechRecognition.isListening st' = SpeechRecognition.isListening st
    ∧ SpeechRecognition.error st' = SpeechRecognition.error st
  | None =>
    Exists (λ r, SpeechRecognition.alternatives r = []) (drop resultIndex results)
  end.
Proof.
  unfold SpeechRecognition.onresult.
  pose proof (loop_heard (drop resultIndex results) [] []) as H.
  destruct (SpeechRecognition.loop (drop resultIndex results) [] [])
    as [[f i]|]; [|done].
  destruct H as (-> & -> & Hall). simpl.
  split; [done|]. split; [|done].
  unfold truthy.
  destruct (SpeechRecognition.heard true (drop resultIndex results)); by case_decide.
Qed.

(** What one event keeps, when the call of [startListening] has seen
    the current [isListening]. *)
Lemma handle_keeps_no_error_while_listening
    (st : SpeechRecognition.State) (ev : SpeechRecognition.Event) :
  match ev with
  | SpeechRecognition.CallsStart seen _ =>
    seen = SpeechRecognition.isListening st
  | _ => True
  end →
  SpeechRecognition.isListening st = false ∨ SpeechRecognition.error st = None →
  SpeechRecognition.isListening (SpeechRecognition.handle st ev) = false
  ∨ SpeechRecognition.error (SpeechRecognition.handle st ev) = None.
Proof.
  intros Hseen Hinv.
  destruct ev as [| |e|idx rs|seen throws|]; simpl; try done.
  - by right.
  - by left.
  - by left.
  - unfold SpeechRecognition.onresult.
    destruct (SpeechRecognition.loop _ _ _) as [[f i]|]; simpl; done.
  - unfold SpeechRecognition.startListening.
    destruct (negb _ || seen) eqn:E; [done|].
    simpl. apply orb_false_iff in E as [_ ->]. by left.
Qed.

(** X19. As long as the component has rendered before each call of
    [startListening], so that the callback has seen the hook's current
    [isListening], the hook never reports an error while it reports
    listening, whatever the recogniser and the component do.  A call
    from a render that has not seen it breaks this: made while
    listening, with [start()] throwing, it sets the error and listening
    stays on. *)
Theorem no_error_while_listening (isSupported : bool)
    (evs : list SpeechRecognition.Event) :
  SpeechRecognition.rendered (SpeechRecognition.initial isSupported) evs = true →
  (SpeechRecognition.isListening
     (SpeechRecognition.run (SpeechRecognition.initial isSupported) evs) = false
   ∨ SpeechRecognition.error
       (SpeechRecognition.run (SpeechRecognition.initial isSupported) evs) = None)
  ∧ (∀ st, SpeechRecognition.recognitionRef st = true →
           SpeechRecognition.isListening st = true →
           SpeechRecognition.isListening
             (SpeechRecognition.startListening false true st) = true
           ∧ SpeechRecognition.error
               (SpeechRecognition.startListening false true st)
             = Some (lit "Failed to start speech recognition")).
Proof.
  intros Hr. split.
  - assert (∀ st,
              SpeechRecognition.rendered st evs = true →
              SpeechRecognition.isListening st = false
              ∨ SpeechRecognition.error st = None →
              SpeechRecognition.isListening (SpeechRecognition.run st evs) = false
              ∨ SpeechRecognition.error (SpeechRecognition.run st evs) = None)
      as Hall.
    { clear Hr. induction evs as [|ev evs IH]; intros st Hr Hinv; [done|].
      simpl in Hr. apply andb_true_iff in Hr as [Hev Hr].
      simpl. fold (SpeechRecognition.run (SpeechRecognition.handle st ev) evs).
      apply IH; [exact Hr|].
      apply handle_keeps_no_error_while_listening; [|exact Hinv].
      destruct ev; try done. by apply eqb_prop in Hev. }
    apply Hall; [exact Hr|by left].
  - intros st Href Hl. unfold SpeechRecognition.startListening.
    rewrite Href. simpl. by split.
Qed.

Lemma no_error_while_listening_witness :
  SpeechRecognition.isListening
    (SpeechRecognition.run (SpeechRecognition.initial true)
       SpeechRecognition.retried) = false
  ∨ SpeechRecognition.error
      (SpeechRecognition.run (SpeechRecognition.initial true)
         SpeechRecognition.retried) = None.
Proof.
  apply (no_error_while_listening true SpeechRecognition.retried).
  reflexivity.
Defined.

End SpeechFacts.
